(** * DB25 SQL tokenizer: a shallow embedding of [simd_tokenizer.cpp]

    The development follows the sources file by file:
    - [CharClassifier]: the 256-entry classification table and its inline
      predicates ([include/char_classifier.hpp]);
    - the token record ([include/simd_tokenizer.hpp]);
    - the scalar lexer core and the token stream assembler
      ([src/simd_tokenizer.cpp]).

    The tokenizer object is modelled by explicit state passing.  The input
    buffer is immutable and is a parameter of the model; the three mutable
    fields [position_], [line_] and [column_] form the state record.  They
    are [size_t] in the sources; every value they take is bounded by
    [input_size_ + 1] (see [Scanned], [Tracks] and [line_column_bounded]),
    so no unsigned wrap-around can occur and they are modelled by [nat].

    Every [while] loop of the sources is embedded through one combinator
    [while] that takes fuel and answers [None] when the fuel runs out; the
    theorems establish that the fuel handed to each loop is always enough. *)

From Stdlib Require Import Strings.Byte Strings.String.
From Stdlib Require Import List Arith Lia Bool NArith ZArith Sorted.
Import ListNotations.

(* ===================================================================== *)
(** ** include/char_classifier.hpp *)
(* ===================================================================== *)

Module CharClassifier.

Local Open Scope N_scope.

(** [enum CharClass : uint8_t] *)
Definition CHAR_NONE        : N := 0x00.
Definition CHAR_WHITESPACE  : N := 0x01.
Definition CHAR_ALPHA_UPPER : N := 0x02.
Definition CHAR_ALPHA_LOWER : N := 0x04.
Definition CHAR_DIGIT       : N := 0x08.
Definition CHAR_UNDERSCORE  : N := 0x10.
Definition CHAR_QUOTE       : N := 0x20.
Definition CHAR_OPERATOR    : N := 0x40.
Definition CHAR_DELIMITER   : N := 0x80.

Definition CHAR_ALPHA       : N := N.lor CHAR_ALPHA_UPPER CHAR_ALPHA_LOWER.
Definition CHAR_IDENT_START : N := N.lor CHAR_ALPHA CHAR_UNDERSCORE.
Definition CHAR_IDENT_CONT  : N := N.lor CHAR_IDENT_START CHAR_DIGIT.

(** [char_lookup_table[256]], row by row as in the header. *)
Definition char_lookup_table : list N :=
  let WS := CHAR_WHITESPACE in let OP := CHAR_OPERATOR in
  let QT := CHAR_QUOTE in let DL := CHAR_DELIMITER in
  let DG := CHAR_DIGIT in
  let UP := CHAR_ALPHA_UPPER in let LO := CHAR_ALPHA_LOWER in
  (* 0x00 - 0x1F: control characters *)
  [ 0; 0; 0; 0; 0; 0; 0; 0; 0; WS; WS; 0; 0; WS; 0; 0;
    0; 0; 0; 0; 0; 0; 0; 0; 0; 0; 0; 0; 0; 0; 0; 0;
  (* 0x20 - 0x2F: space ! dquote # $ % & quote ( ) * + , - . / *)
    WS; OP; QT; 0; 0; OP; OP; QT; DL; DL; OP; OP; DL; OP; OP; OP;
  (* 0x30 - 0x39: digits *)
    DG; DG; DG; DG; DG; DG; DG; DG; DG; DG;
  (* 0x3A - 0x3F: colon ; < = > ? *)
    DL; DL; OP; OP; OP; 0;
  (* 0x40 - 0x5A: @ and the uppercase letters *)
    0;
    UP; UP; UP; UP; UP; UP; UP; UP; UP; UP; UP; UP; UP;
    UP; UP; UP; UP; UP; UP; UP; UP; UP; UP; UP; UP; UP;
  (* 0x5B - 0x60: [ backslash ] ^ _ backtick *)
    DL; 0; DL; OP; CHAR_UNDERSCORE; 0;
  (* 0x61 - 0x7A: the lowercase letters *)
    LO; LO; LO; LO; LO; LO; LO; LO; LO; LO; LO; LO; LO;
    LO; LO; LO; LO; LO; LO; LO; LO; LO; LO; LO; LO; LO;
  (* 0x7B - 0x7F: { | } ~ DEL *)
    DL; OP; DL; OP; 0;
  (* 0x80 - 0xFF: extended ASCII *)
    0; 0; 0; 0; 0; 0; 0; 0; 0; 0; 0; 0; 0; 0; 0; 0;
    0; 0; 0; 0; 0; 0; 0; 0; 0; 0; 0; 0; 0; 0; 0; 0;
    0; 0; 0; 0; 0; 0; 0; 0; 0; 0; 0; 0; 0; 0; 0; 0;
    0; 0; 0; 0; 0; 0; 0; 0; 0; 0; 0; 0; 0; 0; 0; 0;
    0; 0; 0; 0; 0; 0; 0; 0; 0; 0; 0; 0; 0; 0; 0; 0;
    0; 0; 0; 0; 0; 0; 0; 0; 0; 0; 0; 0; 0; 0; 0; 0;
    0; 0; 0; 0; 0; 0; 0; 0; 0; 0; 0; 0; 0; 0; 0; 0;
    0; 0; 0; 0; 0; 0; 0; 0; 0; 0; 0; 0; 0; 0; 0; 0 ].

(** [char_lookup_table[ch]] for a [uint8_t ch]. *)
Definition lookup (ch : byte) : N :=
  nth (Byte.to_nat ch) char_lookup_table 0.

Definition has_class (ch : byte) (mask : N) : bool :=
  negb (N.land (lookup ch) mask =? 0).

Definition is_identifier_start (ch : byte) : bool := has_class ch CHAR_IDENT_START.
Definition is_identifier_cont  (ch : byte) : bool := has_class ch CHAR_IDENT_CONT.
Definition is_digit            (ch : byte) : bool := has_class ch CHAR_DIGIT.
Definition is_whitespace       (ch : byte) : bool := has_class ch CHAR_WHITESPACE.
Definition is_operator         (ch : byte) : bool := has_class ch CHAR_OPERATOR.
Definition is_delimiter        (ch : byte) : bool := has_class ch CHAR_DELIMITER.
Definition is_quote            (ch : byte) : bool := has_class ch CHAR_QUOTE.

End CharClassifier.
Export CharClassifier.

(** Character literals of the sources. *)
Definition NL      : byte := x0a.  (* '\n' *)
Definition c_minus : byte := x2d.  (* '-' *)
Definition c_plus  : byte := x2b.  (* '+' *)
Definition c_slash : byte := x2f.  (* '/' *)
Definition c_star  : byte := x2a.  (* '*' *)
Definition c_dot   : byte := x2e.  (* '.' *)
Definition c_e     : byte := x65.  (* 'e' *)
Definition c_E     : byte := x45.  (* 'E' *)
Definition c_lt    : byte := x3c.  (* '<' *)
Definition c_eq    : byte := x3d.  (* '=' *)
Definition c_gt    : byte := x3e.  (* '>' *)
Definition c_bang  : byte := x21.  (* '!' *)
Definition c_pipe  : byte := x7c.  (* '|' *)
Definition c_amp   : byte := x26.  (* '&' *)
Definition c_colon : byte := x3a.  (* ':' *)
Definition c_squote : byte := x27. (* single quote *)
Definition c_dquote : byte := x22. (* double quote *)

Infix "==b" := Byte.eqb (at level 70, no associativity).

(* ===================================================================== *)
(** ** include/simd_tokenizer.hpp *)
(* ===================================================================== *)

(** [enum class TokenType : uint8_t] *)
Module TokenType.
Inductive t : Set :=
| Unknown | Keyword | Identifier | Number | String
| Operator | Delimiter | Whitespace | Comment | EndOfFile.

Definition eqb (a b : t) : bool :=
  match a, b with
  | Unknown, Unknown | Keyword, Keyword | Identifier, Identifier
  | Number, Number | String, String | Operator, Operator
  | Delimiter, Delimiter | Whitespace, Whitespace
  | Comment, Comment | EndOfFile, EndOfFile => true
  | _, _ => false
  end.

End TokenType.

(** Modelled from the spec: the enumeration [Keyword] of [keywords.hpp],
    which is not among the sources.  The spec (section 3) describes it as
    a canonical keyword identifier together with the sentinel unknown;
    the sources only ever name [Keyword::UNKNOWN]. *)
Module Keyword.
Inductive t : Set :=
| UNKNOWN
| Known (id : N).

Definition eqb (a b : t) : bool :=
  match a, b with
  | UNKNOWN, UNKNOWN => true
  | Known i, Known j => N.eqb i j
  | _, _ => false
  end.

End Keyword.

(** The keyword look-ups called by [scan_identifier_or_keyword] live in
    [keywords.hpp] and [simd_architecture.hpp], which are not among the
    sources: the dictionary is a parameter of the model.  [is_keyword_simd]
    receives the lexeme and the keyword found so far (passed by reference
    in the sources) and answers the keyword to store. *)
Class KeywordDictionary : Type := {
  find_keyword    : list byte -> Keyword.t;
  is_keyword_simd : list byte -> Keyword.t -> Keyword.t
}.

(** A [const char*]: either [input_ + off], or the string literal of the
    end-of-file token, which does not point into the input. *)
Inductive char_ptr : Set :=
| InputPlus (off : nat)
| EmptyLiteral.

(** [std::string_view]: a pointer and a length, nothing is copied. *)
Record string_view : Set := {
  sv_data : char_ptr;
  sv_size : nat
}.

(** [struct Token] *)
Record Token : Set := {
  type       : TokenType.t;
  value      : string_view;
  keyword_id : Keyword.t;
  line       : nat;
  column     : nat
}.

(** The mutable fields of [class SimdTokenizer]. *)
Record State : Set := {
  position_ : nat;
  line_     : nat;
  column_   : nat
}.

(** Offset of a token's first byte in the input. *)
Definition offset_of (t : Token) : nat :=
  match sv_data (value t) with
  | InputPlus off => off
  | EmptyLiteral => 0
  end.

(** Length of a token's value. *)
Definition size_of (t : Token) : nat := sv_size (value t).

(** The half-open range [[lo, hi)] of a list. *)
Definition slice (l : list byte) (lo hi : nat) : list byte :=
  firstn (hi - lo) (skipn lo l).

(** The bytes a view denotes, given the buffer it borrows from. *)
Definition sv_bytes (input : list byte) (v : string_view) : list byte :=
  match sv_data v with
  | InputPlus off => slice input off (off + sv_size v)
  | EmptyLiteral => []
  end.

(* ===================================================================== *)
(** ** Loops *)
(* ===================================================================== *)

Inductive flow : Set := Continue | Break.

(** [while (cond) { body }] with [break]: the body answers how it left
    and the new loop state; [None] means the fuel was not enough. *)
Fixpoint while {S : Type} (fuel : nat) (cond : S -> bool)
         (body : S -> option (flow * S)) (s : S) : option S :=
  match fuel with
  | O => None
  | Datatypes.S fuel' =>
      if cond s then
        match body s with
        | Some (Continue, s') => while fuel' cond body s'
        | Some (Break, s') => Some s'
        | None => None
        end
      else Some s
  end.

(** Modelled from the spec: [skip_whitespace(ptr, len)] of the SIMD
    processors ([simd_architecture.hpp] is not among the sources).  By
    section 4.3 it answers the number of leading bytes of [[ptr, ptr+len)]
    that are classified WHITESPACE, and all tiers are byte-for-byte
    equivalent to the scalar loop over the classification table, which is
    the one written here.  The argument is the range [[ptr, ptr+len)]. *)
Fixpoint skip_whitespace (range : list byte) : nat :=
  match range with
  | ch :: rest => if is_whitespace ch then S (skip_whitespace rest) else 0
  | [] => 0
  end.

(* ===================================================================== *)
(** ** src/simd_tokenizer.cpp *)
(* ===================================================================== *)

Section Tokenizer.

Context {dict : KeywordDictionary}.

(** [const std::byte* input_] and [input_size_]. *)
Variable input_ : list byte.

Definition input_size_ : nat := length input_.

(** [static_cast<uint8_t>(input_[i])]; every read of the sources is
    guarded by [i < input_size_]. *)
Definition at_ (i : nat) : byte := nth i input_ x00.

(** Constructor: [position_(0), line_(1), column_(1)]. *)
Definition init : State :=
  {| position_ := 0; line_ := 1; column_ := 1 |}.

(** [position_ += n; column_ += n;] *)
Definition advance (n : nat) (s : State) : State :=
  {| position_ := position_ s + n;
     line_     := line_ s;
     column_   := column_ s + n |}.

(** [++position_; ++line_; column_ = 1;] *)
Definition newline (s : State) : State :=
  {| position_ := position_ s + 1;
     line_     := line_ s + 1;
     column_   := 1 |}.

(** [std::string_view value(input_ + start, position_ - start)] *)
Definition view (start : nat) (s : State) : string_view :=
  {| sv_data := InputPlus start; sv_size := position_ s - start |}.

(** Fuel for a loop entered in state [s]: one more than the number of
    bytes left. *)
Definition fuel (s : State) : nat := S (input_size_ - position_ s).

Definition in_bounds (s : State) : bool := position_ s <? input_size_.

(** *** scan_identifier_or_keyword *)

Definition identifier_body (s : State) : option (flow * State) :=
  let ch := at_ (position_ s) in
  if negb (is_identifier_cont ch) then Some (Break, s)
  else Some (Continue, advance 1 s).

Definition scan_identifier_or_keyword
           (start start_line start_column : nat) (s : State)
  : option (Token * State) :=
  match while (fuel s) in_bounds identifier_body s with
  | None => None
  | Some s =>
      let value := view start s in
      let kw := find_keyword (sv_bytes input_ value) in
      let type :=
        if negb (Keyword.eqb kw Keyword.UNKNOWN)
        then TokenType.Keyword else TokenType.Identifier in
      let '(type, kw) :=
        if Keyword.eqb kw Keyword.UNKNOWN && (sv_size value <=? 32) then
          let kw := is_keyword_simd (sv_bytes input_ value) kw in
          (if negb (Keyword.eqb kw Keyword.UNKNOWN)
           then TokenType.Keyword else type, kw)
        else (type, kw) in
      Some ({| type := type; value := value; keyword_id := kw;
               line := start_line; column := start_column |}, s)
  end.

(** *** scan_number: the loop state carries [has_dot] and [has_exp]. *)

Definition number_body (st : bool * bool * State)
  : option (flow * (bool * bool * State)) :=
  let '(has_dot, has_exp, s) := st in
  let ch := at_ (position_ s) in
  if is_digit ch then
    Some (Continue, (has_dot, has_exp, advance 1 s))
  else if (ch ==b c_dot) && negb has_dot && negb has_exp then
    Some (Continue, (true, has_exp, advance 1 s))
  else if ((ch ==b c_e) || (ch ==b c_E)) && negb has_exp then
    let s := advance 1 s in
    let s :=
      if position_ s <? input_size_ then
        let ch := at_ (position_ s) in
        if (ch ==b c_plus) || (ch ==b c_minus) then advance 1 s else s
      else s in
    Some (Continue, (has_dot, true, s))
  else Some (Break, st).

Definition scan_number (start start_line start_column : nat) (s : State)
  : option (Token * State) :=
  match while (fuel s) (fun st => in_bounds (snd st)) number_body
              (false, false, s) with
  | None => None
  | Some (_, _, s) =>
      Some ({| type := TokenType.Number; value := view start s;
               keyword_id := Keyword.UNKNOWN;
               line := start_line; column := start_column |}, s)
  end.

(** *** scan_string *)

Definition string_body (quote : byte) (s : State) : option (flow * State) :=
  let ch := at_ (position_ s) in
  if ch ==b quote then
    if (position_ s + 1 <? input_size_) && (at_ (position_ s + 1) ==b quote)
    then Some (Continue, advance 2 s)
    else Some (Break, advance 1 s)
  else if ch ==b NL then Some (Continue, newline s)
  else Some (Continue, advance 1 s).

Definition scan_string (start start_line start_column : nat) (quote : byte)
           (s : State) : option (Token * State) :=
  let s := advance 1 s in
  match while (fuel s) in_bounds (string_body quote) s with
  | None => None
  | Some s =>
      Some ({| type := TokenType.String; value := view start s;
               keyword_id := Keyword.UNKNOWN;
               line := start_line; column := start_column |}, s)
  end.

(** *** scan_comment *)

Definition comment_body (s : State) : option (flow * State) :=
  if at_ (position_ s) ==b NL then Some (Break, newline s)
  else Some (Continue, advance 1 s).

Definition scan_comment (start start_line start_column : nat) (s : State)
  : option (Token * State) :=
  let s := advance 2 s in
  match while (fuel s) in_bounds comment_body s with
  | None => None
  | Some s =>
      Some ({| type := TokenType.Comment; value := view start s;
               keyword_id := Keyword.UNKNOWN;
               line := start_line; column := start_column |}, s)
  end.

(** *** scan_block_comment: the loop runs while [position_ + 1 < input_size_]. *)

Definition block_comment_cond (s : State) : bool :=
  position_ s + 1 <? input_size_.

Definition block_comment_body (s : State) : option (flow * State) :=
  if (at_ (position_ s) ==b c_star) && (at_ (position_ s + 1) ==b c_slash)
  then Some (Break, advance 2 s)
  else if at_ (position_ s) ==b NL then Some (Continue, newline s)
  else Some (Continue, advance 1 s).

Definition scan_block_comment (start start_line start_column : nat)
           (s : State) : option (Token * State) :=
  let s := advance 2 s in
  match while (fuel s) block_comment_cond block_comment_body s with
  | None => None
  | Some s =>
      Some ({| type := TokenType.Comment; value := view start s;
               keyword_id := Keyword.UNKNOWN;
               line := start_line; column := start_column |}, s)
  end.

(** *** scan_operator_or_delimiter *)

(** The condition guarding the second [++position_]. *)
Definition two_byte_operator (ch next : byte) : bool :=
  ((ch ==b c_lt) && ((next ==b c_eq) || (next ==b c_gt))) ||
  ((ch ==b c_gt) && (next ==b c_eq)) ||
  ((ch ==b c_bang) && (next ==b c_eq)) ||
  ((ch ==b c_eq) && (next ==b c_eq)) ||
  ((ch ==b c_pipe) && (next ==b c_pipe)) ||
  ((ch ==b c_amp) && (next ==b c_amp)) ||
  ((ch ==b c_colon) && (next ==b c_colon)) ||
  ((ch ==b c_lt) && (next ==b c_lt)) ||
  ((ch ==b c_gt) && (next ==b c_gt)).

Definition scan_operator_or_delimiter
           (start start_line start_column : nat) (s : State)
  : Token * State :=
  let ch := at_ (position_ s) in
  let s := advance 1 s in
  let type :=
    if is_delimiter ch then TokenType.Delimiter else TokenType.Operator in
  let s :=
    if position_ s <? input_size_ then
      let next := at_ (position_ s) in
      if two_byte_operator ch next then advance 1 s else s
    else s in
  ({| type := type; value := view start s;
      keyword_id := Keyword.UNKNOWN;
      line := start_line; column := start_column |}, s).

(** *** next_token *)

Definition next_token (s : State) : option (Token * State) :=
  if input_size_ <=? position_ s then
    Some ({| type := TokenType.EndOfFile;
             value := {| sv_data := EmptyLiteral; sv_size := 0 |};
             keyword_id := Keyword.UNKNOWN;
             line := line_ s; column := column_ s |}, s)
  else
    let start := position_ s in
    let start_line := line_ s in
    let start_column := column_ s in
    let first_char := at_ (position_ s) in
    if is_identifier_start first_char then
      scan_identifier_or_keyword start start_line start_column s
    else if is_digit first_char then
      scan_number start start_line start_column s
    else if is_quote first_char then
      scan_string start start_line start_column first_char s
    else if (first_char ==b c_minus) && (position_ s + 1 <? input_size_)
            && (at_ (position_ s + 1) ==b c_minus) then
      scan_comment start start_line start_column s
    else if (first_char ==b c_slash) && (position_ s + 1 <? input_size_)
            && (at_ (position_ s + 1) ==b c_star) then
      scan_block_comment start start_line start_column s
    else
      Some (scan_operator_or_delimiter start start_line start_column s).

(** *** update_position: [for (i = 0; i < count; ++i)] *)

Definition update_position_step (s : State) : State :=
  let ch := at_ (position_ s) in
  if ch ==b NL then
    {| position_ := position_ s + 1; line_ := line_ s + 1; column_ := 1 |}
  else
    {| position_ := position_ s + 1; line_ := line_ s;
       column_ := column_ s + 1 |}.

Fixpoint update_position (count : nat) (s : State) : State :=
  match count with
  | O => s
  | S count' => update_position count' (update_position_step s)
  end.

(** *** tokenize: the loop state is the vector [tokens] and the fields. *)

Definition tokenize_body (st : list Token * State)
  : option (flow * (list Token * State)) :=
  let '(tokens, s) := st in
  let skip := skip_whitespace (skipn (position_ s) input_) in
  let s := if 0 <? skip then update_position skip s else s in
  if input_size_ <=? position_ s then Some (Break, (tokens, s))
  else
    match next_token s with
    | None => None
    | Some (token, s) =>
        let tokens :=
          if negb (TokenType.eqb (type token) TokenType.Whitespace)
          then tokens ++ [token] else tokens in
        if TokenType.eqb (type token) TokenType.EndOfFile
        then Some (Break, (tokens, s))
        else Some (Continue, (tokens, s))
    end.

(** The loop of [tokenize], entered in state [s] with [tokens] pushed. *)
Definition tokenize_from (tokens : list Token) (s : State)
  : option (list Token * State) :=
  while (fuel s) (fun st => in_bounds (snd st)) tokenize_body (tokens, s).

Definition tokenize : option (list Token) :=
  match tokenize_from [] init with
  | Some (tokens, _) => Some tokens
  | None => None
  end.

End Tokenizer.

(** The dictionary that knows no keyword. *)
Definition no_keywords : KeywordDictionary :=
  {| find_keyword := fun _ => Keyword.UNKNOWN;
     is_keyword_simd := fun _ kw => kw |}.

(** The bytes of a string literal. *)
Definition bytes (s : string) : list byte := list_byte_of_string s.

(* ===================================================================== *)
(** ** Reference notions used by the statements *)
(* ===================================================================== *)

(** Number of newline bytes in a list. *)
Definition count_newlines (l : list byte) : nat :=
  length (filter (fun b => b ==b NL) l).

(** Index of the last newline of [l], scanning from index [i] with the
    last one seen so far in [acc]. *)
Fixpoint last_newline_from (i : nat) (l : list byte) (acc : option nat)
  : option nat :=
  match l with
  | [] => acc
  | b :: rest =>
      last_newline_from (S i) rest (if b ==b NL then Some i else acc)
  end.

Definition last_newline (l : list byte) : option nat :=
  last_newline_from 0 l None.

(** Line of offset [o]: one plus the newlines in [X[..o)]. *)
Definition line_at (X : list byte) (o : nat) : nat :=
  1 + count_newlines (firstn o X).

(** Column of offset [o]: [o] minus the offset of the last newline before
    [o], that offset being -1 when there is none. *)
Definition column_at (X : list byte) (o : nat) : nat :=
  match last_newline (firstn o X) with
  | Some k => o - k
  | None => o + 1
  end.

(* ===================================================================== *)
(** ** Invariants of the loops and shapes of the lexemes *)
(* ===================================================================== *)

(** [line_] and [column_] describe the byte at [position_]. *)
Definition Tracks (X : list byte) (s : State) : Prop :=
  line_ s = line_at X (position_ s) /\
  column_ s = column_at X (position_ s).

(** A token [t] scanned from state [s] with the captured line [l] and
    column [c], leaving state [s']: at least one byte is consumed, the
    position stays within the input, the value is the range scanned,
    and when the first byte is no newline the line and column go on
    describing the position. *)
Definition Scanned (X : list byte) (s : State) (l c : nat) (t : Token)
           (s' : State) : Prop :=
  position_ s < position_ s' /\
  position_ s' <= length X /\
  value t = view (position_ s) s' /\
  line t = l /\ column t = c /\
  (Tracks X s -> at_ X (position_ s) <> NL -> Tracks X s').

(** The kinds [next_token] gives to a lexeme. *)
Definition lexeme_type (ty : TokenType.t) : Prop :=
  ty <> TokenType.Whitespace /\ ty <> TokenType.EndOfFile.

(** A scan function called in state [s] returns, having moved the
    position forward and not past the end of the input. *)
Definition advances_within (X : list byte) (s : State)
           (r : option (Token * State)) : Prop :=
  exists t s', r = Some (t, s') /\
               position_ s < position_ s' /\ position_ s' <= length X.

(** Bytes skipped as whitespace when the loop of [tokenize] is at [c]. *)
Definition skipped_at (X : list byte) (c : nat) : nat :=
  skip_whitespace (skipn c X).

(** A token pushed for the lexeme that starts at offset [o]. *)
Definition Emitted (X : list byte) (o : nat) (t : Token) : Prop :=
  sv_data (value t) = InputPlus o /\
  0 < size_of t /\
  o + size_of t <= length X /\
  line t = line_at X o /\
  column t = column_at X o /\
  lexeme_type (type t).

(** The tokens pushed by the iterations that took the position from
    [c] to [p]: each one starts where the whitespace skipped at the
    end of the previous one stops. *)
Fixpoint Tiles (X : list byte) (c : nat) (tokens : list Token) (p : nat)
  : Prop :=
  match tokens with
  | [] => c = p
  | t :: rest =>
      Emitted X (c + skipped_at X c) t /\
      Tiles X (c + skipped_at X c + size_of t) rest p
  end.

(** The state of the loop of [tokenize] between two iterations. *)
Definition Assembling (X : list byte) (st : list Token * State) : Prop :=
  position_ (snd st) <= length X /\
  Tracks X (snd st) /\
  Tiles X 0 (fst st) (position_ (snd st)).

(** What holds when the loop is left: the tokens tile the input up to
    some offset after which only skipped whitespace remains. *)
Definition Assembled (X : list byte) (st : list Token * State) : Prop :=
  position_ (snd st) = length X /\
  exists p, Tiles X 0 (fst st) p /\ p + skipped_at X p = length X.

(** The token values interleaved, in order, with the bytes skipped as
    whitespace before each token and after the last one, starting with
    the cursor at [cursor]. *)
Fixpoint interleave (X : list byte) (cursor : nat) (tokens : list Token)
  : list byte :=
  let n := skip_whitespace (skipn cursor X) in
  match tokens with
  | [] => slice X cursor (cursor + n)
  | t :: rest =>
      slice X cursor (cursor + n) ++ sv_bytes X (value t) ++
      interleave X (cursor + n + size_of t) rest
  end.

(** The two-byte extension table of the spec (section 4.5.6):
    [<=  <>  <<  >=  >>  !=  ==  ||  &&  ::]. *)
Definition extension_table : list (byte * byte) :=
  [ (c_lt, c_eq); (c_lt, c_gt); (c_lt, c_lt);
    (c_gt, c_eq); (c_gt, c_gt);
    (c_bang, c_eq);
    (c_eq, c_eq);
    (c_pipe, c_pipe); (c_amp, c_amp);
    (c_colon, c_colon) ].

(** What lies between the quotes of a literal: bytes other than the
    quote, and escaped quotes, each written as the quote twice. *)
Inductive EscapedRun (quote : byte) : list byte -> Prop :=
| run_nil : EscapedRun quote []
| run_byte ch rest :
    ch <> quote -> EscapedRun quote rest -> EscapedRun quote (ch :: rest)
| run_escaped rest :
    EscapedRun quote rest -> EscapedRun quote (quote :: quote :: rest).

(** The value of a String token scanned with [quote]: either closed, the
    quote, a run and the terminating quote, which no further quote
    follows; or unterminated, the quote and a run up to the end of the
    input [X], the token ending at offset [stop]. *)
Definition string_literal (X : list byte) (quote : byte) (v : list byte)
           (stop : nat) : Prop :=
  (exists run, v = quote :: run ++ [quote] /\ EscapedRun quote run /\
               (stop < length X -> at_ X stop <> quote)) \/
  (stop = length X /\ exists run, v = quote :: run /\ EscapedRun quote run).

(** The tests of [scan_number] on the exponent marker and on its sign. *)
Definition is_exponent_marker (ch : byte) : bool :=
  (ch ==b c_e) || (ch ==b c_E).

Definition is_sign (ch : byte) : bool :=
  (ch ==b c_plus) || (ch ==b c_minus).

Definition digits (l : list byte) : Prop :=
  Forall (fun ch => is_digit ch = true) l.

(** At most one decimal point, followed by digits. *)
Inductive fraction : list byte -> Prop :=
| fraction_none : fraction []
| fraction_dot ds : digits ds -> fraction (c_dot :: ds).

(** At most one exponent marker, with at most one sign right after it,
    followed by digits; no digit is required. *)
Inductive exponent : list byte -> Prop :=
| exponent_none : exponent []
| exponent_marker m ds :
    is_exponent_marker m = true -> digits ds -> exponent (m :: ds)
| exponent_signed m sg ds :
    is_exponent_marker m = true -> is_sign sg = true -> digits ds ->
    exponent (m :: sg :: ds).

(** The value [v] of a Number token, and why the byte [next] that follows
    it, if any, was not consumed: [v] is digits, then a fraction, then an
    exponent; [next] is no digit, it is a dot only after a dot or an
    exponent, a marker only after an exponent, and a sign only when it
    does not come right after the marker. *)
Definition number_lexeme (v : list byte) (next : option byte) : Prop :=
  exists ds fr ex,
    v = ds ++ fr ++ ex /\
    ds <> [] /\ digits ds /\ fraction fr /\ exponent ex /\
    forall ch, next = Some ch ->
      is_digit ch = false /\
      (ch = c_dot -> fr <> [] \/ ex <> []) /\
      (is_exponent_marker ch = true -> ex <> []) /\
      (is_sign ch = true -> forall m, ex <> [m]).

(** The byte at offset [i], if the input has one. *)
Definition peek (X : list byte) (i : nat) : option byte :=
  if i <? length X then Some (at_ X i) else None.

(** The loop of [scan_number], with the flags read as a description of
    what has been consumed. *)
Definition number_prefix (X : list byte) (start : nat)
           (st : bool * bool * State) : Prop :=
  let '(has_dot, has_exp, s) := st in
  start <= position_ s /\ position_ s <= length X /\
  exists ds fr ex,
    slice X start (position_ s) = ds ++ fr ++ ex /\
    digits ds /\ fraction fr /\ exponent ex /\
    (start < position_ s -> ds <> []) /\
    (has_dot = true <-> fr <> []) /\
    (has_exp = true <-> ex <> []) /\
    (forall m, ex = [m] -> peek X (position_ s) = None \/
                           exists ch, peek X (position_ s) = Some ch /\
                                      is_sign ch = false).

(** The 16 bytes [/* hi], newline, [ there */x]. *)
Definition two_line_comment : list byte :=
  bytes "/* hi" ++ [NL] ++ bytes " there */x".

(** The 7 bytes ['it''s']. *)
Definition escaped_quote : list byte := bytes "'it''s'".

(** The flags of [CharClass] that are single bits. *)
Definition class_flags : list N :=
  [ CHAR_WHITESPACE; CHAR_ALPHA_UPPER; CHAR_ALPHA_LOWER; CHAR_DIGIT;
    CHAR_UNDERSCORE; CHAR_QUOTE; CHAR_OPERATOR; CHAR_DELIMITER ].

(** Membership in a list of bytes, as a test. *)
Definition one_of (l : list byte) (ch : byte) : bool :=
  existsb (fun c => ch ==b c) l.

(* ===================================================================== *)
(** ** analysis/lookup_table_analysis.cpp *)
(* ===================================================================== *)

(** The file declares the same [CharClass] flags and the same 256-entry
    [char_lookup_table] as [char_classifier.hpp]; its [..._lookup]
    functions are the inline predicates of the header.  The [..._range]
    functions compare the [uint8_t] with character literals. *)
Module LookupTableAnalysis.

(** The value of a [uint8_t]. *)
Definition code (ch : byte) : N := Byte.to_N ch.

(** [ch >= lo && ch <= hi] *)
Definition between (lo hi ch : byte) : bool :=
  ((code lo <=? code ch) && (code ch <=? code hi))%N.

Definition is_identifier_start_range (ch : byte) : bool :=
  between x41 x5a ch ||        (* 'A' .. 'Z' *)
  between x61 x7a ch ||        (* 'a' .. 'z' *)
  (ch ==b x5f).                (* '_' *)

Definition is_identifier_cont_range (ch : byte) : bool :=
  between x41 x5a ch ||
  between x61 x7a ch ||
  between x30 x39 ch ||        (* '0' .. '9' *)
  (ch ==b x5f).

Definition is_digit_range (ch : byte) : bool := between x30 x39 ch.

Definition is_whitespace_range (ch : byte) : bool :=
  (ch ==b x20) || (ch ==b x09) || (ch ==b x0a) || (ch ==b x0d).

Definition is_identifier_start_lookup (ch : byte) : bool :=
  negb (N.land (lookup ch) CHAR_IDENT_START =? 0)%N.

Definition is_identifier_cont_lookup (ch : byte) : bool :=
  negb (N.land (lookup ch) CHAR_IDENT_CONT =? 0)%N.

Definition is_digit_lookup (ch : byte) : bool :=
  negb (N.land (lookup ch) CHAR_DIGIT =? 0)%N.

Definition is_whitespace_lookup (ch : byte) : bool :=
  negb (N.land (lookup ch) CHAR_WHITESPACE =? 0)%N.

End LookupTableAnalysis.

(* ===================================================================== *)
(** ** Further notions on tokens *)
(* ===================================================================== *)

(** Where a token ends. *)
Definition end_of (t : Token) : nat := offset_of t + size_of t.

(** The two tests of [next_token] that send a lexeme to [scan_comment]
    or to [scan_block_comment]: a dash followed by a dash, or a slash
    followed by a star, at offset [p]. *)
Definition opens_comment (X : list byte) (p : nat) : Prop :=
  p + 1 < length X /\
  ((at_ X p = c_minus /\ at_ X (p + 1) = c_minus) \/
   (at_ X p = c_slash /\ at_ X (p + 1) = c_star)).

(** How the first bytes of a lexeme decide its kind, following the tests
    of [next_token] in their order; [p] is the offset of the lexeme.  An
    Operator is what passed every test: no identifier start, no digit,
    no quote, no comment opener, and no delimiter. *)
Definition starts_as (X : list byte) (p : nat) (ty : TokenType.t) : Prop :=
  match ty with
  | TokenType.Keyword | TokenType.Identifier =>
      is_identifier_start (at_ X p) = true
  | TokenType.Number => is_digit (at_ X p) = true
  | TokenType.String => is_quote (at_ X p) = true
  | TokenType.Comment => opens_comment X p
  | TokenType.Operator =>
      is_delimiter (at_ X p) = false /\
      is_identifier_start (at_ X p) = false /\
      is_digit (at_ X p) = false /\ is_quote (at_ X p) = false /\
      ~ opens_comment X p
  | TokenType.Delimiter => is_delimiter (at_ X p) = true
  | TokenType.Unknown | TokenType.Whitespace | TokenType.EndOfFile => False
  end.

(** The same kind, Keyword and Identifier taken as one: which of the two
    it is depends on the keyword dictionary and not on the first
    bytes. *)
Definition same_kind (a b : TokenType.t) : Prop :=
  a = b \/
  ((a = TokenType.Keyword \/ a = TokenType.Identifier) /\
   (b = TokenType.Keyword \/ b = TokenType.Identifier)).

(** The keyword stored for an identifier-shaped lexeme [v]: the answer of
    [find_keyword], and when that is unknown and [v] has at most 32
    bytes, the answer of [is_keyword_simd]. *)
Definition keyword_of {dict : KeywordDictionary} (v : list byte) : Keyword.t :=
  match find_keyword v with
  | Keyword.UNKNOWN =>
      if length v <=? 32 then is_keyword_simd v Keyword.UNKNOWN
      else Keyword.UNKNOWN
  | Keyword.Known id => Keyword.Known id
  end.

(** Tokens in source order: by line, and by column on the same line. *)
Definition before (a b : Token) : Prop :=
  line a < line b \/ (line a = line b /\ column a < column b).

(** The value [v] of a line comment that ends at offset [stop]: the two
    dashes and bytes other than the newline, then the newline that ends
    it or, without one, the end of the input [X]. *)
Definition line_comment (X : list byte) (v : list byte) (stop : nat) : Prop :=
  exists body,
    Forall (fun b => b <> NL) body /\
    (v = c_minus :: c_minus :: body ++ [NL] \/
     (v = c_minus :: c_minus :: body /\ stop = length X)).

(** The two bytes at offset [i] are a star and a slash. *)
Definition closes_at (X : list byte) (i : nat) : Prop :=
  at_ X i = c_star /\ at_ X (i + 1) = c_slash.

(** A block comment opened at offset [o] and ending at offset [stop]:
    either it ends with the first star-slash found from [o + 2] on, or
    there is none and it stops where fewer than two bytes are left. *)
Definition block_comment (X : list byte) (o stop : nat) : Prop :=
  (o + 4 <= stop /\ closes_at X (stop - 2) /\
   forall i, o + 2 <= i -> i < stop - 2 -> ~ closes_at X i) \/
  (length X <= stop + 1 /\
   forall i, o + 2 <= i -> i + 1 < length X -> ~ closes_at X i).

(** An identifier-shaped token, whatever the dictionary says of it. *)
Definition is_word (t : Token) : Prop :=
  type t = TokenType.Keyword \/ type t = TokenType.Identifier.

(** Two tokens for the same lexeme: the same value, line and column, and
    the same kind unless both are identifier-shaped. *)
Definition same_lexeme (a b : Token) : Prop :=
  value a = value b /\ line a = line b /\ column a = column b /\
  (type a = type b \/ (is_word a /\ is_word b)).

(** A token of [tokens] starts at offset [p]. *)
Definition starts_token (tokens : list Token) (p : nat) : Prop :=
  exists t, In t tokens /\ offset_of t = p.

(** [tokens] holds, one right after the other, a token of [n1] bytes at
    offset [p] and a token of [n2] bytes. *)
Definition splits_at (tokens : list Token) (p n1 n2 : nat) : Prop :=
  exists pre t1 t2 post,
    tokens = pre ++ t1 :: t2 :: post /\
    offset_of t1 = p /\ size_of t1 = n1 /\
    offset_of t2 = p + n1 /\ size_of t2 = n2.

(** The consequence as the claim words it, for every input: wherever
    the bytes [w] begin a token, the tokens there are one of [n1] bytes
    and then one of [n2] bytes. *)
Definition always_splits {dict : KeywordDictionary} (w : list byte)
           (n1 n2 : nat) : Prop :=
  forall X tokens p,
    tokenize X = Some tokens -> starts_token tokens p ->
    slice X p (p + length w) = w ->
    splits_at tokens p n1 n2.

(** What holds instead: wherever the bytes [w] begin a token, the tokens
    there are one of [n1] bytes and then one of a single byte, unless
    the byte that follows [w] is one of [extends]; then the second token
    has two bytes. *)
Definition splits_by_next {dict : KeywordDictionary} (w : list byte)
           (n1 : nat) (extends : list byte) : Prop :=
  forall X tokens p,
    tokenize X = Some tokens -> starts_token tokens p ->
    slice X p (p + length w) = w ->
    splits_at tokens p n1
              match peek X (p + length w) with
              | Some ch => if one_of extends ch then 2 else 1
              | None => 1
              end.

(* ===================================================================== *)
(** ** test/test_operators.cpp and test/test_invalid_operators.cpp *)
(* ===================================================================== *)

(** [a != b] on [std::string]: the bytes differ. *)
Fixpoint bytes_eqb (a b : list byte) : bool :=
  match a, b with
  | [], [] => true
  | x :: a', y :: b' => (x ==b y) && bytes_eqb a' b'
  | _, _ => false
  end.

(** The comparison loop of the tests, run on two vectors of the same
    size: [false] at the first index where the values differ. *)
Fixpoint same_values (actual expected : list (list byte)) : bool :=
  match actual, expected with
  | a :: actual', e :: expected' =>
      if negb (bytes_eqb a e) then false else same_values actual' expected'
  | _, _ => true
  end.

Local Open Scope string_scope.

Module TestOperators.

(** [struct TestCase]: the statement, the values expected and the
    description printed with the verdict. *)
Record TestCase : Set := {
  sql : string;
  expected_tokens : list string;
  description : string
}.

(** [test_operator]: the values of the tokens that are neither Whitespace
    nor EndOfFile are compared with the expected ones, first the counts,
    then value by value; what is printed is left out. *)
Definition test_operator {dict : KeywordDictionary} (test : TestCase)
  : option bool :=
  let X := bytes (sql test) in
  match tokenize X with
  | None => None
  | Some tokens =>
      let actual_tokens :=
        map (fun token => sv_bytes X (value token))
            (filter (fun token =>
                       negb (TokenType.eqb (type token) TokenType.Whitespace)
                       && negb (TokenType.eqb (type token) TokenType.EndOfFile))
                    tokens) in
      if negb (Nat.eqb (length actual_tokens)
                      (length (expected_tokens test)))
      then Some false
      else Some (same_values actual_tokens
                             (map bytes (expected_tokens test)))
  end.

Definition test_cases : list TestCase :=
  [
    {| sql := "a = b";
       expected_tokens := ["a"; "="; "b"];
       description := "Single equals" |};
    {| sql := "a == b";
       expected_tokens := ["a"; "=="; "b"];
       description := "Double equals (comparison)" |};
    {| sql := "a != b";
       expected_tokens := ["a"; "!="; "b"];
       description := "Not equals" |};
    {| sql := "a <> b";
       expected_tokens := ["a"; "<>"; "b"];
       description := "SQL not equals" |};
    {| sql := "a < b";
       expected_tokens := ["a"; "<"; "b"];
       description := "Less than" |};
    {| sql := "a > b";
       expected_tokens := ["a"; ">"; "b"];
       description := "Greater than" |};
    {| sql := "a <= b";
       expected_tokens := ["a"; "<="; "b"];
       description := "Less than or equal" |};
    {| sql := "a >= b";
       expected_tokens := ["a"; ">="; "b"];
       description := "Greater than or equal" |};
    {| sql := "a + b";
       expected_tokens := ["a"; "+"; "b"];
       description := "Addition" |};
    {| sql := "a - b";
       expected_tokens := ["a"; "-"; "b"];
       description := "Subtraction" |};
    {| sql := "a * b";
       expected_tokens := ["a"; "*"; "b"];
       description := "Multiplication" |};
    {| sql := "a / b";
       expected_tokens := ["a"; "/"; "b"];
       description := "Division" |};
    {| sql := "a % b";
       expected_tokens := ["a"; "%"; "b"];
       description := "Modulo" |};
    {| sql := "a AND b";
       expected_tokens := ["a"; "AND"; "b"];
       description := "Logical AND" |};
    {| sql := "a OR b";
       expected_tokens := ["a"; "OR"; "b"];
       description := "Logical OR" |};
    {| sql := "NOT a";
       expected_tokens := ["NOT"; "a"];
       description := "Logical NOT" |};
    {| sql := "a && b";
       expected_tokens := ["a"; "&&"; "b"];
       description := "C-style AND" |};
    {| sql := "a || b";
       expected_tokens := ["a"; "||"; "b"];
       description := "C-style OR" |};
    {| sql := "a & b";
       expected_tokens := ["a"; "&"; "b"];
       description := "Bitwise AND" |};
    {| sql := "a | b";
       expected_tokens := ["a"; "|"; "b"];
       description := "Bitwise OR" |};
    {| sql := "a ^ b";
       expected_tokens := ["a"; "^"; "b"];
       description := "Bitwise XOR" |};
    {| sql := "~a";
       expected_tokens := ["~"; "a"];
       description := "Bitwise NOT" |};
    {| sql := "a << b";
       expected_tokens := ["a"; "<<"; "b"];
       description := "Left shift" |};
    {| sql := "a >> b";
       expected_tokens := ["a"; ">>"; "b"];
       description := "Right shift" |};
    {| sql := "a::text";
       expected_tokens := ["a"; "::"; "text"];
       description := "PostgreSQL cast" |};
    {| sql := "a.b";
       expected_tokens := ["a"; "."; "b"];
       description := "Dot notation" |};
    {| sql := "a->b";
       expected_tokens := ["a"; "-"; ">"; "b"];
       description := "Arrow (tokenized as separate)" |};
    {| sql := "a->>b";
       expected_tokens := ["a"; "-"; ">>"; "b"];
       description := "JSON arrow (tokenized as separate)" |};
    {| sql := "a === b";
       expected_tokens := ["a"; "=="; "="; "b"];
       description := "Triple equals (invalid, tokenized as ==, =)" |};
    {| sql := "a ==== b";
       expected_tokens := ["a"; "=="; "=="; "b"];
       description := "Quadruple equals (invalid, tokenized as ==, ==)" |};
    {| sql := "a !== b";
       expected_tokens := ["a"; "!="; "="; "b"];
       description := "Not double equals (invalid, tokenized as !=, =)" |};
    {| sql := "a <<< b";
       expected_tokens := ["a"; "<<"; "<"; "b"];
       description := "Triple left shift (invalid, tokenized as <<, <)" |};
    {| sql := "a >>> b";
       expected_tokens := ["a"; ">>"; ">"; "b"];
       description := "Triple right shift (invalid, tokenized as >>, >)" |};
    {| sql := "(a+b)*c";
       expected_tokens := ["("; "a"; "+"; "b"; ")"; "*"; "c"];
       description := "Expression with parentheses" |};
    {| sql := "a >= 10 AND b <= 20";
       expected_tokens := ["a"; ">="; "10"; "AND"; "b"; "<="; "20"];
       description := "Complex condition" |};
    {| sql := "CASE WHEN a == b THEN 1 ELSE 0 END";
       expected_tokens := ["CASE"; "WHEN"; "a"; "=="; "b"; "THEN"; "1"; "ELSE"; "0"; "END"];
       description := "CASE statement with ==" |};
    {| sql := "SELECT * FROM t WHERE x != y";
       expected_tokens := ["SELECT"; "*"; "FROM"; "t"; "WHERE"; "x"; "!="; "y"];
       description := "SELECT with !=" |}
  ].

(** The loop of [main] over the test cases: the counters [passed] and
    [failed]. *)
Fixpoint run {dict : KeywordDictionary} (l : list TestCase)
         (passed failed : nat) : option (nat * nat) :=
  match l with
  | [] => Some (passed, failed)
  | test :: rest =>
      match test_operator test with
      | None => None
      | Some true => run rest (passed + 1) failed
      | Some false => run rest passed (failed + 1)
      end
  end.

(** The exit code of [main]. *)
Definition main {dict : KeywordDictionary} : option nat :=
  match run test_cases 0 0 with
  | None => None
  | Some (passed, failed) => Some (if Nat.ltb 0 failed then 1 else 0)
  end.

End TestOperators.

Module TestInvalidOperators.

(** [struct InvalidOperatorTest]: the statement, the values expected and the
    description printed with the verdict. *)
Record InvalidOperatorTest : Set := {
  sql : string;
  expected_tokens : list string;
  description : string
}.

(** [test_invalid_operator]: the values of the tokens that are neither Whitespace
    nor EndOfFile are compared with the expected ones, first the counts,
    then value by value; what is printed is left out. *)
Definition test_invalid_operator {dict : KeywordDictionary} (test : InvalidOperatorTest)
  : option bool :=
  let X := bytes (sql test) in
  match tokenize X with
  | None => None
  | Some tokens =>
      let actual_tokens :=
        map (fun token => sv_bytes X (value token))
            (filter (fun token =>
                       negb (TokenType.eqb (type token) TokenType.Whitespace)
                       && negb (TokenType.eqb (type token) TokenType.EndOfFile))
                    tokens) in
      if negb (Nat.eqb (length actual_tokens)
                      (length (expected_tokens test)))
      then Some false
      else Some (same_values actual_tokens
                             (map bytes (expected_tokens test)))
  end.

Definition tests : list InvalidOperatorTest :=
  [
    {| sql := "a === b";
       expected_tokens := ["a"; "=="; "="; "b"];
       description := "Triple equals splits correctly" |};
    {| sql := "x ==== y";
       expected_tokens := ["x"; "=="; "=="; "y"];
       description := "Quadruple equals splits correctly" |};
    {| sql := "a !== b";
       expected_tokens := ["a"; "!="; "="; "b"];
       description := "Not double equals splits correctly" |};
    {| sql := "a <<< b";
       expected_tokens := ["a"; "<<"; "<"; "b"];
       description := "Triple less-than splits correctly" |};
    {| sql := "a >>> b";
       expected_tokens := ["a"; ">>"; ">"; "b"];
       description := "Triple greater-than splits correctly" |};
    {| sql := "(a === b) && (c !== d)";
       expected_tokens := ["("; "a"; "=="; "="; "b"; ")"; "&&"; "("; "c"; "!="; "="; "d"; ")"];
       description := "Mixed invalid operators in expression" |};
    {| sql := "SELECT * WHERE x === 10 OR y !== 20";
       expected_tokens := ["SELECT"; "*"; "WHERE"; "x"; "=="; "="; "10"; "OR"; "y"; "!="; "="; "20"];
       description := "Invalid operators in SQL WHERE clause" |};
    {| sql := "a == b";
       expected_tokens := ["a"; "=="; "b"];
       description := "Valid double equals remains intact" |};
    {| sql := "a != b";
       expected_tokens := ["a"; "!="; "b"];
       description := "Valid not equals remains intact" |};
    {| sql := "a << b";
       expected_tokens := ["a"; "<<"; "b"];
       description := "Valid left shift remains intact" |};
    {| sql := "a >> b";
       expected_tokens := ["a"; ">>"; "b"];
       description := "Valid right shift remains intact" |};
    {| sql := "a ===== b";
       expected_tokens := ["a"; "=="; "=="; "="; "b"];
       description := "Five equals splits correctly" |};
    {| sql := "value ===";
       expected_tokens := ["value"; "=="; "="];
       description := "Invalid operator at end of input" |};
    {| sql := "=== value";
       expected_tokens := ["=="; "="; "value"];
       description := "Invalid operator at start of input" |}
  ].

(** How [main] ends: with an exit code, or in the [assert(false)] of
    the loop. *)
Inductive outcome : Set :=
| Exit (code : nat)
| AssertionFailed.

(** The loop of [main] over the tests: the counters [passed] and
    [failed]; a failed test stops at the assertion unless [NDEBUG]
    compiles it away. *)
Fixpoint run {dict : KeywordDictionary} (ndebug : bool) (l : list InvalidOperatorTest)
         (passed failed : nat) : option (option (nat * nat)) :=
  match l with
  | [] => Some (Some (passed, failed))
  | test :: rest =>
      match test_invalid_operator test with
      | None => None
      | Some true => run ndebug rest (passed + 1) failed
      | Some false =>
          if ndebug then run ndebug rest passed (failed + 1)
          else Some None
      end
  end.

Definition main {dict : KeywordDictionary} (ndebug : bool) : option outcome :=
  match run ndebug tests 0 0 with
  | None => None
  | Some None => Some AssertionFailed
  | Some (Some (passed, failed)) =>
      Some (Exit (if Nat.ltb 0 failed then 1 else 0))
  end.

End TestInvalidOperators.

Local Close Scope string_scope.

(* ===================================================================== *)
(** ** analysis/simd_lookup_table.cpp *)
(* ===================================================================== *)

(** The classifiers read [size] bytes at [data] and write [size] bytes
    at [output]; each is modelled on the two buffers and answers the
    value returned together with the output buffer.  A vector register
    is the list of its byte lanes, lane 0 first (the byte at the lowest
    address); the intrinsics are given their lane-wise meaning.  The
    file carries its own copy of [char_lookup_table], entry for entry
    the one of [char_classifier.hpp].  What is timed and printed is left
    out. *)
Module SimdLookupTable.

(** [mem[i]] read from a buffer. *)
Definition load (mem : list byte) (i : nat) : byte := nth i mem x00.

(** [mem[i] = v]; a write outside the buffer, undefined in the sources,
    leaves the model's buffer as it is. *)
Fixpoint store (mem : list byte) (i : nat) (v : byte) : list byte :=
  match mem, i with
  | [], _ => []
  | _ :: rest, O => v :: rest
  | b :: rest, S i' => b :: store rest i' v
  end.

(** [c ? 1 : 0] *)
Definition flag (c : bool) : byte := if c then x01 else x00.

(** A [uint8_t] used as a condition. *)
Definition nonzero (b : byte) : bool := negb (b ==b x00).

(** The [uint8_t] of a table entry or of a bitwise result. *)
Definition byte_of_N (n : N) : byte :=
  match Byte.of_N n with
  | Some b => b
  | None => x00
  end.

(** [(char_lookup_table[ch] & CHAR_IDENT_START)], as a condition. *)
Definition ident_start_lookup (ch : byte) : bool :=
  negb (N.land (lookup ch) CHAR_IDENT_START =? 0)%N.

(** [x <= y] on [uint8_t]. *)
Definition le8 (x y : byte) : bool := (Byte.to_N x <=? Byte.to_N y)%N.

(** [(ch >= 'A' && ch <= 'Z') || (ch >= 'a' && ch <= 'z') || ch == '_'] *)
Definition ident_start_range (ch : byte) : bool :=
  (le8 x41 ch && le8 ch x5a) ||
  (le8 x61 ch && le8 ch x7a) ||
  (ch ==b x5f).

(** [ch == ' ' || ch == '\t' || ch == '\n' || ch == '\r'] *)
Definition whitespace_range (ch : byte) : bool :=
  (ch ==b x20) || (ch ==b x09) || (ch ==b x0a) || (ch ==b x0d).

(** [for (i = first; i < first + count; ++i) mem[i] = f(i)] *)
Definition store_each (mem : list byte) (first count : nat)
           (f : nat -> byte) : list byte :=
  fold_left (fun out i => store out i (f i)) (seq first count) mem.

(** *** Scalar implementation *)

Definition classify_identifier_start_scalar
           (data : list byte) (size : nat) (output : list byte)
  : nat * list byte :=
  (size,
   store_each output 0 size
              (fun i => flag (ident_start_lookup (load data i)))).

(** *** The 128-bit intrinsics used *)

Definition m128i : Set := list byte.

Definition lanes2 (f : byte -> byte -> byte) (a b : m128i) : m128i :=
  map (fun p => f (fst p) (snd p)) (combine a b).

(** The [int8_t] a lane holds. *)
Definition signed (b : byte) : Z :=
  let n := Z.of_N (Byte.to_N b) in
  if (n <? 128)%Z then n else (n - 256)%Z.

(** A comparison lane: all ones when it holds. *)
Definition all_ones (c : bool) : byte := if c then xff else x00.

Definition gt8 (x y : byte) : byte := all_ones (signed y <? signed x)%Z.
Definition eq8 (x y : byte) : byte := all_ones (x ==b y).
Definition and8 (x y : byte) : byte :=
  byte_of_N (N.land (Byte.to_N x) (Byte.to_N y)).
Definition or8 (x y : byte) : byte :=
  byte_of_N (N.lor (Byte.to_N x) (Byte.to_N y)).

Definition _mm_loadu_si128 (mem : list byte) (off : nat) : m128i :=
  map (fun i => load mem (off + i)) (seq 0 16).

Definition _mm_set1_epi8 (c : byte) : m128i := repeat c 16.

(** Signed comparisons of the lanes. *)
Definition _mm_cmpgt_epi8 : m128i -> m128i -> m128i := lanes2 gt8.
Definition _mm_cmplt_epi8 (a b : m128i) : m128i := _mm_cmpgt_epi8 b a.
Definition _mm_cmpeq_epi8 : m128i -> m128i -> m128i := lanes2 eq8.
Definition _mm_and_si128 : m128i -> m128i -> m128i := lanes2 and8.
Definition _mm_or_si128 : m128i -> m128i -> m128i := lanes2 or8.

(** [reinterpret_cast<uint8_t*>(&v)[i]] *)
Definition lane (v : m128i) (i : nat) : byte := nth i v x00.

Definition _mm_storeu_si128 (mem : list byte) (off : nat) (v : m128i)
  : list byte :=
  fold_left (fun out i => store out (off + i) (lane v i)) (seq 0 16) mem.

(** The loop [while (processed + width <= size)] over the state
    [(processed, output)]; every [chunk] ends with
    [processed += width]. *)
Definition chunks (width size : nat)
           (chunk : nat -> list byte -> list byte) (output : list byte)
  : option (nat * list byte) :=
  while (S size) (fun st => fst st + width <=? size)
        (fun st =>
           Some (Continue, (fst st + width, chunk (fst st) (snd st))))
        (0, output).

(** [for (int i = 0; i < 16; ++i) output[processed + i] = v[i] ? 1 : 0] *)
Definition store_flags (output : list byte) (processed : nat) (v : m128i)
  : list byte :=
  fold_left (fun out i => store out (processed + i)
                                (flag (nonzero (lane v i))))
            (seq 0 16) output.

(** The manual look-up of 16 bytes through [temp]. *)
Definition lookup_classes (chars : m128i) : m128i :=
  let temp := _mm_storeu_si128 (repeat x00 16) 0 chars in
  let temp :=
    fold_left (fun t i => store t i (byte_of_N (lookup (load t i))))
              (seq 0 16) temp in
  _mm_loadu_si128 temp 0.

(** [_mm_set1_epi8(CHAR_IDENT_START)] *)
Definition ident_start_mask : m128i :=
  _mm_set1_epi8 (byte_of_N CHAR_IDENT_START).

(** The range comparisons on 16 lanes, with the bounds ['A' - 1],
    ['Z' + 1], ['a' - 1], ['z' + 1] and the underscore. *)
Definition range_ident_start (chars : m128i) : m128i :=
  let upper_start := _mm_cmpgt_epi8 chars (_mm_set1_epi8 x40) in
  let upper_end := _mm_cmplt_epi8 chars (_mm_set1_epi8 x5b) in
  let is_upper := _mm_and_si128 upper_start upper_end in
  let lower_start := _mm_cmpgt_epi8 chars (_mm_set1_epi8 x60) in
  let lower_end := _mm_cmplt_epi8 chars (_mm_set1_epi8 x7b) in
  let is_lower := _mm_and_si128 lower_start lower_end in
  let is_underscore := _mm_cmpeq_epi8 chars (_mm_set1_epi8 x5f) in
  _mm_or_si128 (_mm_or_si128 is_upper is_lower) is_underscore.

(** *** SSE2CharClassifier *)

Definition classify_identifier_start_sse2
           (data : list byte) (size : nat) (output : list byte)
  : option (nat * list byte) :=
  match chunks 16 size
               (fun processed output =>
                  let chars := _mm_loadu_si128 data processed in
                  let is_ident_start := range_ident_start chars in
                  store_flags output processed is_ident_start)
               output with
  | None => None
  | Some (processed, output) =>
      Some (size,
            store_each output processed (size - processed)
              (fun i => flag (ident_start_range (load data i))))
  end.

(** [classify_identifier_start_sse2_lookup]; the bodies of
    [SSE42CharClassifier::classify_identifier_start_sse42] and of
    [SSSE3CharClassifier::classify_identifier_start_ssse3] are the same
    statements. *)
Definition classify_identifier_start_sse2_lookup
           (data : list byte) (size : nat) (output : list byte)
  : option (nat * list byte) :=
  match chunks 16 size
               (fun processed output =>
                  let chars := _mm_loadu_si128 data processed in
                  let classes := lookup_classes chars in
                  let result := _mm_and_si128 classes ident_start_mask in
                  store_flags output processed result)
               output with
  | None => None
  | Some (processed, output) =>
      Some (size,
            store_each output processed (size - processed)
              (fun i => flag (ident_start_lookup (load data i))))
  end.

Definition classify_identifier_start_sse42 :=
  classify_identifier_start_sse2_lookup.

Definition classify_identifier_start_ssse3 :=
  classify_identifier_start_sse2_lookup.

(** *** SSSE3CharClassifier, the advanced variant: the comparison lanes
    are stored and then turned into 0 or 1 in place. *)
Definition classify_identifier_start_ssse3_advanced
           (data : list byte) (size : nat) (output : list byte)
  : option (nat * list byte) :=
  match chunks 16 size
               (fun processed output =>
                  let input := _mm_loadu_si128 data processed in
                  let is_ident_start := range_ident_start input in
                  let output := _mm_storeu_si128 output processed
                                                 is_ident_start in
                  fold_left
                    (fun out i =>
                       store out (processed + i)
                             (flag (nonzero (load out (processed + i)))))
                    (seq 0 16) output)
               output with
  | None => None
  | Some (processed, output) =>
      Some (size,
            store_each output processed (size - processed)
              (fun i => flag (ident_start_lookup (load data i))))
  end.

(** *** AVX2CharClassifier, the simple variant: the masked classes are
    stored as they are.  [NEONCharClassifier::classify_identifier_start_neon]
    is the same loop written with [vld1q_u8], [vandq_u8] and
    [vst1q_u8]. *)
Definition classify_identifier_start_avx2_simple
           (data : list byte) (size : nat) (output : list byte)
  : option (nat * list byte) :=
  match chunks 16 size
               (fun processed output =>
                  let chars := _mm_loadu_si128 data processed in
                  let classes := lookup_classes chars in
                  let result := _mm_and_si128 classes ident_start_mask in
                  _mm_storeu_si128 output processed result)
               output with
  | None => None
  | Some (processed, output) =>
      Some (size,
            store_each output processed (size - processed)
              (fun i => flag (ident_start_lookup (load data i))))
  end.

Definition classify_identifier_start_neon :=
  classify_identifier_start_avx2_simple.

(** *** SSE42CharClassifier, the whitespace classifier *)

(** [_mm_set_epi8(0, ..., 0, '\r', '\n', '\t', ' ')]: the last argument
    is lane 0. *)
Definition whitespace_set : m128i :=
  [x20; x09; x0a; x0d] ++ repeat x00 12.

(** [_mm_cmpestrc(a, la, b, lb, _SIDD_UBYTE_OPS | _SIDD_CMP_EQUAL_ANY)]:
    the carry flag, set when one of the first [lb] bytes of [b] equals
    one of the first [la] bytes of [a]. *)
Definition _mm_cmpestrc_equal_any (a : m128i) (la : nat)
           (b : m128i) (lb : nat) : bool :=
  existsb (fun y => existsb (fun x => x ==b y) (firstn la a)) (firstn lb b).

Definition classify_whitespace_sse42
           (data : list byte) (size : nat) (output : list byte)
  : option (nat * list byte) :=
  let whitespace := whitespace_set in
  match chunks 16 size
               (fun processed output =>
                  fold_left
                    (fun out i =>
                       let single_char :=
                         _mm_set1_epi8 (load data (processed + i)) in
                       let is_ws :=
                         _mm_cmpestrc_equal_any whitespace 4 single_char 1 in
                       store out (processed + i) (flag is_ws))
                    (seq 0 16) output)
               output with
  | None => None
  | Some (processed, output) =>
      Some (size,
            store_each output processed (size - processed)
              (fun i => flag (whitespace_range (load data i))))
  end.

(** *** AVX512CharClassifier, the whitespace classifier on 64 lanes
    and 64-bit comparison masks (bit [i] for lane [i]). *)

Definition m512i : Set := list byte.
Definition mmask64 : Set := N.

Definition _mm512_loadu_si512 (mem : list byte) (off : nat) : m512i :=
  map (fun i => load mem (off + i)) (seq 0 64).

Definition _mm512_set1_epi8 (c : byte) : m512i := repeat c 64.

Fixpoint mask_of (bits : list bool) : mmask64 :=
  match bits with
  | [] => 0%N
  | b :: rest => (2 * mask_of rest + N.b2n b)%N
  end.

Definition _mm512_cmpeq_epi8_mask (a b : m512i) : mmask64 :=
  mask_of (map (fun p => fst p ==b snd p) (combine a b)).

Definition classify_whitespace_avx512
           (data : list byte) (size : nat) (output : list byte)
  : option (nat * list byte) :=
  let space := _mm512_set1_epi8 x20 in
  let tab := _mm512_set1_epi8 x09 in
  let newline := _mm512_set1_epi8 x0a in
  let cr := _mm512_set1_epi8 x0d in
  match chunks 64 size
               (fun processed output =>
                  let chars := _mm512_loadu_si512 data processed in
                  let is_space := _mm512_cmpeq_epi8_mask chars space in
                  let is_tab := _mm512_cmpeq_epi8_mask chars tab in
                  let is_newline := _mm512_cmpeq_epi8_mask chars newline in
                  let is_cr := _mm512_cmpeq_epi8_mask chars cr in
                  let is_whitespace :=
                    N.lor (N.lor (N.lor is_space is_tab) is_newline) is_cr in
                  fold_left
                    (fun out i =>
                       store out (processed + i)
                             (flag (negb (N.land is_whitespace
                                            (N.shiftl 1 (N.of_nat i))
                                          =? 0)%N)))
                    (seq 0 64) output)
               output with
  | None => None
  | Some (processed, output) =>
      Some (size,
            store_each output processed (size - processed)
              (fun i => flag (whitespace_range (load data i))))
  end.

End SimdLookupTable.

(* ===================================================================== *)
(** * Lemmas and theorems *)
(* ===================================================================== *)

(** Splits a conjunction into its parts, without touching implications. *)
Ltac splits :=
  match goal with
  | |- _ /\ _ => split; splits
  | _ => idtac
  end.

Lemma TokenType_eqb_eq (a b : TokenType.t) :
  TokenType.eqb a b = true <-> a = b.
Proof. destruct a, b; simpl; split; congruence. Qed.

Lemma TokenType_eqb_neq (a b : TokenType.t) :
  a <> b -> TokenType.eqb a b = false.
Proof.
  intros N. destruct (TokenType.eqb a b) eqn:E; [ | reflexivity ].
  apply TokenType_eqb_eq in E. contradiction.
Qed.

Lemma Keyword_eqb_eq (a b : Keyword.t) : Keyword.eqb a b = true <-> a = b.
Proof.
  destruct a, b; simpl; split; try congruence.
  - intros E. apply N.eqb_eq in E. congruence.
  - intros E. injection E as ->. apply N.eqb_refl.
Qed.

(* ===================================================================== *)
(** ** Bytes and slices *)
(* ===================================================================== *)

Lemma byte_eqb_refl (b : byte) : (b ==b b) = true.
Proof. apply Byte.byte_dec_lb. reflexivity. Qed.

Lemma byte_eqb_true (a b : byte) : (a ==b b) = true -> a = b.
Proof. apply Byte.byte_dec_bl. Qed.

Lemma byte_eqb_neq (a b : byte) : (a ==b b) = false -> a <> b.
Proof. apply Byte.eqb_false. Qed.

Lemma byte_neq_eqb (a b : byte) : a <> b -> (a ==b b) = false.
Proof.
  intros N. destruct (a ==b b) eqn:E; [ | reflexivity ].
  apply byte_eqb_true in E. contradiction.
Qed.

Lemma firstn_succ (l : list byte) (n : nat) :
  n < length l -> firstn (n + 1) l = firstn n l ++ [nth n l x00].
Proof.
  revert n. induction l as [ | b l IH ]; intros n Hn; simpl in Hn.
  - lia.
  - destruct n as [ | n ]; simpl.
    + reflexivity.
    + rewrite IH by lia. reflexivity.
Qed.

Lemma slice_empty (l : list byte) (lo : nat) : slice l lo lo = [].
Proof. unfold slice. rewrite Nat.sub_diag. reflexivity. Qed.

Lemma slice_length (l : list byte) (lo hi : nat) :
  lo <= hi -> hi <= length l -> length (slice l lo hi) = hi - lo.
Proof.
  intros H1 H2. unfold slice.
  rewrite length_firstn, length_skipn. lia.
Qed.

Lemma slice_snoc (l : list byte) (lo hi : nat) :
  lo <= hi -> hi < length l ->
  slice l lo (hi + 1) = slice l lo hi ++ [nth hi l x00].
Proof.
  intros H1 H2. unfold slice.
  replace (hi + 1 - lo) with ((hi - lo) + 1) by lia.
  rewrite firstn_succ by (rewrite length_skipn; lia).
  rewrite nth_skipn. repeat f_equal. lia.
Qed.

Lemma slice_snoc2 (l : list byte) (lo hi : nat) :
  lo <= hi -> hi + 1 < length l ->
  slice l lo (hi + 2) =
  slice l lo hi ++ [nth hi l x00; nth (hi + 1) l x00].
Proof.
  intros H1 H2.
  replace (hi + 2) with ((hi + 1) + 1) by lia.
  rewrite slice_snoc by lia. rewrite slice_snoc by lia.
  rewrite <- app_assoc. reflexivity.
Qed.

Lemma slice_cons (l : list byte) (lo hi : nat) :
  lo < hi -> lo < length l ->
  slice l lo hi = nth lo l x00 :: slice l (lo + 1) hi.
Proof.
  intros H1 H2. unfold slice.
  replace (hi - lo) with (S (hi - (lo + 1))) by lia.
  replace (lo + 1) with (1 + lo) by lia.
  rewrite <- skipn_skipn.
  assert (E : skipn lo l = nth lo l x00 :: skipn 1 (skipn lo l)).
  { rewrite <- (Nat.add_0_r lo) at 2. rewrite <- nth_skipn.
    destruct (skipn lo l) as [ | b r ] eqn:Es.
    - apply (f_equal (@length byte)) in Es.
      rewrite length_skipn in Es. simpl in Es. lia.
    - reflexivity. }
  rewrite E at 1. reflexivity.
Qed.

Lemma slice_app (l : list byte) (a b c : nat) :
  a <= b -> b <= c -> slice l a b ++ slice l b c = slice l a c.
Proof.
  intros H1 H2. unfold slice.
  replace (c - a) with ((b - a) + (c - b)) by lia.
  rewrite <- (firstn_skipn (b - a) (firstn (b - a + (c - b)) (skipn a l))).
  rewrite firstn_firstn. replace (Nat.min (b - a) (b - a + (c - b))) with (b - a) by lia.
  f_equal.
  rewrite skipn_firstn_comm. rewrite skipn_skipn.
  replace (b - a + (c - b) - (b - a)) with (c - b) by lia.
  replace (b - a + a) with b by lia. reflexivity.
Qed.

Lemma slice_to_end (l : list byte) (lo : nat) :
  slice l lo (length l) = skipn lo l.
Proof.
  unfold slice. apply firstn_all2. rewrite length_skipn. lia.
Qed.

(* ===================================================================== *)
(** ** Line and column of an offset *)
(* ===================================================================== *)

Lemma count_newlines_snoc (l : list byte) (b : byte) :
  count_newlines (l ++ [b]) =
  count_newlines l + (if b ==b NL then 1 else 0).
Proof.
  unfold count_newlines. rewrite filter_app, length_app. simpl.
  destruct (b ==b NL); reflexivity.
Qed.

Lemma last_newline_from_snoc (l : list byte) (b : byte) :
  forall i acc,
    last_newline_from i (l ++ [b]) acc =
    if b ==b NL then Some (i + length l) else last_newline_from i l acc.
Proof.
  induction l as [ | c l IH ]; intros i acc; simpl.
  - rewrite Nat.add_0_r. reflexivity.
  - rewrite IH. replace (S i + length l) with (i + S (length l)) by lia.
    reflexivity.
Qed.

Lemma last_newline_from_bound (l : list byte) :
  forall i acc k,
    last_newline_from i l acc = Some k ->
    acc = Some k \/ (i <= k /\ k < i + length l).
Proof.
  induction l as [ | c l IH ]; intros i acc k E; simpl in E.
  - left. exact E.
  - apply IH in E. destruct E as [ E | E ].
    + destruct (c ==b NL).
      * injection E as <-. right. simpl. lia.
      * left. exact E.
    + right. simpl. lia.
Qed.

Lemma last_newline_bound (l : list byte) (k : nat) :
  last_newline l = Some k -> k < length l.
Proof.
  intros E. apply last_newline_from_bound in E.
  destruct E as [ E | E ]; [ discriminate | lia ].
Qed.

(** [last_newline] answers the index of a newline that no newline
    follows, and answers nothing only when there is no newline. *)
Lemma last_newline_spec (l : list byte) :
  match last_newline l with
  | Some k =>
      k < length l /\ nth k l x00 = NL /\
      forall j, k < j -> j < length l -> nth j l x00 <> NL
  | None => forall j, j < length l -> nth j l x00 <> NL
  end.
Proof.
  unfold last_newline.
  induction l as [ | b l IH ] using rev_ind.
  - simpl. intros j H. inversion H.
  - rewrite last_newline_from_snoc. rewrite length_app. simpl.
    destruct (b ==b NL) eqn:E.
    + apply byte_dec_bl in E. subst b. splits.
      * lia.
      * rewrite app_nth2 by lia. rewrite Nat.sub_diag. reflexivity.
      * intros j H1 H2. lia.
    + apply Byte.eqb_false in E.
      destruct (last_newline_from 0 l None) as [ k | ].
      * destruct IH as (K1 & K2 & K3). splits.
        -- lia.
        -- rewrite app_nth1 by lia. exact K2.
        -- intros j H1 H2.
           destruct (Nat.eq_dec j (length l)) as [ -> | N ].
           ++ rewrite app_nth2 by lia. rewrite Nat.sub_diag. exact E.
           ++ rewrite app_nth1 by lia. apply K3; lia.
      * intros j H.
        destruct (Nat.eq_dec j (length l)) as [ -> | N ].
        -- rewrite app_nth2 by lia. rewrite Nat.sub_diag. exact E.
        -- rewrite app_nth1 by lia. apply IH. lia.
Qed.

Lemma line_at_succ (X : list byte) (o : nat) :
  o < length X ->
  line_at X (o + 1) = line_at X o + (if nth o X x00 ==b NL then 1 else 0).
Proof.
  intros H. unfold line_at. rewrite firstn_succ by exact H.
  rewrite count_newlines_snoc. lia.
Qed.

Lemma column_at_succ (X : list byte) (o : nat) :
  o < length X ->
  column_at X (o + 1) =
  if nth o X x00 ==b NL then 1 else column_at X o + 1.
Proof.
  intros H. unfold column_at, last_newline.
  rewrite firstn_succ by exact H.
  rewrite last_newline_from_snoc.
  assert (L : length (firstn o X) = o) by (rewrite length_firstn; lia).
  destruct (nth o X x00 ==b NL).
  - rewrite L. simpl. lia.
  - destruct (last_newline_from 0 (firstn o X) None) as [ k | ] eqn:E.
    + apply last_newline_bound in E. rewrite L in E. lia.
    + lia.
Qed.

Lemma count_newlines_le (l : list byte) : count_newlines l <= length l.
Proof.
  unfold count_newlines. induction l as [ | b l IH ]; simpl; [ lia | ].
  destruct (b ==b NL); simpl; lia.
Qed.

(** Lines and columns never exceed the offset by more than one: with
    offsets bounded by the input length, which fits a [size_t], the
    counters of the sources do not wrap around. *)
Lemma line_column_bounded (X : list byte) (o : nat) :
  line_at X o <= o + 1 /\ column_at X o <= o + 1.
Proof.
  unfold line_at, column_at. split.
  - pose proof (count_newlines_le (firstn o X)) as H.
    pose proof (firstn_le_length o X). lia.
  - destruct (last_newline (firstn o X)); lia.
Qed.

(* ===================================================================== *)
(** ** The loop rule *)
(* ===================================================================== *)

Section WhileRule.

Variable S : Type.
Variable cond : S -> bool.
Variable body : S -> option (flow * S).
Variables Inv Post : S -> Prop.
Variable measure : S -> nat.

Hypothesis body_ok :
  forall s, Inv s -> cond s = true ->
    exists f s', body s = Some (f, s') /\
      match f with
      | Continue => Inv s' /\ measure s' < measure s
      | Break => Post s'
      end.

Hypothesis exit_ok : forall s, Inv s -> cond s = false -> Post s.

(** Total correctness: with more fuel than the measure the loop ends,
    and it ends in [Post]. *)
Lemma while_rule :
  forall n s, Inv s -> measure s < n ->
    exists s', while n cond body s = Some s' /\ Post s'.
Proof.
  induction n as [ | n IH ]; intros s HI Hm.
  - lia.
  - simpl. destruct (cond s) eqn:C.
    + destruct (body_ok s HI C) as (f & s' & -> & H).
      destruct f.
      * destruct H as [ HI' Hlt ]. apply IH; [ exact HI' | lia ].
      * exists s'. split; [ reflexivity | exact H ].
    + exists s. split; [ reflexivity | apply exit_ok; assumption ].
Qed.

End WhileRule.

(* ===================================================================== *)
(** ** Character facts read off the table *)
(* ===================================================================== *)

Lemma identifier_start_cont ch :
  is_identifier_start ch = true -> is_identifier_cont ch = true.
Proof. destruct ch; vm_compute; congruence. Qed.

Lemma identifier_cont_not_newline ch :
  is_identifier_cont ch = true -> ch <> NL.
Proof. destruct ch; vm_compute; congruence. Qed.

Lemma digit_not_newline ch : is_digit ch = true -> ch <> NL.
Proof. destruct ch; vm_compute; congruence. Qed.

Lemma quote_not_newline ch : is_quote ch = true -> ch <> NL.
Proof. destruct ch; vm_compute; congruence. Qed.

Lemma newline_is_whitespace ch : is_whitespace ch = false -> ch <> NL.
Proof. destruct ch; vm_compute; congruence. Qed.

(* ===================================================================== *)
(** ** The position state follows the bytes consumed *)
(* ===================================================================== *)

Section Position.

Variable X : list byte.

Lemma Tracks_init : Tracks X init.
Proof. split; reflexivity. Qed.

Lemma Tracks_advance1 s :
  position_ s < length X -> at_ X (position_ s) <> NL ->
  Tracks X s -> Tracks X (advance 1 s).
Proof.
  intros Hlt Hnl [ Hl Hc ]. unfold Tracks, advance; simpl.
  rewrite line_at_succ, column_at_succ by exact Hlt.
  unfold at_ in Hnl. rewrite (byte_neq_eqb _ _ Hnl). lia.
Qed.

Lemma Tracks_newline s :
  position_ s < length X -> at_ X (position_ s) = NL ->
  Tracks X s -> Tracks X (newline s).
Proof.
  intros Hlt Hnl [ Hl Hc ]. unfold Tracks, newline; simpl.
  rewrite line_at_succ, column_at_succ by exact Hlt.
  unfold at_ in Hnl. rewrite Hnl, byte_eqb_refl. lia.
Qed.

Lemma advance_advance n m s : advance m (advance n s) = advance (n + m) s.
Proof. unfold advance; simpl. f_equal; lia. Qed.

Lemma Tracks_advance2 s :
  position_ s + 1 < length X ->
  at_ X (position_ s) <> NL -> at_ X (position_ s + 1) <> NL ->
  Tracks X s -> Tracks X (advance 2 s).
Proof.
  intros Hlt H1 H2 T.
  change 2 with (1 + 1). rewrite <- advance_advance.
  apply Tracks_advance1; simpl; [ lia | exact H2 | ].
  apply Tracks_advance1; [ lia | exact H1 | exact T ].
Qed.

Lemma Tracks_update_position_step s :
  position_ s < length X -> Tracks X s -> Tracks X (update_position_step X s).
Proof.
  intros Hlt T. unfold update_position_step.
  destruct (at_ X (position_ s) ==b NL) eqn:E.
  - apply byte_eqb_true in E. exact (Tracks_newline s Hlt E T).
  - apply byte_eqb_neq in E. exact (Tracks_advance1 s Hlt E T).
Qed.

Lemma position_update_position_step s :
  position_ (update_position_step X s) = position_ s + 1.
Proof.
  unfold update_position_step.
  destruct (at_ X (position_ s) ==b NL); reflexivity.
Qed.

Lemma update_position_spec count :
  forall s, position_ s + count <= length X ->
    position_ (update_position X count s) = position_ s + count /\
    (Tracks X s -> Tracks X (update_position X count s)).
Proof.
  induction count as [ | n IH ]; intros s Hle; simpl.
  - split; [ lia | tauto ].
  - destruct (IH (update_position_step X s)) as [ Hp Ht ].
    + rewrite position_update_position_step. lia.
    + rewrite position_update_position_step in Hp. split; [ lia | ].
      intros T. apply Ht. apply Tracks_update_position_step; [ lia | exact T ].
Qed.

End Position.

(* ===================================================================== *)
(** ** What each scan function does to the state *)
(* ===================================================================== *)

Section Scans.

Context {dict : KeywordDictionary}.
Variable X : list byte.

Lemma in_bounds_true s : in_bounds X s = true -> position_ s < length X.
Proof. unfold in_bounds, input_size_. apply Nat.ltb_lt. Qed.

Lemma in_bounds_false s : in_bounds X s = false -> length X <= position_ s.
Proof. unfold in_bounds, input_size_. apply Nat.ltb_ge. Qed.

Lemma fuel_enough s : length X - position_ s < fuel X s.
Proof. unfold fuel, input_size_. lia. Qed.

Ltac bounds :=
  repeat match goal with
  | H : in_bounds X _ = true |- _ => apply in_bounds_true in H
  | H : in_bounds X _ = false |- _ => apply in_bounds_false in H
  | H : (_ <? _) = true |- _ => apply Nat.ltb_lt in H
  | H : (_ <? _) = false |- _ => apply Nat.ltb_ge in H
  | H : (_ <=? _) = true |- _ => apply Nat.leb_le in H
  | H : (_ <=? _) = false |- _ => apply Nat.leb_gt in H
  end; unfold input_size_ in * |-; simpl in * |-.

(** *** Identifiers and keywords *)

Lemma identifier_loop s :
  position_ s < length X ->
  is_identifier_start (at_ X (position_ s)) = true ->
  exists s', while (fuel X s) (in_bounds X) (identifier_body X) s = Some s' /\
    position_ s < position_ s' /\ position_ s' <= length X /\
    (Tracks X s -> Tracks X s').
Proof.
  intros Hlt Hst. apply identifier_start_cont in Hst.
  apply while_rule with
    (Inv := fun s' => position_ s <= position_ s' /\ position_ s' <= length X /\
                      (Tracks X s -> Tracks X s'))
    (measure := fun s' => length X - position_ s').
  - intros s1 (H1 & H2 & H3) C. bounds. unfold identifier_body.
    destruct (is_identifier_cont (at_ X (position_ s1))) eqn:E; simpl.
    + exists Continue, (advance 1 s1). split; [ reflexivity | ].
      simpl. splits; try lia.
      intros T. apply Tracks_advance1; auto.
      apply identifier_cont_not_newline; exact E.
    + exists Break, s1. split; [ reflexivity | ].
      assert (position_ s1 <> position_ s) by congruence.
      splits; auto; lia.
  - intros s1 (H1 & H2 & H3) C. bounds. splits; auto; lia.
  - splits; auto; lia.
  - apply fuel_enough.
Qed.

Lemma scan_identifier_or_keyword_spec l c s :
  position_ s < length X ->
  is_identifier_start (at_ X (position_ s)) = true ->
  exists t s',
    scan_identifier_or_keyword X (position_ s) l c s = Some (t, s') /\
    Scanned X s l c t s' /\
    (type t = TokenType.Keyword \/ type t = TokenType.Identifier).
Proof.
  intros Hlt Hst. unfold scan_identifier_or_keyword.
  destruct (identifier_loop s Hlt Hst) as (s' & -> & H1 & H2 & H3).
  cbv zeta.
  match goal with
  | |- context [ let '(_, _) := ?p in _ ] => destruct p as [ ty kw ] eqn:Ep
  end.
  eexists. exists s'. split; [ reflexivity | ].
  unfold Scanned; simpl. splits; auto.
  revert Ep.
  repeat match goal with
         | |- context [ if ?b then _ else _ ] => destruct b
         end; intros Ep; injection Ep as <- _; auto.
Qed.

(** *** Numbers *)

Lemma number_loop s :
  position_ s < length X -> is_digit (at_ X (position_ s)) = true ->
  exists st,
    while (fuel X s) (fun st => in_bounds X (snd st)) (number_body X)
          (false, false, s) = Some st /\
    position_ s < position_ (snd st) /\ position_ (snd st) <= length X /\
    (Tracks X s -> Tracks X (snd st)).
Proof.
  intros Hlt Hd.
  apply while_rule with
    (Inv := fun st => position_ s <= position_ (snd st) /\
                      position_ (snd st) <= length X /\
                      (Tracks X s -> Tracks X (snd st)))
    (measure := fun st => length X - position_ (snd st)).
  - intros [ [ has_dot has_exp ] s1 ] (H1 & H2 & H3) C. bounds.
    unfold number_body.
    destruct (is_digit (at_ X (position_ s1))) eqn:D.
    { exists Continue. eexists. split; [ reflexivity | ].
      simpl. splits; try lia.
      intros T. apply Tracks_advance1; auto.
      apply digit_not_newline; exact D. }
    destruct ((at_ X (position_ s1) ==b c_dot) && negb has_dot && negb has_exp)
      eqn:Dot.
    { exists Continue. eexists. split; [ reflexivity | ].
      simpl. splits; try lia.
      intros T. apply Tracks_advance1; auto.
      apply andb_prop in Dot. destruct Dot as [ Dot _ ].
      apply andb_prop in Dot. destruct Dot as [ Dot _ ].
      apply byte_eqb_true in Dot. rewrite Dot. discriminate. }
    destruct (((at_ X (position_ s1) ==b c_e) || (at_ X (position_ s1) ==b c_E))
              && negb has_exp) eqn:Ex.
    { assert (Hnl : at_ X (position_ s1) <> NL).
      { apply andb_prop in Ex. destruct Ex as [ Ex _ ].
        apply orb_prop in Ex.
        destruct Ex as [ Ex | Ex ]; apply byte_eqb_true in Ex; rewrite Ex;
          discriminate. }
      exists Continue. eexists. split; [ reflexivity | ].
      cbv zeta. simpl position_.
      destruct (position_ s1 + 1 <? input_size_ X) eqn:B; bounds.
      - destruct ((at_ X (position_ s1 + 1) ==b c_plus)
                  || (at_ X (position_ s1 + 1) ==b c_minus)) eqn:Sg; simpl.
        + splits; try lia.
          intros T. rewrite advance_advance. apply Tracks_advance2; auto.
          apply orb_prop in Sg.
          destruct Sg as [ Sg | Sg ]; apply byte_eqb_true in Sg; rewrite Sg;
            discriminate.
        + splits; try lia. intros T. apply Tracks_advance1; auto.
      - simpl. splits; try lia. intros T. apply Tracks_advance1; auto. }
    exists Break. eexists. split; [ reflexivity | ].
    simpl. assert (position_ s1 <> position_ s) by congruence.
    splits; auto; lia.
  - intros [ [ has_dot has_exp ] s1 ] (H1 & H2 & H3) C. bounds.
    simpl. splits; auto; lia.
  - simpl. splits; auto; lia.
  - simpl. apply fuel_enough.
Qed.

Lemma scan_number_spec l c s :
  position_ s < length X -> is_digit (at_ X (position_ s)) = true ->
  exists t s',
    scan_number X (position_ s) l c s = Some (t, s') /\
    Scanned X s l c t s' /\ type t = TokenType.Number.
Proof.
  intros Hlt Hd. unfold scan_number.
  destruct (number_loop s Hlt Hd) as ([ [ d e ] s' ] & -> & H1 & H2 & H3).
  simpl in *. eexists. exists s'. split; [ reflexivity | ].
  unfold Scanned; simpl. splits; auto.
Qed.

(** *** String literals *)

Lemma string_loop quote s0 :
  position_ s0 < length X -> at_ X (position_ s0) = quote -> quote <> NL ->
  exists s',
    while (fuel X (advance 1 s0)) (in_bounds X) (string_body X quote)
          (advance 1 s0) = Some s' /\
    position_ s0 < position_ s' /\ position_ s' <= length X /\
    (Tracks X s0 -> Tracks X s').
Proof.
  intros Hlt Hq Hnl.
  apply while_rule with
    (Inv := fun s' => position_ s0 < position_ s' /\
                      position_ s' <= length X /\
                      (Tracks X s0 -> Tracks X s'))
    (measure := fun s' => length X - position_ s').
  - intros s1 (H1 & H2 & H3) C. bounds. unfold string_body.
    destruct (at_ X (position_ s1) ==b quote) eqn:Q.
    + apply byte_eqb_true in Q.
      destruct ((position_ s1 + 1 <? input_size_ X)
                && (at_ X (position_ s1 + 1) ==b quote)) eqn:QQ.
      * apply andb_prop in QQ. destruct QQ as [ B QQ ]. bounds.
        apply byte_eqb_true in QQ.
        exists Continue. eexists. split; [ reflexivity | ].
        simpl. splits; try lia.
        intros T. apply Tracks_advance2; auto; congruence.
      * exists Break. eexists. split; [ reflexivity | ].
        simpl. splits; try lia.
        intros T. apply Tracks_advance1; auto; congruence.
    + destruct (at_ X (position_ s1) ==b NL) eqn:N.
      * apply byte_eqb_true in N.
        exists Continue. eexists. split; [ reflexivity | ].
        simpl. splits; try lia.
        intros T. apply Tracks_newline; auto.
      * apply byte_eqb_neq in N.
        exists Continue. eexists. split; [ reflexivity | ].
        simpl. splits; try lia.
        intros T. apply Tracks_advance1; auto.
  - intros s1 (H1 & H2 & H3) C. splits; auto.
  - simpl. splits; try lia.
    intros T. apply Tracks_advance1; auto. congruence.
  - apply fuel_enough.
Qed.

Lemma scan_string_spec l c s :
  position_ s < length X -> is_quote (at_ X (position_ s)) = true ->
  exists t s',
    scan_string X (position_ s) l c (at_ X (position_ s)) s = Some (t, s') /\
    Scanned X s l c t s' /\ type t = TokenType.String.
Proof.
  intros Hlt Hq. unfold scan_string. cbv zeta.
  destruct (string_loop (at_ X (position_ s)) s Hlt eq_refl
              (quote_not_newline _ Hq)) as (s' & -> & H1 & H2 & H3).
  eexists. exists s'. split; [ reflexivity | ].
  unfold Scanned; simpl. splits; auto.
Qed.

(** *** Line comments *)

Lemma comment_loop s0 :
  position_ s0 + 1 < length X ->
  at_ X (position_ s0) = c_minus -> at_ X (position_ s0 + 1) = c_minus ->
  exists s',
    while (fuel X (advance 2 s0)) (in_bounds X) (comment_body X)
          (advance 2 s0) = Some s' /\
    position_ s0 < position_ s' /\ position_ s' <= length X /\
    (Tracks X s0 -> Tracks X s').
Proof.
  intros Hlt Ha Hb.
  apply while_rule with
    (Inv := fun s' => position_ s0 < position_ s' /\
                      position_ s' <= length X /\
                      (Tracks X s0 -> Tracks X s'))
    (measure := fun s' => length X - position_ s').
  - intros s1 (H1 & H2 & H3) C. bounds. unfold comment_body.
    destruct (at_ X (position_ s1) ==b NL) eqn:N.
    + apply byte_eqb_true in N.
      exists Break. eexists. split; [ reflexivity | ].
      simpl. splits; try lia.
      intros T. apply Tracks_newline; auto.
    + apply byte_eqb_neq in N.
      exists Continue. eexists. split; [ reflexivity | ].
      simpl. splits; try lia.
      intros T. apply Tracks_advance1; auto.
  - intros s1 (H1 & H2 & H3) C. splits; auto.
  - simpl. splits; try lia.
    intros T. apply Tracks_advance2; auto.
    + rewrite Ha. discriminate.
    + rewrite Hb. discriminate.
  - apply fuel_enough.
Qed.

Lemma scan_comment_spec l c s :
  position_ s + 1 < length X ->
  at_ X (position_ s) = c_minus -> at_ X (position_ s + 1) = c_minus ->
  exists t s',
    scan_comment X (position_ s) l c s = Some (t, s') /\
    Scanned X s l c t s' /\ type t = TokenType.Comment.
Proof.
  intros Hlt Ha Hb. unfold scan_comment. cbv zeta.
  destruct (comment_loop s Hlt Ha Hb) as (s' & -> & H1 & H2 & H3).
  eexists. exists s'. split; [ reflexivity | ].
  unfold Scanned; simpl. splits; auto.
Qed.

(** *** Block comments *)

Lemma block_comment_cond_true s :
  block_comment_cond X s = true -> position_ s + 1 < length X.
Proof. unfold block_comment_cond, input_size_. apply Nat.ltb_lt. Qed.

Lemma block_comment_loop s0 :
  position_ s0 + 1 < length X ->
  at_ X (position_ s0) = c_slash -> at_ X (position_ s0 + 1) = c_star ->
  exists s',
    while (fuel X (advance 2 s0)) (block_comment_cond X)
          (block_comment_body X) (advance 2 s0) = Some s' /\
    position_ s0 < position_ s' /\ position_ s' <= length X /\
    (Tracks X s0 -> Tracks X s').
Proof.
  intros Hlt Ha Hb.
  apply while_rule with
    (Inv := fun s' => position_ s0 < position_ s' /\
                      position_ s' <= length X /\
                      (Tracks X s0 -> Tracks X s'))
    (measure := fun s' => length X - position_ s').
  - intros s1 (H1 & H2 & H3) C. apply block_comment_cond_true in C.
    unfold block_comment_body.
    destruct ((at_ X (position_ s1) ==b c_star)
              && (at_ X (position_ s1 + 1) ==b c_slash)) eqn:E.
    + apply andb_prop in E. destruct E as [ E1 E2 ].
      apply byte_eqb_true in E1. apply byte_eqb_true in E2.
      exists Break. eexists. split; [ reflexivity | ].
      simpl. splits; try lia.
      intros T. apply Tracks_advance2; auto.
      * rewrite E1. discriminate.
      * rewrite E2. discriminate.
    + destruct (at_ X (position_ s1) ==b NL) eqn:N.
      * apply byte_eqb_true in N.
        exists Continue. eexists. split; [ reflexivity | ].
        simpl. splits; try lia.
        intros T. apply Tracks_newline; auto. lia.
      * apply byte_eqb_neq in N.
        exists Continue. eexists. split; [ reflexivity | ].
        simpl. splits; try lia.
        intros T. apply Tracks_advance1; auto. lia.
  - intros s1 (H1 & H2 & H3) C. splits; auto.
  - simpl. splits; try lia.
    intros T. apply Tracks_advance2; auto.
    + rewrite Ha. discriminate.
    + rewrite Hb. discriminate.
  - apply fuel_enough.
Qed.

Lemma scan_block_comment_spec l c s :
  position_ s + 1 < length X ->
  at_ X (position_ s) = c_slash -> at_ X (position_ s + 1) = c_star ->
  exists t s',
    scan_block_comment X (position_ s) l c s = Some (t, s') /\
    Scanned X s l c t s' /\ type t = TokenType.Comment.
Proof.
  intros Hlt Ha Hb. unfold scan_block_comment. cbv zeta.
  destruct (block_comment_loop s Hlt Ha Hb) as (s' & -> & H1 & H2 & H3).
  eexists. exists s'. split; [ reflexivity | ].
  unfold Scanned; simpl. splits; auto.
Qed.

(** *** Operators and delimiters *)

(** The second byte of a recognised pair is never a newline. *)
Lemma two_byte_operator_next ch next :
  two_byte_operator ch next = true -> next <> NL.
Proof.
  unfold two_byte_operator. intros H E. subst next.
  destruct ch; vm_compute in H; discriminate.
Qed.

Lemma scan_operator_or_delimiter_spec l c s :
  position_ s < length X ->
  exists t s',
    scan_operator_or_delimiter X (position_ s) l c s = (t, s') /\
    Scanned X s l c t s' /\
    (type t = TokenType.Operator \/ type t = TokenType.Delimiter).
Proof.
  intros Hlt. unfold scan_operator_or_delimiter. cbv zeta. simpl position_.
  eexists. eexists. split; [ reflexivity | ].
  split.
  - unfold Scanned; simpl.
    destruct (position_ s + 1 <? input_size_ X) eqn:B; bounds.
    + destruct (two_byte_operator (at_ X (position_ s))
                  (at_ X (position_ s + 1))) eqn:E; simpl.
      * splits; auto; try lia.
        intros T N. rewrite advance_advance. apply Tracks_advance2; auto.
        exact (two_byte_operator_next _ _ E).
      * splits; auto; try lia.
        intros T N. apply Tracks_advance1; auto.
    + simpl. splits; auto; try lia.
      intros T N. apply Tracks_advance1; auto.
  - simpl. destruct (is_delimiter (at_ X (position_ s))); auto.
Qed.

(** *** next_token *)

Lemma next_token_spec s :
  position_ s < length X ->
  exists t s',
    next_token X s = Some (t, s') /\
    Scanned X s (line_ s) (column_ s) t s' /\
    lexeme_type (type t).
Proof.
  intros Hlt. unfold next_token.
  destruct (input_size_ X <=? position_ s) eqn:B; bounds; [ lia | ].
  cbv zeta.
  destruct (is_identifier_start (at_ X (position_ s))) eqn:I.
  { destruct (scan_identifier_or_keyword_spec (line_ s) (column_ s) s Hlt I)
      as (t & s' & E & HS & [ Ty | Ty ]);
      exists t, s'; (split; [ exact E | split; [ exact HS | ] ]);
      rewrite Ty; split; discriminate. }
  destruct (is_digit (at_ X (position_ s))) eqn:D.
  { destruct (scan_number_spec (line_ s) (column_ s) s Hlt D)
      as (t & s' & E & HS & Ty);
      exists t, s'; (split; [ exact E | split; [ exact HS | ] ]);
      rewrite Ty; split; discriminate. }
  destruct (is_quote (at_ X (position_ s))) eqn:Q.
  { destruct (scan_string_spec (line_ s) (column_ s) s Hlt Q)
      as (t & s' & E & HS & Ty);
      exists t, s'; (split; [ exact E | split; [ exact HS | ] ]);
      rewrite Ty; split; discriminate. }
  destruct ((at_ X (position_ s) ==b c_minus)
            && (position_ s + 1 <? input_size_ X)
            && (at_ X (position_ s + 1) ==b c_minus)) eqn:C1.
  { apply andb_prop in C1. destruct C1 as [ C1 C3 ].
    apply andb_prop in C1. destruct C1 as [ C1 C2 ].
    apply byte_eqb_true in C1. apply byte_eqb_true in C3. bounds.
    destruct (scan_comment_spec (line_ s) (column_ s) s C2 C1 C3)
      as (t & s' & E & HS & Ty);
      exists t, s'; (split; [ exact E | split; [ exact HS | ] ]);
      rewrite Ty; split; discriminate. }
  destruct ((at_ X (position_ s) ==b c_slash)
            && (position_ s + 1 <? input_size_ X)
            && (at_ X (position_ s + 1) ==b c_star)) eqn:C2.
  { apply andb_prop in C2. destruct C2 as [ C2 C4 ].
    apply andb_prop in C2. destruct C2 as [ C2 C3 ].
    apply byte_eqb_true in C2. apply byte_eqb_true in C4. bounds.
    destruct (scan_block_comment_spec (line_ s) (column_ s) s C3 C2 C4)
      as (t & s' & E & HS & Ty);
      exists t, s'; (split; [ exact E | split; [ exact HS | ] ]);
      rewrite Ty; split; discriminate. }
  destruct (scan_operator_or_delimiter_spec (line_ s) (column_ s) s Hlt)
    as (t & s' & E & HS & [ Ty | Ty ]);
    exists t, s'; rewrite E;
    (split; [ reflexivity | split; [ exact HS | ] ]);
    rewrite Ty; split; discriminate.
Qed.

End Scans.

(* ===================================================================== *)
(** ** The whitespace scanner *)
(* ===================================================================== *)

Lemma skip_whitespace_le (l : list byte) : skip_whitespace l <= length l.
Proof.
  induction l as [ | b l IH ]; simpl; [ lia | ].
  destruct (is_whitespace b); simpl; lia.
Qed.

Lemma skip_whitespace_prefix (l : list byte) :
  Forall (fun b => is_whitespace b = true) (firstn (skip_whitespace l) l).
Proof.
  induction l as [ | b l IH ]; simpl; [ constructor | ].
  destruct (is_whitespace b) eqn:E; simpl; [ | constructor ].
  constructor; assumption.
Qed.

Lemma skip_whitespace_stop (l : list byte) :
  skip_whitespace l < length l ->
  is_whitespace (nth (skip_whitespace l) l x00) = false.
Proof.
  induction l as [ | b l IH ]; simpl; [ lia | ].
  destruct (is_whitespace b) eqn:E; simpl; [ | intros _; exact E ].
  intros H. apply IH. lia.
Qed.

(* ===================================================================== *)
(** ** The token stream assembler *)
(* ===================================================================== *)

Section Assembler.

Context {dict : KeywordDictionary}.
Variable X : list byte.

Lemma Tiles_snoc tokens t :
  forall c p,
    Tiles X c tokens p -> Emitted X (p + skipped_at X p) t ->
    Tiles X c (tokens ++ [t]) (p + skipped_at X p + size_of t).
Proof.
  induction tokens as [ | u tokens IH ]; intros c p HT HE; simpl in *.
  - subst p. split; [ exact HE | reflexivity ].
  - destruct HT as [ HU HT ]. split; [ exact HU | ].
    apply IH; assumption.
Qed.

Lemma skipped_at_le c : c <= length X -> c + skipped_at X c <= length X.
Proof.
  intros H. unfold skipped_at.
  pose proof (skip_whitespace_le (skipn c X)) as L.
  rewrite length_skipn in L. lia.
Qed.

Lemma skipped_at_stop c :
  c + skipped_at X c < length X ->
  is_whitespace (at_ X (c + skipped_at X c)) = false.
Proof.
  intros H. unfold skipped_at in *.
  pose proof (skip_whitespace_stop (skipn c X)) as L.
  rewrite length_skipn, nth_skipn in L. apply L. lia.
Qed.

Lemma tokenize_body_spec st :
  Assembling X st -> in_bounds X (snd st) = true ->
  exists f st', tokenize_body X st = Some (f, st') /\
    match f with
    | Continue =>
        Assembling X st' /\
        length X - position_ (snd st') < length X - position_ (snd st)
    | Break => Assembled X st'
    end.
Proof.
  destruct st as [ tokens s ]. intros (Hle & HT & HL) C. simpl in *.
  apply in_bounds_true in C. unfold tokenize_body.
  fold (skipped_at X (position_ s)).
  pose proof (skipped_at_le (position_ s) Hle) as Hs.
  set (s1 := if 0 <? skipped_at X (position_ s)
             then update_position X (skipped_at X (position_ s)) s else s).
  assert (H1 : position_ s1 = position_ s + skipped_at X (position_ s)
               /\ Tracks X s1).
  { subst s1. destruct (0 <? skipped_at X (position_ s)) eqn:Z.
    - destruct (update_position_spec X (skipped_at X (position_ s)) s Hs)
        as [ Hp Ht ]. split; [ exact Hp | exact (Ht HT) ].
    - apply Nat.ltb_ge in Z. split; [ lia | exact HT ]. }
  destruct H1 as [ Hp1 HT1 ].
  destruct (input_size_ X <=? position_ s1) eqn:B.
  - apply Nat.leb_le in B. unfold input_size_ in B.
    exists Break, (tokens, s1). split; [ reflexivity | ].
    split; simpl; [ lia | ].
    exists (position_ s). split; [ exact HL | lia ].
  - apply Nat.leb_gt in B. unfold input_size_ in B.
    destruct (next_token_spec X s1 B)
      as (t & s2 & -> & (P1 & P2 & P3 & P4 & P5 & P6) & Ty1 & Ty2).
    rewrite (TokenType_eqb_neq _ _ Ty1), (TokenType_eqb_neq _ _ Ty2). simpl.
    exists Continue, (tokens ++ [t], s2). split; [ reflexivity | ].
    unfold Assembling. cbn [fst snd]. split; [ | lia ].
    assert (NW : at_ X (position_ s1) <> NL).
    { apply newline_is_whitespace. rewrite Hp1.
      apply skipped_at_stop. lia. }
    split; [ exact P2 | ]. split; [ exact (P6 HT1 NW) | ].
    assert (Sz : size_of t = position_ s2 - position_ s1).
    { unfold size_of. rewrite P3. reflexivity. }
    replace (position_ s2)
      with (position_ s + skipped_at X (position_ s) + size_of t) by lia.
    apply Tiles_snoc; [ exact HL | ].
    rewrite <- Hp1. unfold Emitted. rewrite Sz.
    destruct HT1 as [ Tl Tc ].
    splits; try lia.
    + rewrite P3. reflexivity.
    + split; assumption.
Qed.

Lemma tokenize_from_spec tokens s :
  Assembling X (tokens, s) ->
  exists st, tokenize_from X tokens s = Some st /\ Assembled X st.
Proof.
  intros HA. unfold tokenize_from.
  apply while_rule with
    (Inv := Assembling X)
    (measure := fun st => length X - position_ (snd st)).
  - exact tokenize_body_spec.
  - intros [ ts s1 ] (Hle & HT & HL) C. simpl in *.
    apply in_bounds_false in C.
    assert (E : position_ s1 = length X) by lia.
    split; simpl; [ exact E | ].
    exists (position_ s1). split; [ exact HL | ].
    rewrite E. unfold skipped_at. rewrite skipn_all. simpl. lia.
  - exact HA.
  - simpl. apply fuel_enough.
Qed.

(** [tokenize] returns, and what it returns tiles the input. *)
Lemma tokenize_spec :
  exists tokens, tokenize X = Some tokens /\
    exists p, Tiles X 0 tokens p /\ p + skipped_at X p = length X.
Proof.
  unfold tokenize.
  destruct (tokenize_from_spec [] init) as ([ tokens s ] & -> & _ & H).
  - split; simpl; [ lia | ]. split; [ apply Tracks_init | reflexivity ].
  - exists tokens. split; [ reflexivity | exact H ].
Qed.

Lemma Tiles_Forall (P : Token -> Prop) :
  (forall o t, Emitted X o t -> P t) ->
  forall tokens c p, Tiles X c tokens p -> Forall P tokens.
Proof.
  intros HP. induction tokens as [ | t ts IH ]; intros c p HT; simpl in HT.
  - constructor.
  - destruct HT as [ HE HT ]. constructor; [ eapply HP, HE | eapply IH, HT ].
Qed.

End Assembler.

(* ===================================================================== *)
(** ** Properties of the token stream *)
(* ===================================================================== *)

Lemma interleave_Tiles (X : list byte) (tokens : list Token) :
  forall c p,
    Tiles X c tokens p -> p + skipped_at X p = length X ->
    interleave X c tokens = skipn c X.
Proof.
  induction tokens as [ | t ts IH ]; intros c p HT Hend; simpl in HT.
  - subst p. simpl. fold (skipped_at X c). rewrite Hend. apply slice_to_end.
  - destruct HT as [ (D & Z & L & _) HT ].
    cbn [interleave]. fold (skipped_at X c).
    rewrite (IH _ _ HT Hend).
    assert (V : sv_bytes X (value t) =
                slice X (c + skipped_at X c) (c + skipped_at X c + size_of t)).
    { unfold sv_bytes. rewrite D. reflexivity. }
    rewrite V, <- !slice_to_end.
    rewrite slice_app by lia. rewrite slice_app by lia. reflexivity.
Qed.

Lemma Tiles_sorted (X : list byte) (tokens : list Token) :
  forall c p,
    Tiles X c tokens p ->
    Forall (fun t => c <= offset_of t) tokens /\
    StronglySorted lt (map offset_of tokens).
Proof.
  induction tokens as [ | t ts IH ]; intros c p HT; simpl in HT.
  - split; constructor.
  - destruct HT as [ (D & Z & L & _) HT ].
    destruct (IH _ _ HT) as [ HF HS ].
    assert (O : offset_of t = c + skipped_at X c).
    { unfold offset_of. rewrite D. reflexivity. }
    split.
    + constructor; [ lia | ].
      eapply Forall_impl; [ | exact HF ]. simpl. intros u Hu. lia.
    + simpl. constructor; [ exact HS | ].
      apply Forall_map.
      eapply Forall_impl; [ | exact HF ]. simpl. intros u Hu. lia.
Qed.

Lemma Emitted_offset (X : list byte) (o : nat) (t : Token) :
  Emitted X o t -> sv_data (value t) = InputPlus (offset_of t) /\ offset_of t = o.
Proof.
  intros (D & _). unfold offset_of. rewrite D. split; reflexivity.
Qed.

(** C1. For every input [X], [tokenize] returns tokens whose values,
    interleaved in position order with the bytes skipped as whitespace,
    give back [X] byte for byte; every value points into the input, and
    the starting offsets of successive tokens are strictly increasing. *)
Theorem C1_coverage_and_order {dict : KeywordDictionary} (X : list byte) :
  exists tokens,
    tokenize X = Some tokens /\
    interleave X 0 tokens = X /\
    Forall (fun t => sv_data (value t) = InputPlus (offset_of t)) tokens /\
    StronglySorted lt (map offset_of tokens).
Proof.
  destruct (tokenize_spec X) as (tokens & E & p & HT & Hend).
  exists tokens. splits.
  - exact E.
  - rewrite (interleave_Tiles X tokens 0 p HT Hend). reflexivity.
  - apply (Tiles_Forall X _ (fun o t H => proj1 (Emitted_offset X o t H))
             tokens 0 p HT).
  - apply (Tiles_sorted X tokens 0 p HT).
Qed.

(** C5. For every input [X] and every token returned by [tokenize] with
    starting offset [o], the token's line is one plus the number of
    newlines in [X[..o)] and its column is [o] minus the offset of the
    last newline before [o] (that offset counting as -1 when there is
    none), whatever was scanned or skipped before. *)
Theorem C5_position_fidelity {dict : KeywordDictionary} (X : list byte) :
  exists tokens,
    tokenize X = Some tokens /\
    Forall (fun t =>
              sv_data (value t) = InputPlus (offset_of t) /\
              line t = 1 + count_newlines (firstn (offset_of t) X) /\
              column t =
                match last_newline (firstn (offset_of t) X) with
                | Some k => offset_of t - k
                | None => offset_of t + 1
                end) tokens.
Proof.
  destruct (tokenize_spec X) as (tokens & E & p & HT & Hend).
  exists tokens. split; [ exact E | ].
  apply (Tiles_Forall X _) with (c := 0) (p := p); [ | exact HT ].
  intros o t HE. destruct (Emitted_offset X o t HE) as [ D O ].
  destruct HE as (_ & _ & _ & Hl & Hc & _).
  rewrite O. splits; [ rewrite <- O; exact D | exact Hl | exact Hc ].
Qed.

(** C9. For every input the sequence returned by [tokenize] holds no
    token of kind Whitespace and none of kind EndOfFile; on the empty
    input the sequence is empty. *)
Theorem C9_no_whitespace_no_eof {dict : KeywordDictionary} :
  (forall X : list byte,
      exists tokens,
        tokenize X = Some tokens /\
        Forall (fun t => type t <> TokenType.Whitespace /\
                         type t <> TokenType.EndOfFile) tokens) /\
  tokenize [] = Some [].
Proof.
  split; [ | reflexivity ].
  intros X. destruct (tokenize_spec X) as (tokens & E & p & HT & Hend).
  exists tokens. split; [ exact E | ].
  apply (Tiles_Forall X _) with (c := 0) (p := p); [ | exact HT ].
  intros o t (_ & _ & _ & _ & _ & Ty). exact Ty.
Qed.

Lemma Scanned_advances_within (X : list byte) (s : State) (l c : nat)
      (t : Token) (s' : State) (r : option (Token * State)) :
  r = Some (t, s') -> Scanned X s l c t s' -> advances_within X s r.
Proof.
  intros E (P1 & P2 & _). exists t, s'. auto.
Qed.

(** C10. Invoked with the position strictly below the input length,
    [next_token] returns, advances the position by at least one byte and
    never moves it past the input length, and so does each scan function
    under the test that guards its call; [tokenize] returns a sequence
    for every input: the fuel of its loops is never exhausted. *)
Theorem C10_progress_and_termination {dict : KeywordDictionary} :
  (forall (X : list byte) (s : State),
      position_ s < length X ->
      advances_within X s (next_token X s)) /\
  (forall (X : list byte) (l c : nat) (s : State),
      position_ s < length X ->
      let p := position_ s in
      (is_identifier_start (at_ X p) = true ->
       advances_within X s (scan_identifier_or_keyword X p l c s)) /\
      (is_digit (at_ X p) = true ->
       advances_within X s (scan_number X p l c s)) /\
      (is_quote (at_ X p) = true ->
       advances_within X s (scan_string X p l c (at_ X p) s)) /\
      (p + 1 < length X -> at_ X p = c_minus -> at_ X (p + 1) = c_minus ->
       advances_within X s (scan_comment X p l c s)) /\
      (p + 1 < length X -> at_ X p = c_slash -> at_ X (p + 1) = c_star ->
       advances_within X s (scan_block_comment X p l c s)) /\
      advances_within X s (Some (scan_operator_or_delimiter X p l c s))) /\
  (forall X : list byte, exists tokens, tokenize X = Some tokens).
Proof.
  split; [ | split ].
  - intros X s Hlt.
    destruct (next_token_spec X s Hlt) as (t & s' & E & HS & _).
    exact (Scanned_advances_within X s _ _ t s' _ E HS).
  - intros X l c s Hlt. cbv zeta. splits.
    + intros H.
      destruct (scan_identifier_or_keyword_spec X l c s Hlt H)
        as (t & s' & E & HS & _).
      exact (Scanned_advances_within X s _ _ t s' _ E HS).
    + intros H.
      destruct (scan_number_spec X l c s Hlt H) as (t & s' & E & HS & _).
      exact (Scanned_advances_within X s _ _ t s' _ E HS).
    + intros H.
      destruct (scan_string_spec X l c s Hlt H) as (t & s' & E & HS & _).
      exact (Scanned_advances_within X s _ _ t s' _ E HS).
    + intros H1 H2 H3.
      destruct (scan_comment_spec X l c s H1 H2 H3) as (t & s' & E & HS & _).
      exact (Scanned_advances_within X s _ _ t s' _ E HS).
    + intros H1 H2 H3.
      destruct (scan_block_comment_spec X l c s H1 H2 H3)
        as (t & s' & E & HS & _).
      exact (Scanned_advances_within X s _ _ t s' _ E HS).
    + destruct (scan_operator_or_delimiter_spec X l c s Hlt)
        as (t & s' & E & HS & _).
      apply (Scanned_advances_within X s l c t s'); [ | exact HS ].
      rewrite E. reflexivity.
  - intros X. destruct (tokenize_spec X) as (tokens & E & _).
    exists tokens. exact E.
Qed.

Lemma C10_progress_and_termination_witness :
  advances_within [x31; x2b; x32] init
                  (@next_token no_keywords [x31; x2b; x32] init).
Proof.
  apply (proj1 (@C10_progress_and_termination no_keywords)
               [x31; x2b; x32] init).
  simpl. lia.
Defined.

(* ===================================================================== *)
(** ** Operators, delimiters and unclassified bytes *)
(* ===================================================================== *)

Lemma two_byte_operator_table (ch next : byte) :
  two_byte_operator ch next = true <-> In (ch, next) extension_table.
Proof.
  unfold two_byte_operator, extension_table. split.
  - intros H.
    repeat match type of H with
           | (_ || _) = true => apply orb_prop in H; destruct H as [ H | H ]
           end;
      repeat match goal with
             | H : (_ && _) = true |- _ =>
                 apply andb_prop in H; destruct H
             | H : (_ || _) = true |- _ =>
                 apply orb_prop in H; destruct H
             | H : (_ ==b _) = true |- _ => apply byte_eqb_true in H; subst
             end; simpl; tauto.
  - simpl. intros H.
    repeat match type of H with
           | _ \/ _ => destruct H as [ H | H ]
           end;
      try contradiction; injection H as <- <-; reflexivity.
Qed.

Lemma unclassified_byte (ch : byte) :
  lookup ch = 0%N ->
  is_identifier_start ch = false /\ is_digit ch = false /\
  is_quote ch = false /\ is_delimiter ch = false /\
  (ch ==b c_minus) = false /\ (ch ==b c_slash) = false /\
  forall next, two_byte_operator ch next = false.
Proof.
  intros H. destruct ch; try (vm_compute in H; discriminate H);
    splits; try reflexivity; intros next; reflexivity.
Qed.

Lemma next_token_operator {dict : KeywordDictionary} (X : list byte)
      (s : State) :
  position_ s < length X ->
  is_identifier_start (at_ X (position_ s)) = false ->
  is_digit (at_ X (position_ s)) = false ->
  is_quote (at_ X (position_ s)) = false ->
  (at_ X (position_ s) = c_minus -> position_ s + 1 < length X ->
   at_ X (position_ s + 1) <> c_minus) ->
  (at_ X (position_ s) = c_slash -> position_ s + 1 < length X ->
   at_ X (position_ s + 1) <> c_star) ->
  next_token X s =
  Some (scan_operator_or_delimiter X (position_ s) (line_ s) (column_ s) s).
Proof.
  intros Hlt I D Q M Sl. unfold next_token.
  replace (input_size_ X <=? position_ s) with false
    by (symmetry; apply Nat.leb_gt; exact Hlt).
  cbv zeta. rewrite I, D, Q.
  destruct ((at_ X (position_ s) ==b c_minus)
            && (position_ s + 1 <? input_size_ X)
            && (at_ X (position_ s + 1) ==b c_minus)) eqn:C1.
  { apply andb_prop in C1. destruct C1 as [ C1 C3 ].
    apply andb_prop in C1. destruct C1 as [ C1 C2 ].
    apply byte_eqb_true in C1. apply byte_eqb_true in C3. apply Nat.ltb_lt in C2.
    exfalso. exact (M C1 C2 C3). }
  destruct ((at_ X (position_ s) ==b c_slash)
            && (position_ s + 1 <? input_size_ X)
            && (at_ X (position_ s + 1) ==b c_star)) eqn:C2.
  { apply andb_prop in C2. destruct C2 as [ C2 C4 ].
    apply andb_prop in C2. destruct C2 as [ C2 C3 ].
    apply byte_eqb_true in C2. apply byte_eqb_true in C4. apply Nat.ltb_lt in C3.
    exfalso. exact (Sl C2 C3 C4). }
  reflexivity.
Qed.

Lemma extension_first_byte (ch next : byte) :
  In (ch, next) extension_table ->
  is_identifier_start ch = false /\ is_digit ch = false /\
  is_quote ch = false /\ ch <> c_minus /\ ch <> c_slash.
Proof.
  unfold extension_table. simpl. intros H.
  repeat match type of H with
         | _ \/ _ => destruct H as [ H | H ]
         end;
    try contradiction; injection H as <- <-;
    splits; try reflexivity; discriminate.
Qed.

(** C8. A byte whose classification-table entry is 0, met at the start
    of a token, is consumed as a one-byte token of kind Operator: no
    other scan function takes it, [is_delimiter] is false for it and no
    two-byte extension applies.  The entry is 0 for [?], [@], [#], [$],
    backslash, backtick and every byte from 0x80 to 0xFF. *)
Theorem C8_unclassified_byte_is_operator {dict : KeywordDictionary} :
  (forall (X : list byte) (s : State),
      position_ s < length X ->
      lookup (at_ X (position_ s)) = 0%N ->
      next_token X s =
      Some ({| type := TokenType.Operator;
               value := {| sv_data := InputPlus (position_ s); sv_size := 1 |};
               keyword_id := Keyword.UNKNOWN;
               line := line_ s; column := column_ s |},
            advance 1 s)) /\
  (forall ch : byte,
      lookup ch = 0%N ->
      is_delimiter ch = false /\
      forall next, two_byte_operator ch next = false) /\
  Forall (fun ch => lookup ch = 0%N) [x3f; x40; x23; x24; x5c; x60] /\
  (forall ch : byte, 128 <= Byte.to_nat ch -> lookup ch = 0%N).
Proof.
  splits.
  - intros X s Hlt H0.
    destruct (unclassified_byte _ H0) as (I & D & Q & Dl & M & Sl & Two).
    unfold next_token.
    replace (input_size_ X <=? position_ s) with false
      by (symmetry; apply Nat.leb_gt; exact Hlt).
    cbv zeta. rewrite I, D, Q, M, Sl. simpl.
    unfold scan_operator_or_delimiter. cbv zeta. rewrite Dl, Two.
    simpl position_.
    destruct (position_ s + 1 <? input_size_ X); unfold view; simpl;
      repeat f_equal; lia.
  - intros ch H0.
    destruct (unclassified_byte _ H0) as (_ & _ & _ & Dl & _ & _ & Two).
    split; assumption.
  - repeat constructor.
  - intros ch H. destruct ch; try reflexivity; vm_compute in H; lia.
Qed.

Lemma C8_unclassified_byte_is_operator_witness :
  @next_token no_keywords [x61; x3f; x62] (advance 1 init) =
  Some ({| type := TokenType.Operator;
           value := {| sv_data := InputPlus 1; sv_size := 1 |};
           keyword_id := Keyword.UNKNOWN;
           line := 1; column := 2 |},
        advance 1 (advance 1 init)).
Proof.
  apply (proj1 (@C8_unclassified_byte_is_operator no_keywords)
               [x61; x3f; x62] (advance 1 init)).
  - simpl. lia.
  - reflexivity.
Defined.

(* ===================================================================== *)
(** ** Block comments that are never closed *)
(* ===================================================================== *)

Lemma unclosed_block_comment_loop (X : list byte) (s0 : State) :
  position_ s0 + 2 < length X ->
  (forall i, position_ s0 + 2 <= i -> i + 1 < length X ->
             at_ X i = c_star -> at_ X (i + 1) = c_slash -> False) ->
  exists s',
    while (fuel X (advance 2 s0)) (block_comment_cond X)
          (block_comment_body X) (advance 2 s0) = Some s' /\
    position_ s' = length X - 1.
Proof.
  intros Hlt Hopen.
  apply while_rule with
    (Inv := fun s' => position_ s0 + 2 <= position_ s' /\
                      position_ s' + 1 <= length X)
    (measure := fun s' => length X - position_ s').
  - intros s1 (H1 & H2) C. apply block_comment_cond_true in C.
    unfold block_comment_body.
    destruct ((at_ X (position_ s1) ==b c_star)
              && (at_ X (position_ s1 + 1) ==b c_slash)) eqn:E.
    + apply andb_prop in E. destruct E as [ E1 E2 ].
      apply byte_eqb_true in E1. apply byte_eqb_true in E2.
      exfalso. exact (Hopen (position_ s1) H1 C E1 E2).
    + destruct (at_ X (position_ s1) ==b NL);
        exists Continue; eexists; (split; [ reflexivity | ]); simpl; lia.
  - intros s1 (H1 & H2) C. unfold block_comment_cond, input_size_ in C.
    apply Nat.ltb_ge in C. lia.
  - simpl. lia.
  - apply fuel_enough.
Qed.

(** C2 (what the code does). When a block comment opened by [/*] is
    followed by at least one more byte and is never closed by [*/], the
    Comment token emitted by [next_token] stops one byte before the end
    of the input: the loop of [scan_block_comment] runs only while
    [position_ + 1 < input_size_], and the last byte is left for the
    next token. *)
Theorem C2_unclosed_block_comment_stops_short {dict : KeywordDictionary}
        (X : list byte) (s : State) :
  position_ s + 2 < length X ->
  at_ X (position_ s) = c_slash ->
  at_ X (position_ s + 1) = c_star ->
  (forall i, position_ s + 2 <= i -> i + 1 < length X ->
             at_ X i = c_star -> at_ X (i + 1) = c_slash -> False) ->
  exists s',
    next_token X s =
    Some ({| type := TokenType.Comment;
             value := {| sv_data := InputPlus (position_ s);
                         sv_size := length X - 1 - position_ s |};
             keyword_id := Keyword.UNKNOWN;
             line := line_ s; column := column_ s |}, s') /\
    position_ s' = length X - 1.
Proof.
  intros Hlt Ha Hb Hopen. unfold next_token.
  replace (input_size_ X <=? position_ s) with false
    by (symmetry; apply Nat.leb_gt; unfold input_size_; lia).
  cbv zeta. rewrite Ha, Hb.
  replace (position_ s + 1 <? input_size_ X) with true
    by (symmetry; apply Nat.ltb_lt; unfold input_size_; lia).
  simpl. unfold scan_block_comment. cbv zeta.
  destruct (unclosed_block_comment_loop X s Hlt Hopen) as (s' & -> & Hp).
  exists s'. split; [ | exact Hp ].
  unfold view. rewrite Hp. reflexivity.
Qed.

Lemma C2_unclosed_block_comment_stops_short_witness :
  exists s',
    @next_token no_keywords (bytes "/* open") init =
    Some ({| type := TokenType.Comment;
             value := {| sv_data := InputPlus 0; sv_size := 7 - 1 - 0 |};
             keyword_id := Keyword.UNKNOWN;
             line := 1; column := 1 |}, s') /\
    position_ s' = 7 - 1.
Proof.
  apply (@C2_unclosed_block_comment_stops_short no_keywords
           (bytes "/* open") init).
  - simpl. lia.
  - reflexivity.
  - reflexivity.
  - intros i H1 H2. simpl in H1, H2.
    assert (Hi : i = 2 \/ i = 3 \/ i = 4 \/ i = 5) by lia.
    destruct Hi as [ -> | [ -> | [ -> | -> ] ] ]; discriminate.
Defined.

(* ===================================================================== *)
(** ** Running the loop of [tokenize] one iteration at a time *)
(* ===================================================================== *)

Lemma while_unfold (S : Type) (n : nat) (cond : S -> bool)
      (body : S -> option (flow * S)) (s : S) :
  while (Datatypes.S n) cond body s =
  if cond s then
    match body s with
    | Some (Continue, s') => while n cond body s'
    | Some (Break, s') => Some s'
    | None => None
    end
  else Some s.
Proof. reflexivity. Qed.

(** Unfolds one iteration of the loop of [tokenize] and evaluates its
    condition and its body; what depends on the keyword dictionary stays
    as it is. *)
Ltac tokenize_iteration :=
  match goal with
  | |- context [ while ?n ?c ?body ?st ] =>
      let n' := eval vm_compute in n in
      change n with n';
      rewrite (while_unfold _ _ c body st);
      let b := eval vm_compute in (c st) in
      replace (c st) with b by (vm_compute; reflexivity);
      cbv iota;
      try (let r := eval vm_compute in (body st) in
           replace (body st) with r by (vm_compute; reflexivity);
           cbv iota)
  end.

(* ===================================================================== *)
(** ** A block comment over two lines *)
(* ===================================================================== *)

Lemma two_line_comment_tokens {dict : KeywordDictionary} :
  exists ty kw,
    tokenize two_line_comment =
    Some [ {| type := TokenType.Comment;
              value := {| sv_data := InputPlus 0; sv_size := 15 |};
              keyword_id := Keyword.UNKNOWN; line := 1; column := 1 |};
           {| type := ty;
              value := {| sv_data := InputPlus 15; sv_size := 1 |};
              keyword_id := kw; line := 2; column := 10 |} ] /\
    (find_keyword (bytes "x") = Keyword.UNKNOWN ->
     is_keyword_simd (bytes "x") Keyword.UNKNOWN = Keyword.UNKNOWN ->
     ty = TokenType.Identifier /\ kw = Keyword.UNKNOWN).
Proof.
  destruct dict as [ fk ks ]. unfold tokenize, tokenize_from.
  tokenize_iteration. tokenize_iteration.
  destruct (fk [x78]) as [ | id ] eqn:Hf; cbv iota beta zeta.
  - destruct (ks [x78] Keyword.UNKNOWN) as [ | id ] eqn:Hs; cbv iota beta zeta;
      tokenize_iteration; do 2 eexists; (split; [ reflexivity | ]);
      intros Hf' Hs'; vm_compute in Hf', Hs';
      solve [ split; reflexivity | congruence ].
  - tokenize_iteration. do 2 eexists. split; [ reflexivity | ].
    intros Hf' Hs'. vm_compute in Hf'. congruence.
Qed.

(** C3 as stated fails: on the 16-byte input, under no keyword
    dictionary does [tokenize] return a Comment of length 13 followed by
    an Identifier [x] at line 2, column 11. *)
Lemma C3_two_line_comment_counterexample :
  ~ exists (dict : KeywordDictionary) (t1 t2 : Token),
      tokenize two_line_comment = Some [t1; t2] /\
      type t1 = TokenType.Comment /\ size_of t1 = 13 /\
      type t2 = TokenType.Identifier /\
      sv_bytes two_line_comment (value t2) = bytes "x" /\
      line t2 = 2 /\ column t2 = 11.
Proof.
  intros (dict & t1 & t2 & E & _ & Sz & _).
  destruct (@two_line_comment_tokens dict) as (ty & kw & E' & _).
  rewrite E' in E. injection E as <- _.
  discriminate Sz.
Qed.

(** C3 (amended). On the 16-byte input, when [x] is not a keyword of the
    dictionary, [tokenize] returns exactly one Comment token of length
    15, at line 1, column 1, followed by an Identifier token with value
    [x] whose line is 2 and whose column is 10. *)
Theorem C3_two_line_comment {dict : KeywordDictionary} :
  find_keyword (bytes "x") = Keyword.UNKNOWN ->
  is_keyword_simd (bytes "x") Keyword.UNKNOWN = Keyword.UNKNOWN ->
  length two_line_comment = 16 /\
  exists t1 t2,
    tokenize two_line_comment = Some [t1; t2] /\
    t1 = {| type := TokenType.Comment;
            value := {| sv_data := InputPlus 0; sv_size := 15 |};
            keyword_id := Keyword.UNKNOWN; line := 1; column := 1 |} /\
    t2 = {| type := TokenType.Identifier;
            value := {| sv_data := InputPlus 15; sv_size := 1 |};
            keyword_id := Keyword.UNKNOWN; line := 2; column := 10 |} /\
    sv_bytes two_line_comment (value t2) = bytes "x".
Proof.
  intros Hf Hs. split; [ reflexivity | ].
  destruct two_line_comment_tokens as (ty & kw & E & H).
  destruct (H Hf Hs) as [ -> -> ].
  do 2 eexists. split; [ exact E | ]. splits; reflexivity.
Qed.

Lemma C3_two_line_comment_witness :
  length two_line_comment = 16 /\
  exists t1 t2,
    @tokenize no_keywords two_line_comment = Some [t1; t2] /\
    t1 = {| type := TokenType.Comment;
            value := {| sv_data := InputPlus 0; sv_size := 15 |};
            keyword_id := Keyword.UNKNOWN; line := 1; column := 1 |} /\
    t2 = {| type := TokenType.Identifier;
            value := {| sv_data := InputPlus 15; sv_size := 1 |};
            keyword_id := Keyword.UNKNOWN; line := 2; column := 10 |} /\
    sv_bytes two_line_comment (value t2) = bytes "x".
Proof.
  apply (@C3_two_line_comment no_keywords); reflexivity.
Defined.

(* ===================================================================== *)
(** ** String literals *)
(* ===================================================================== *)

Lemma EscapedRun_app (quote : byte) (a b : list byte) :
  EscapedRun quote a -> EscapedRun quote b -> EscapedRun quote (a ++ b).
Proof.
  intros Ha Hb. induction Ha; simpl.
  - exact Hb.
  - apply run_byte; assumption.
  - apply run_escaped; assumption.
Qed.

Lemma string_loop_shape (X : list byte) (quote : byte) (s0 : State) :
  position_ s0 < length X -> at_ X (position_ s0) = quote ->
  exists s',
    while (fuel X (advance 1 s0)) (in_bounds X) (string_body X quote)
          (advance 1 s0) = Some s' /\
    position_ s0 < position_ s' /\ position_ s' <= length X /\
    string_literal X quote (slice X (position_ s0) (position_ s'))
                   (position_ s').
Proof.
  intros Hlt Hq.
  apply while_rule with
    (Inv := fun s' => position_ s0 < position_ s' /\
                      position_ s' <= length X /\
                      EscapedRun quote
                        (slice X (position_ s0 + 1) (position_ s')))
    (measure := fun s' => length X - position_ s').
  - intros s1 (H1 & H2 & H3) C. apply in_bounds_true in C.
    unfold string_body.
    destruct (at_ X (position_ s1) ==b quote) eqn:Q.
    + apply byte_eqb_true in Q.
      destruct ((position_ s1 + 1 <? input_size_ X)
                && (at_ X (position_ s1 + 1) ==b quote)) eqn:QQ.
      * apply andb_prop in QQ. destruct QQ as [ B QQ ].
        apply Nat.ltb_lt in B. unfold input_size_ in B.
        apply byte_eqb_true in QQ.
        exists Continue. eexists. split; [ reflexivity | ].
        simpl. splits; try lia.
        rewrite slice_snoc2 by lia.
        apply EscapedRun_app; [ exact H3 | ].
        unfold at_ in Q, QQ. rewrite Q, QQ.
        apply run_escaped, run_nil.
      * exists Break. eexists. split; [ reflexivity | ].
        simpl. splits; try lia.
        left. exists (slice X (position_ s0 + 1) (position_ s1)).
        splits.
        -- rewrite slice_cons by lia. rewrite slice_snoc by lia.
           unfold at_ in Hq, Q. rewrite Hq, Q. reflexivity.
        -- exact H3.
        -- intros B E. rewrite E, byte_eqb_refl, andb_true_r in QQ.
           apply Nat.ltb_ge in QQ. unfold input_size_ in QQ. lia.
    + apply byte_eqb_neq in Q.
      assert (R : EscapedRun quote
                    (slice X (position_ s0 + 1) (position_ s1 + 1))).
      { rewrite slice_snoc by lia.
        apply EscapedRun_app; [ exact H3 | ].
        apply run_byte; [ exact Q | apply run_nil ]. }
      destruct (at_ X (position_ s1) ==b NL);
        exists Continue; eexists; (split; [ reflexivity | ]);
        simpl; splits; try lia; exact R.
  - intros s1 (H1 & H2 & H3) C. apply in_bounds_false in C.
    splits; try lia.
    right. split; [ lia | ].
    exists (slice X (position_ s0 + 1) (position_ s1)).
    split; [ | exact H3 ].
    rewrite slice_cons by lia. unfold at_ in Hq. rewrite Hq. reflexivity.
  - simpl. splits; try lia. rewrite slice_empty. apply run_nil.
  - apply fuel_enough.
Qed.

Lemma escaped_quote_tokens {dict : KeywordDictionary} :
  tokenize escaped_quote =
  Some [ {| type := TokenType.String;
            value := {| sv_data := InputPlus 0; sv_size := 7 |};
            keyword_id := Keyword.UNKNOWN; line := 1; column := 1 |} ].
Proof. reflexivity. Qed.

(** C6 as stated fails: the input ['it''s'] has 7 bytes, and the String
    token it yields does not have length 6. *)
Lemma C6_escaped_quote_counterexample :
  ~ exists (dict : KeywordDictionary) (t : Token),
      tokenize escaped_quote = Some [t] /\
      type t = TokenType.String /\ size_of t = 6.
Proof.
  intros (dict & t & E & _ & Sz).
  rewrite escaped_quote_tokens in E. injection E as <-.
  discriminate Sz.
Qed.

(** C6 (amended). In string scanning a byte equal to the opening quote
    ends the literal unless the next byte is that quote too, in which
    case both are consumed and scanning goes on; the value of a closed
    string holds both quotes and that of an unterminated one runs to the
    end of the input.  The 7-byte input ['it''s'] yields one String token
    of length 7, and the 1-byte input made of one double quote yields one
    String token of length 1. *)
Theorem C6_string_literals {dict : KeywordDictionary} :
  (forall (X : list byte) (l c : nat) (s : State),
      position_ s < length X ->
      exists t s',
        scan_string X (position_ s) l c (at_ X (position_ s)) s
        = Some (t, s') /\
        t = {| type := TokenType.String;
               value := {| sv_data := InputPlus (position_ s);
                           sv_size := position_ s' - position_ s |};
               keyword_id := Keyword.UNKNOWN; line := l; column := c |} /\
        position_ s < position_ s' /\ position_ s' <= length X /\
        string_literal X (at_ X (position_ s)) (sv_bytes X (value t))
                       (position_ s')) /\
  (length escaped_quote = 7 /\
   tokenize escaped_quote =
   Some [ {| type := TokenType.String;
             value := {| sv_data := InputPlus 0; sv_size := 7 |};
             keyword_id := Keyword.UNKNOWN; line := 1; column := 1 |} ]) /\
  tokenize [c_dquote] =
  Some [ {| type := TokenType.String;
            value := {| sv_data := InputPlus 0; sv_size := 1 |};
            keyword_id := Keyword.UNKNOWN; line := 1; column := 1 |} ].
Proof.
  splits; try reflexivity.
  intros X l c s Hlt. unfold scan_string. cbv zeta.
  destruct (string_loop_shape X (at_ X (position_ s)) s Hlt eq_refl)
    as (s' & -> & H1 & H2 & H3).
  eexists. exists s'. split; [ reflexivity | ].
  splits; try assumption; try reflexivity.
  unfold sv_bytes, view; simpl.
  replace (position_ s + (position_ s' - position_ s)) with (position_ s')
    by lia.
  exact H3.
Qed.

Lemma C6_string_literals_witness :
  exists t s',
    scan_string (bytes "x='a''b' ") 2 1 3 c_squote (advance 2 init)
    = Some (t, s') /\
    t = {| type := TokenType.String;
           value := {| sv_data := InputPlus 2;
                       sv_size := position_ s' - 2 |};
           keyword_id := Keyword.UNKNOWN; line := 1; column := 3 |} /\
    2 < position_ s' /\ position_ s' <= 9 /\
    string_literal (bytes "x='a''b' ") c_squote
                   (sv_bytes (bytes "x='a''b' ") (value t)) (position_ s').
Proof.
  apply (proj1 (@C6_string_literals no_keywords)
               (bytes "x='a''b' ") 1 3 (advance 2 init)).
  simpl. lia.
Defined.

(* ===================================================================== *)
(** ** Numbers *)
(* ===================================================================== *)

Lemma digits_snoc (ds : list byte) (ch : byte) :
  digits ds -> is_digit ch = true -> digits (ds ++ [ch]).
Proof.
  intros H D. apply Forall_app. split; [ exact H | ].
  constructor; [ exact D | constructor ].
Qed.

Lemma fraction_snoc (fr : list byte) (ch : byte) :
  fraction fr -> fr <> [] -> is_digit ch = true -> fraction (fr ++ [ch]).
Proof.
  intros H N D. destruct H as [ | ds Hds ]; [ contradiction | ].
  simpl. apply fraction_dot. apply digits_snoc; assumption.
Qed.

Lemma exponent_snoc (ex : list byte) (ch : byte) :
  exponent ex -> ex <> [] -> is_digit ch = true ->
  exponent (ex ++ [ch]) /\ forall m, ex ++ [ch] <> [m].
Proof.
  intros H N D. destruct H as [ | m ds Hm Hds | m sg ds Hm Hsg Hds ].
  - contradiction.
  - split.
    + simpl. apply exponent_marker; [ exact Hm | ].
      apply digits_snoc; assumption.
    + intros m' E. simpl in E. injection E as _ E.
      destruct ds; discriminate E.
  - split.
    + simpl. apply exponent_signed; try assumption.
      apply digits_snoc; assumption.
    + intros m' E. discriminate E.
Qed.

Lemma marker_not_digit (ch : byte) :
  is_exponent_marker ch = true -> is_digit ch = false.
Proof. destruct ch; vm_compute; congruence. Qed.

Lemma peek_some (X : list byte) (i : nat) :
  i < length X -> peek X i = Some (at_ X i).
Proof.
  intros H. unfold peek. apply Nat.ltb_lt in H. rewrite H. reflexivity.
Qed.

Lemma peek_none (X : list byte) (i : nat) :
  length X <= i -> peek X i = None.
Proof.
  intros H. unfold peek. apply Nat.ltb_ge in H. rewrite H. reflexivity.
Qed.

Lemma snoc_not_nil (l : list byte) (ch : byte) : l ++ [ch] <> [].
Proof. destruct l; discriminate. Qed.

Lemma number_prefix_intro (X : list byte) (start : nat) (hd he : bool)
      (s : State) (ds fr ex : list byte) :
  start <= position_ s -> position_ s <= length X ->
  slice X start (position_ s) = ds ++ fr ++ ex ->
  digits ds -> fraction fr -> exponent ex -> ds <> [] ->
  (hd = true <-> fr <> []) ->
  (he = true <-> ex <> []) ->
  (forall m, ex = [m] ->
             peek X (position_ s) = None \/
             exists ch, peek X (position_ s) = Some ch /\ is_sign ch = false) ->
  number_prefix X start (hd, he, s).
Proof.
  intros. unfold number_prefix. split; [ assumption | ].
  split; [ assumption | ]. exists ds, fr, ex.
  repeat (split; [ assumption | ]). split; [ auto | ].
  repeat (split; [ assumption | ]). assumption.
Qed.

Lemma number_body_spec (X : list byte) (start : nat)
      (st : bool * bool * State) :
  start < length X -> is_digit (at_ X start) = true ->
  number_prefix X start st -> in_bounds X (snd st) = true ->
  exists f st', number_body X st = Some (f, st') /\
    match f with
    | Continue =>
        number_prefix X start st' /\
        length X - position_ (snd st') < length X - position_ (snd st)
    | Break =>
        start < position_ (snd st') /\ position_ (snd st') <= length X /\
        number_lexeme (slice X start (position_ (snd st')))
                      (peek X (position_ (snd st')))
    end.
Proof.
  intros Hstart Hd0. destruct st as [ [ hd he ] s1 ].
  intros (H1 & H2 & ds & fr & ex & Hv & Hds & Hfr & Hex & Hne & Hdot & Hexp & Hsg) C.
  simpl in C. apply in_bounds_true in C.
  assert (Hlen : length (ds ++ fr ++ ex) = position_ s1 - start).
  { rewrite <- Hv. apply slice_length; lia. }
  assert (Hsnoc : slice X start (position_ s1 + 1) =
                  (ds ++ fr ++ ex) ++ [at_ X (position_ s1)]).
  { rewrite slice_snoc by lia. rewrite Hv. reflexivity. }
  unfold number_body.
  destruct (is_digit (at_ X (position_ s1))) eqn:D.
  { (* a digit extends the last part that is not empty *)
    exists Continue. eexists. split; [ reflexivity | ].
    split; [ | simpl; lia ].
    destruct ex as [ | e0 ex' ].
    - destruct fr as [ | f0 fr' ].
      + apply number_prefix_intro
          with (ds := ds ++ [at_ X (position_ s1)]) (fr := []) (ex := []);
          simpl position_.
        * lia.
        * lia.
        * rewrite Hsnoc. rewrite !app_nil_r. reflexivity.
        * apply digits_snoc; assumption.
        * constructor.
        * constructor.
        * apply snoc_not_nil.
        * exact Hdot.
        * exact Hexp.
        * intros m E. discriminate E.
      + assert (start < position_ s1)
          by (rewrite !length_app in Hlen; simpl in Hlen; lia).
        apply number_prefix_intro
          with (ds := ds) (fr := (f0 :: fr') ++ [at_ X (position_ s1)])
               (ex := []);
          simpl position_.
        * lia.
        * lia.
        * rewrite Hsnoc. rewrite !app_nil_r. rewrite app_assoc. reflexivity.
        * assumption.
        * apply fraction_snoc; [ assumption | discriminate | assumption ].
        * constructor.
        * auto.
        * split; [ intros _; discriminate | ].
          intros _. apply Hdot. discriminate.
        * exact Hexp.
        * intros m E. discriminate E.
    - assert (start < position_ s1)
        by (rewrite !length_app in Hlen; simpl in Hlen; lia).
      destruct (exponent_snoc (e0 :: ex') (at_ X (position_ s1)) Hex)
        as [ Hex' Hm ]; [ discriminate | assumption | ].
      apply number_prefix_intro
        with (ds := ds) (fr := fr)
             (ex := (e0 :: ex') ++ [at_ X (position_ s1)]);
        simpl position_.
      + lia.
      + lia.
      + rewrite Hsnoc. rewrite <- !app_assoc. reflexivity.
      + assumption.
      + assumption.
      + exact Hex'.
      + auto.
      + exact Hdot.
      + split; [ intros _; discriminate | ].
        intros _. apply Hexp. discriminate.
      + intros m E. exfalso. exact (Hm m E). }
  assert (Hpos : start < position_ s1).
  { assert (position_ s1 <> start) by congruence. lia. }
  specialize (Hne Hpos).
  destruct ((at_ X (position_ s1) ==b c_dot) && negb hd && negb he) eqn:Dot.
  { (* the decimal point *)
    apply andb_prop in Dot. destruct Dot as [ Dot Nhe ].
    apply andb_prop in Dot. destruct Dot as [ Dot Nhd ].
    apply byte_eqb_true in Dot. apply negb_true_iff in Nhd, Nhe. subst hd he.
    assert (Efr : fr = []).
    { destruct fr; [ reflexivity | ].
      assert (false = true) by (apply Hdot; discriminate). discriminate. }
    assert (Eex : ex = []).
    { destruct ex; [ reflexivity | ].
      assert (false = true) by (apply Hexp; discriminate). discriminate. }
    subst fr ex.
    exists Continue. eexists. split; [ reflexivity | ].
    split; [ | simpl; lia ].
    apply number_prefix_intro with (ds := ds) (fr := [c_dot]) (ex := []);
      simpl position_.
    - lia.
    - lia.
    - rewrite Hsnoc, Dot. rewrite !app_nil_r. reflexivity.
    - assumption.
    - apply fraction_dot. constructor.
    - constructor.
    - assumption.
    - split; [ intros _; discriminate | reflexivity ].
    - exact Hexp.
    - intros m E. discriminate E. }
  fold (is_exponent_marker (at_ X (position_ s1))).
  destruct (is_exponent_marker (at_ X (position_ s1)) && negb he) eqn:Ex.
  { (* the exponent marker, and the sign when one follows *)
    apply andb_prop in Ex. destruct Ex as [ Mk Nhe ].
    apply negb_true_iff in Nhe. subst he.
    assert (Eex : ex = []).
    { destruct ex; [ reflexivity | ].
      assert (false = true) by (apply Hexp; discriminate). discriminate. }
    subst ex. rewrite app_nil_r in Hsnoc.
    exists Continue. eexists. split; [ reflexivity | ].
    cbv zeta. simpl position_.
    fold (is_sign (at_ X (position_ s1 + 1))).
    destruct (position_ s1 + 1 <? input_size_ X) eqn:B.
    - apply Nat.ltb_lt in B. unfold input_size_ in B.
      destruct (is_sign (at_ X (position_ s1 + 1))) eqn:Sg.
      + split; [ | simpl; lia ].
        apply number_prefix_intro
          with (ds := ds) (fr := fr)
               (ex := [at_ X (position_ s1); at_ X (position_ s1 + 1)]);
          simpl position_.
        * lia.
        * lia.
        * rewrite slice_snoc by lia. rewrite Hsnoc.
          rewrite <- !app_assoc. reflexivity.
        * assumption.
        * assumption.
        * apply exponent_signed; [ assumption | assumption | constructor ].
        * assumption.
        * exact Hdot.
        * split; [ intros _; discriminate | reflexivity ].
        * intros m E. discriminate E.
      + split; [ | simpl; lia ].
        apply number_prefix_intro
          with (ds := ds) (fr := fr) (ex := [at_ X (position_ s1)]);
          simpl position_.
        * lia.
        * lia.
        * rewrite Hsnoc. rewrite <- !app_assoc. reflexivity.
        * assumption.
        * assumption.
        * apply exponent_marker; [ assumption | constructor ].
        * assumption.
        * exact Hdot.
        * split; [ intros _; discriminate | reflexivity ].
        * intros m _. right. exists (at_ X (position_ s1 + 1)).
          split; [ apply peek_some; lia | exact Sg ].
    - apply Nat.ltb_ge in B. unfold input_size_ in B.
      split; [ | simpl; lia ].
      apply number_prefix_intro
        with (ds := ds) (fr := fr) (ex := [at_ X (position_ s1)]);
        simpl position_.
      + lia.
      + lia.
      + rewrite Hsnoc. rewrite <- !app_assoc. reflexivity.
      + assumption.
      + assumption.
      + apply exponent_marker; [ assumption | constructor ].
      + assumption.
      + exact Hdot.
      + split; [ intros _; discriminate | reflexivity ].
      + intros m _. left. apply peek_none. lia. }
  (* none of these: the loop is left *)
  exists Break. eexists. split; [ reflexivity | ].
  simpl. split; [ lia | ]. split; [ lia | ].
  exists ds, fr, ex.
  repeat (split; [ assumption | ]).
  rewrite peek_some by lia. intros ch E. injection E as <-.
  split; [ exact D | ]. split; [ | split ].
  - intros Ec. rewrite Ec in Dot. simpl in Dot.
    destruct hd; [ left; apply Hdot; reflexivity | ].
    destruct he; [ right; apply Hexp; reflexivity | discriminate Dot ].
  - intros Em. rewrite Em in Ex. simpl in Ex.
    destruct he; [ apply Hexp; reflexivity | discriminate Ex ].
  - intros Es m Eex.
    destruct (Hsg m Eex) as [ P | (ch & P & F) ];
      rewrite peek_some in P by lia; [ discriminate P | ].
    injection P as <-. congruence.
Qed.

Lemma number_loop_shape (X : list byte) (s : State) :
  position_ s < length X -> is_digit (at_ X (position_ s)) = true ->
  exists st,
    while (fuel X s) (fun st => in_bounds X (snd st)) (number_body X)
          (false, false, s) = Some st /\
    position_ s < position_ (snd st) /\ position_ (snd st) <= length X /\
    number_lexeme (slice X (position_ s) (position_ (snd st)))
                  (peek X (position_ (snd st))).
Proof.
  intros Hlt Hd.
  apply while_rule with
    (Inv := number_prefix X (position_ s))
    (measure := fun st => length X - position_ (snd st)).
  - intros st HI C. exact (number_body_spec X (position_ s) st Hlt Hd HI C).
  - intros [ [ hd he ] s1 ]
           (H1 & H2 & ds & fr & ex & Hv & Hds & Hfr & Hex & Hne & _) C.
    simpl in C. apply in_bounds_false in C. simpl.
    split; [ lia | ]. split; [ lia | ].
    exists ds, fr, ex. repeat (split; [ assumption | ]).
    split; [ apply Hne; lia | ]. repeat (split; [ assumption | ]).
    rewrite peek_none by lia. intros ch E. discriminate E.
  - simpl. split; [ lia | ]. split; [ lia | ].
    exists [], [], []. rewrite slice_empty.
    split; [ reflexivity | ].
    split; [ constructor | ]. split; [ constructor | ].
    split; [ constructor | ]. split; [ lia | ].
    split; [ split; [ discriminate | intros H; contradiction ] | ].
    split; [ split; [ discriminate | intros H; contradiction ] | ].
    intros m E. discriminate E.
  - simpl. apply fuel_enough.
Qed.

(** C7. A Number token, begun at a digit, is the greedy run of digits,
    at most one decimal point, not allowed once the exponent marker has
    been seen, and at most one exponent marker [e] or [E] with at most
    one sign right after it; no digit is required after the marker or
    the sign ([1e] and [1e+] are single Number tokens).  The input
    [1.5e+3] yields exactly one Number token of length 6. *)
Theorem C7_number_lexemes {dict : KeywordDictionary} :
  (forall (X : list byte) (l c : nat) (s : State),
      position_ s < length X ->
      is_digit (at_ X (position_ s)) = true ->
      exists t s',
        scan_number X (position_ s) l c s = Some (t, s') /\
        t = {| type := TokenType.Number;
               value := {| sv_data := InputPlus (position_ s);
                           sv_size := position_ s' - position_ s |};
               keyword_id := Keyword.UNKNOWN; line := l; column := c |} /\
        position_ s < position_ s' /\ position_ s' <= length X /\
        number_lexeme (sv_bytes X (value t)) (peek X (position_ s'))) /\
  (let number n :=
     {| type := TokenType.Number;
        value := {| sv_data := InputPlus 0; sv_size := n |};
        keyword_id := Keyword.UNKNOWN; line := 1; column := 1 |} in
   length (bytes "1.5e+3") = 6 /\
   tokenize (bytes "1.5e+3") = Some [number 6] /\
   tokenize (bytes "1e") = Some [number 2] /\
   tokenize (bytes "1e+") = Some [number 3]).
Proof.
  split; [ | cbv zeta; splits; reflexivity ].
  intros X l c s Hlt Hd. unfold scan_number.
  destruct (number_loop_shape X s Hlt Hd)
    as ([ [ hd he ] s' ] & -> & H1 & H2 & H3).
  simpl in H1, H2, H3.
  eexists. exists s'. split; [ reflexivity | ].
  split; [ reflexivity | ]. split; [ assumption | ]. split; [ assumption | ].
  unfold sv_bytes, view; simpl.
  replace (position_ s + (position_ s' - position_ s)) with (position_ s')
    by lia.
  exact H3.
Qed.

Lemma C7_number_lexemes_witness :
  exists t s',
    scan_number (bytes "x=1.5e+3.e") 2 1 3 (advance 2 init) = Some (t, s') /\
    t = {| type := TokenType.Number;
           value := {| sv_data := InputPlus 2;
                       sv_size := position_ s' - 2 |};
           keyword_id := Keyword.UNKNOWN; line := 1; column := 3 |} /\
    2 < position_ s' /\ position_ s' <= 10 /\
    number_lexeme (sv_bytes (bytes "x=1.5e+3.e") (value t))
                  (peek (bytes "x=1.5e+3.e") (position_ s')).
Proof.
  apply (proj1 (@C7_number_lexemes no_keywords)
               (bytes "x=1.5e+3.e") 1 3 (advance 2 init)).
  - simpl. lia.
  - reflexivity.
Defined.

(* ===================================================================== *)
(** ** The classification table *)
(* ===================================================================== *)

Lemma one_of_In (l : list byte) (ch : byte) :
  one_of l ch = true <-> In ch l.
Proof.
  unfold one_of. rewrite existsb_exists. split.
  - intros (c & Hc & E). apply byte_eqb_true in E. subst c. exact Hc.
  - intros H. exists ch. split; [ exact H | apply byte_eqb_refl ].
Qed.

(** X1. Every byte belongs to at most one class: its table entry is 0
    or a single flag, so at most one of the six predicates used by the
    tokenizer holds for it, and [is_identifier_cont] is exactly
    [is_identifier_start] or [is_digit]. *)
Theorem X1_classes_are_disjoint (ch : byte) :
  (lookup ch = 0%N \/ In (lookup ch) class_flags) /\
  length (filter (fun b : bool => b)
            [ is_identifier_start ch; is_digit ch; is_whitespace ch;
              is_operator ch; is_delimiter ch; is_quote ch ]) <= 1 /\
  is_identifier_cont ch = is_identifier_start ch || is_digit ch.
Proof.
  destruct ch; vm_compute; (split; [ tauto | split; [ lia | reflexivity ] ]).
Qed.

(** X2. The members of each class, as the table has them: whitespace is
    space, tab, newline and carriage return; the quotes are the single
    and the double quote; the delimiters are [( ) [ ] { } , ; :]; the
    operators are [+ - * / = < > ! & | ^ ~ %] and also the dot; the
    digits are [0]..[9]; the identifier starts are the letters and the
    underscore. *)
Theorem X2_class_members (ch : byte) :
  (is_whitespace ch = true <-> In ch [x20; x09; x0a; x0d]) /\
  (is_quote ch = true <-> In ch [c_squote; c_dquote]) /\
  (is_delimiter ch = true <-> In ch (bytes "()[]{},;:")) /\
  (is_operator ch = true <-> In ch (bytes "+-*/=<>!&|^~%.")) /\
  (is_digit ch = true <-> In ch (bytes "0123456789")) /\
  (is_identifier_start ch = true <->
   In ch (bytes "ABCDEFGHIJKLMNOPQRSTUVWXYZabcdefghijklmnopqrstuvwxyz_")).
Proof.
  rewrite <- !one_of_In.
  destruct ch; vm_compute; repeat split; intros H; exact H.
Qed.

(** X3. The range checks of the analysis program agree with the table
    look-ups on all 256 bytes, for identifier starts, identifier
    continuations, digits and whitespace; the look-ups are the inline
    predicates of the header. *)
Theorem X3_range_checks_agree_with_table (ch : byte) :
  LookupTableAnalysis.is_identifier_start_range ch = is_identifier_start ch /\
  LookupTableAnalysis.is_identifier_cont_range ch = is_identifier_cont ch /\
  LookupTableAnalysis.is_digit_range ch = is_digit ch /\
  LookupTableAnalysis.is_whitespace_range ch = is_whitespace ch /\
  LookupTableAnalysis.is_identifier_start_lookup ch = is_identifier_start ch /\
  LookupTableAnalysis.is_identifier_cont_lookup ch = is_identifier_cont ch /\
  LookupTableAnalysis.is_digit_lookup ch = is_digit ch /\
  LookupTableAnalysis.is_whitespace_lookup ch = is_whitespace ch.
Proof.
  destruct ch; vm_compute; repeat split.
Qed.

(* ===================================================================== *)
(** ** Lifting a property of [next_token] to the tokens of [tokenize] *)
(* ===================================================================== *)

(** What [next_token] answers in bounds, read on the token. *)
Lemma next_token_offset {dict : KeywordDictionary} (X : list byte)
      (s : State) (t : Token) (s' : State) :
  position_ s < length X -> next_token X s = Some (t, s') ->
  sv_data (value t) = InputPlus (position_ s) /\
  offset_of t = position_ s /\
  size_of t = position_ s' - position_ s /\
  position_ s < position_ s' /\ position_ s' <= length X /\
  line t = line_ s /\ column t = column_ s.
Proof.
  intros Hlt E.
  destruct (next_token_spec X s Hlt)
    as (t0 & s0 & E0 & (P1 & P2 & P3 & P4 & P5 & _) & _).
  rewrite E in E0. injection E0 as <- <-.
  unfold offset_of, size_of. rewrite P3. simpl.
  splits; try reflexivity; assumption.
Qed.

(** One iteration of the loop of [tokenize] pushes nothing, or pushes the
    token [next_token] answers at the first byte that is no whitespace. *)
Lemma tokenize_body_tokens {dict : KeywordDictionary} (X : list byte)
      (tokens tokens' : list Token) (s s' : State) (f : flow) :
  Assembling X (tokens, s) ->
  tokenize_body X (tokens, s) = Some (f, (tokens', s')) ->
  tokens' = tokens \/
  exists s1 t,
    tokens' = tokens ++ [t] /\ next_token X s1 = Some (t, s') /\
    position_ s1 < length X /\ Tracks X s1 /\
    is_whitespace (at_ X (position_ s1)) = false.
Proof.
  intros (Hle & HT & HL) E. simpl in Hle, HT, HL.
  unfold tokenize_body in E. fold (skipped_at X (position_ s)) in E.
  pose proof (skipped_at_le X (position_ s) Hle) as Hs.
  set (s1 := if 0 <? skipped_at X (position_ s)
             then update_position X (skipped_at X (position_ s)) s else s)
    in E.
  assert (H1 : position_ s1 = position_ s + skipped_at X (position_ s)
               /\ Tracks X s1).
  { subst s1. destruct (0 <? skipped_at X (position_ s)) eqn:Z.
    - destruct (update_position_spec X (skipped_at X (position_ s)) s Hs)
        as [ Hp Ht ]. split; [ exact Hp | exact (Ht HT) ].
    - apply Nat.ltb_ge in Z. split; [ lia | exact HT ]. }
  destruct H1 as [ Hp1 HT1 ].
  destruct (input_size_ X <=? position_ s1) eqn:B.
  - injection E as _ <- _. left. reflexivity.
  - apply Nat.leb_gt in B. unfold input_size_ in B.
    destruct (next_token_spec X s1 B)
      as (t & s2 & En & _ & Ty1 & Ty2).
    rewrite En in E.
    rewrite (TokenType_eqb_neq _ _ Ty1), (TokenType_eqb_neq _ _ Ty2) in E.
    simpl in E. injection E as _ <- <-.
    right. exists s1, t. splits; auto.
    rewrite Hp1. apply skipped_at_stop. lia.
Qed.

Lemma tokenize_Forall {dict : KeywordDictionary} (X : list byte)
      (P : Token -> Prop) :
  (forall s t s',
      position_ s < length X -> Tracks X s ->
      is_whitespace (at_ X (position_ s)) = false ->
      next_token X s = Some (t, s') -> P t) ->
  forall tokens, tokenize X = Some tokens -> Forall P tokens.
Proof.
  intros HP tokens E.
  assert (L : exists st,
             tokenize_from X [] init = Some st /\ Forall P (fst st)).
  { unfold tokenize_from.
    apply while_rule with
      (Inv := fun st => Assembling X st /\ Forall P (fst st))
      (measure := fun st => length X - position_ (snd st)).
    - intros [ ts s ] [ HA HF ] C.
      destruct (tokenize_body_spec X (ts, s) HA C) as (f & [ ts' s' ] & Eb & H).
      exists f, (ts', s'). split; [ exact Eb | ].
      assert (HF' : Forall P ts').
      { destruct (tokenize_body_tokens X ts ts' s s' f HA Eb)
          as [ -> | (s1 & t & -> & En & H1 & H2 & H3) ]; [ exact HF | ].
        apply Forall_app. split; [ exact HF | ].
        constructor; [ | constructor ].
        exact (HP s1 t s' H1 H2 H3 En). }
      destruct f; [ | exact HF' ].
      destruct H as [ HA' Hm ]. split; [ split; assumption | exact Hm ].
    - intros st [ _ HF ] _. exact HF.
    - split; [ | constructor ].
      split; simpl; [ lia | ]. split; [ apply Tracks_init | reflexivity ].
    - exact (fuel_enough X init). }
  destruct L as ([ ts s ] & Ef & HF).
  unfold tokenize in E. rewrite Ef in E. injection E as <-. exact HF.
Qed.

(* ===================================================================== *)
(** ** The token sequence as a whole *)
(* ===================================================================== *)

Lemma skip_whitespace_all (l : list byte) :
  Forall (fun b => is_whitespace b = true) l -> skip_whitespace l = length l.
Proof.
  induction 1 as [ | b l Hb _ IH ]; simpl; [ reflexivity | ].
  rewrite Hb, IH. reflexivity.
Qed.

(** X4. [tokenize] returns the empty sequence exactly on the inputs made
    of whitespace only (the empty input among them). *)
Theorem X4_no_token_iff_whitespace {dict : KeywordDictionary}
        (X : list byte) :
  tokenize X = Some [] <-> Forall (fun b => is_whitespace b = true) X.
Proof.
  destruct (tokenize_spec X) as (tokens & E & p & HT & Hend).
  split.
  - intros E0. rewrite E in E0. injection E0 as ->.
    simpl in HT. subst p. unfold skipped_at in Hend. simpl in Hend.
    pose proof (skip_whitespace_prefix X) as H.
    rewrite Hend, firstn_all in H. exact H.
  - intros H. rewrite E. f_equal.
    destruct tokens as [ | t ts ]; [ reflexivity | ].
    destruct HT as [ (_ & Z & L & _) _ ].
    unfold skipped_at in L. simpl in L.
    rewrite (skip_whitespace_all X H) in L. lia.
Qed.

Lemma Tiles_extent (X : list byte) (tokens : list Token) :
  forall c p,
    Tiles X c tokens p -> p <= length X ->
    c <= p /\
    Forall (fun t => c <= offset_of t /\ 0 < size_of t /\
                     end_of t <= length X) tokens /\
    StronglySorted (fun a b => end_of a <= offset_of b) tokens /\
    c + list_sum (map size_of tokens) <= p.
Proof.
  induction tokens as [ | t ts IH ]; intros c p HT Hp; simpl in HT.
  - subst p. simpl. splits; try lia; constructor.
  - destruct HT as [ HE HT ].
    destruct (Emitted_offset X _ t HE) as [ _ O ].
    destruct HE as (_ & Z & L & _).
    destruct (IH _ _ HT Hp) as (H1 & H2 & H3 & H4).
    unfold end_of in *. splits.
    + lia.
    + constructor; [ lia | ].
      eapply Forall_impl; [ | exact H2 ]. simpl. intros u Hu. lia.
    + constructor; [ exact H3 | ].
      eapply Forall_impl; [ | exact H2 ]. simpl. intros u Hu. lia.
    + simpl. lia.
Qed.

(** X5. Every token returned by [tokenize] is non-empty and lies within
    the input; no two tokens overlap (each ends before the later ones
    start); the lengths of the tokens add up to at most the input length,
    so there are at most as many tokens as input bytes. *)
Theorem X5_tokens_within_input {dict : KeywordDictionary} (X : list byte) :
  exists tokens,
    tokenize X = Some tokens /\
    Forall (fun t => 0 < size_of t /\ end_of t <= length X) tokens /\
    StronglySorted (fun a b => end_of a <= offset_of b) tokens /\
    list_sum (map size_of tokens) <= length X /\
    length tokens <= length X.
Proof.
  destruct (tokenize_spec X) as (tokens & E & p & HT & Hend).
  exists tokens. split; [ exact E | ].
  destruct (Tiles_extent X tokens 0 p HT) as (H1 & H2 & H3 & H4); [ lia | ].
  assert (S : list_sum (map size_of tokens) <= length X) by lia.
  splits.
  - eapply Forall_impl; [ | exact H2 ]. simpl. intros t Ht. tauto.
  - exact H3.
  - exact S.
  - clear - H2 S. revert S. generalize (length X) as n.
    induction H2 as [ | t ts (_ & Z & _) _ IH ]; intros n S; simpl in *.
    + lia.
    + specialize (IH (n - size_of t)). lia.
Qed.

(* ===================================================================== *)
(** ** The kind of a token and its first bytes *)
(* ===================================================================== *)

Lemma scan_number_token (X : list byte) (start l c : nat) (s : State)
      (t : Token) (s' : State) :
  scan_number X start l c s = Some (t, s') ->
  t = {| type := TokenType.Number; value := view start s';
         keyword_id := Keyword.UNKNOWN; line := l; column := c |}.
Proof.
  unfold scan_number.
  destruct (while _ _ _ _) as [ [ [ d e ] s1 ] | ]; intros E;
    [ injection E as <- <-; reflexivity | discriminate E ].
Qed.

Lemma scan_string_token (X : list byte) (start l c : nat) (q : byte)
      (s : State) (t : Token) (s' : State) :
  scan_string X start l c q s = Some (t, s') ->
  t = {| type := TokenType.String; value := view start s';
         keyword_id := Keyword.UNKNOWN; line := l; column := c |}.
Proof.
  unfold scan_string. cbv zeta.
  destruct (while _ _ _ _) as [ s1 | ]; intros E;
    [ injection E as <- <-; reflexivity | discriminate E ].
Qed.

Lemma scan_comment_token (X : list byte) (start l c : nat) (s : State)
      (t : Token) (s' : State) :
  scan_comment X start l c s = Some (t, s') ->
  t = {| type := TokenType.Comment; value := view start s';
         keyword_id := Keyword.UNKNOWN; line := l; column := c |}.
Proof.
  unfold scan_comment. cbv zeta.
  destruct (while _ _ _ _) as [ s1 | ]; intros E;
    [ injection E as <- <-; reflexivity | discriminate E ].
Qed.

Lemma scan_block_comment_token (X : list byte) (start l c : nat) (s : State)
      (t : Token) (s' : State) :
  scan_block_comment X start l c s = Some (t, s') ->
  t = {| type := TokenType.Comment; value := view start s';
         keyword_id := Keyword.UNKNOWN; line := l; column := c |}.
Proof.
  unfold scan_block_comment. cbv zeta.
  destruct (while _ _ _ _) as [ s1 | ]; intros E;
    [ injection E as <- <-; reflexivity | discriminate E ].
Qed.

Lemma scan_identifier_or_keyword_token {dict : KeywordDictionary}
      (X : list byte) (l c : nat) (s : State) (t : Token) (s' : State) :
  position_ s < length X ->
  is_identifier_start (at_ X (position_ s)) = true ->
  scan_identifier_or_keyword X (position_ s) l c s = Some (t, s') ->
  let kw := keyword_of (sv_bytes X (view (position_ s) s')) in
  t = {| type := if Keyword.eqb kw Keyword.UNKNOWN
                 then TokenType.Identifier else TokenType.Keyword;
         value := view (position_ s) s';
         keyword_id := kw; line := l; column := c |}.
Proof.
  intros Hlt Hst. unfold scan_identifier_or_keyword.
  destruct (identifier_loop X s Hlt Hst) as (s1 & -> & H1 & H2 & _).
  cbv zeta.
  assert (L : length (sv_bytes X (view (position_ s) s1))
              = sv_size (view (position_ s) s1)).
  { unfold sv_bytes, view; simpl. rewrite slice_length by lia. lia. }
  set (v := view (position_ s) s1) in *.
  assert (S1 : forall r, (let '(ty, kw) := r in
                          Some ({| type := ty; value := v; keyword_id := kw;
                                   line := l; column := c |}, s1))
                         = Some (t, s') -> s1 = s').
  { intros [ ty kw ] E. simpl in E. injection E as _ <-. reflexivity. }
  intros E. pose proof (S1 _ E) as <-. fold v.
  unfold keyword_of. rewrite L. revert E.
  destruct (find_keyword (sv_bytes X v)) as [ | id ];
    destruct (sv_size v <=? 32);
    [ destruct (is_keyword_simd (sv_bytes X v) Keyword.UNKNOWN) | | | ];
    simpl; intros E; injection E as <-; reflexivity.
Qed.

(** What [next_token] answers in bounds: the kind follows from the first
    bytes, and the keyword from the kind. *)
Lemma next_token_kind {dict : KeywordDictionary} (X : list byte)
      (s : State) (t : Token) (s' : State) :
  position_ s < length X -> next_token X s = Some (t, s') ->
  starts_as X (position_ s) (type t) /\
  keyword_id t =
    match type t with
    | TokenType.Keyword | TokenType.Identifier =>
        keyword_of (sv_bytes X (value t))
    | _ => Keyword.UNKNOWN
    end /\
  (type t = TokenType.Keyword <-> keyword_id t <> Keyword.UNKNOWN).
Proof.
  intros Hlt. unfold next_token.
  replace (input_size_ X <=? position_ s) with false
    by (symmetry; apply Nat.leb_gt; exact Hlt).
  cbv zeta.
  destruct (is_identifier_start (at_ X (position_ s))) eqn:I.
  { intros E. apply scan_identifier_or_keyword_token in E; auto.
    cbv zeta in E. subst t. simpl.
    destruct (keyword_of (sv_bytes X (view (position_ s) s'))) eqn:K; simpl;
      (split; [ exact I | split; [ reflexivity | ] ]);
      split; congruence. }
  destruct (is_digit (at_ X (position_ s))) eqn:D.
  { intros E. apply scan_number_token in E. subst t. simpl.
    split; [ exact D | split; [ reflexivity | split; congruence ] ]. }
  destruct (is_quote (at_ X (position_ s))) eqn:Q.
  { intros E. apply scan_string_token in E. subst t. simpl.
    split; [ exact Q | split; [ reflexivity | split; congruence ] ]. }
  destruct ((at_ X (position_ s) ==b c_minus)
            && (position_ s + 1 <? input_size_ X)
            && (at_ X (position_ s + 1) ==b c_minus)) eqn:C1.
  { apply andb_prop in C1. destruct C1 as [ C1 C3 ].
    apply andb_prop in C1. destruct C1 as [ C1 C2 ].
    apply byte_eqb_true in C1. apply byte_eqb_true in C3.
    apply Nat.ltb_lt in C2. unfold input_size_ in C2.
    intros E. apply scan_comment_token in E. subst t. simpl.
    split; [ split; [ exact C2 | left; split; assumption ] | ].
    split; [ reflexivity | split; congruence ]. }
  destruct ((at_ X (position_ s) ==b c_slash)
            && (position_ s + 1 <? input_size_ X)
            && (at_ X (position_ s + 1) ==b c_star)) eqn:C2.
  { apply andb_prop in C2. destruct C2 as [ C2 C4 ].
    apply andb_prop in C2. destruct C2 as [ C2 C3 ].
    apply byte_eqb_true in C2. apply byte_eqb_true in C4.
    apply Nat.ltb_lt in C3. unfold input_size_ in C3.
    intros E. apply scan_block_comment_token in E. subst t. simpl.
    split; [ split; [ exact C3 | right; split; assumption ] | ].
    split; [ reflexivity | split; congruence ]. }
  intros E. injection E as <- _. unfold scan_operator_or_delimiter. simpl.
  destruct (is_delimiter (at_ X (position_ s))) eqn:Dl; simpl.
  - split; [ exact Dl | split; [ reflexivity | split; congruence ] ].
  - split; [ | split; [ reflexivity | split; congruence ] ].
    split; [ exact Dl | ]. split; [ exact I | ].
    split; [ exact D | ]. split; [ exact Q | ].
    intros [ Hlt' [ [ Ha Hb ] | [ Ha Hb ] ] ].
    + rewrite Ha, Hb, !byte_eqb_refl in C1.
      replace (position_ s + 1 <? input_size_ X) with true in C1
        by (symmetry; apply Nat.ltb_lt; exact Hlt').
      discriminate C1.
    + rewrite Ha, Hb, !byte_eqb_refl in C2.
      replace (position_ s + 1 <? input_size_ X) with true in C2
        by (symmetry; apply Nat.ltb_lt; exact Hlt').
      discriminate C2.
Qed.

(** The tests of [next_token] exclude one another: the first bytes fit
    one kind only, Keyword and Identifier taken as one. *)
Lemma starts_as_unique (X : list byte) (p : nat) (a b : TokenType.t) :
  starts_as X p a -> starts_as X p b -> same_kind a b.
Proof.
  assert (Cl : forall ch,
             (is_identifier_start ch = true ->
              is_digit ch = false /\ is_quote ch = false /\
              is_delimiter ch = false /\ ch <> c_minus /\ ch <> c_slash) /\
             (is_digit ch = true ->
              is_quote ch = false /\ is_delimiter ch = false /\
              ch <> c_minus /\ ch <> c_slash) /\
             (is_quote ch = true ->
              is_delimiter ch = false /\ ch <> c_minus /\ ch <> c_slash) /\
             (is_delimiter ch = true -> ch <> c_minus /\ ch <> c_slash)).
  { intros ch. destruct ch; vm_compute; repeat split; congruence. }
  destruct (Cl (at_ X p)) as (I & D & Q & Dl). clear Cl.
  unfold same_kind.
  destruct a, b; simpl; unfold opens_comment; intros Ha Hb;
    try contradiction; try (left; reflexivity);
    try (right; split; auto; fail);
    exfalso;
    repeat match goal with
           | H : _ /\ _ |- _ => destruct H
           end;
    try congruence;
    try (destruct (I ltac:(assumption)) as (? & ? & ? & ? & ?);
         intuition congruence);
    try (destruct (D ltac:(assumption)) as (? & ? & ? & ?);
         intuition congruence);
    try (destruct (Q ltac:(assumption)) as (? & ? & ?);
         intuition congruence);
    try (destruct (Dl ltac:(assumption)) as (? & ?);
         intuition congruence);
    try (match goal with
         | H : ~ _ |- _ => apply H; split; assumption
         end).
Qed.

(** X6. For every token returned by [tokenize] the kind follows from the
    bytes at its start, by the tests of [next_token] in their order:
    Identifier and Keyword tokens start with a letter or an underscore,
    Number tokens with a digit, String tokens with a quote, Comment
    tokens with [--] or [/*]; a token is a Delimiter exactly when its
    first byte is one (so [::] is a Delimiter), and an Operator when it
    starts with none of these, a comment opener included.  The first
    bytes fit no other kind (Keyword and Identifier taken as one); no
    token has kind Unknown, and none starts with a whitespace byte. *)
Theorem X6_kind_follows_first_bytes {dict : KeywordDictionary}
        (X : list byte) :
  exists tokens,
    tokenize X = Some tokens /\
    Forall (fun t =>
              starts_as X (offset_of t) (type t) /\
              (forall ty, starts_as X (offset_of t) ty ->
                          same_kind ty (type t)) /\
              is_whitespace (at_ X (offset_of t)) = false) tokens.
Proof.
  destruct (tokenize_spec X) as (tokens & E & _).
  exists tokens. split; [ exact E | ].
  apply (tokenize_Forall X); [ | exact E ].
  intros s t s' Hlt _ W En.
  destruct (next_token_offset X s t s' Hlt En) as (_ & -> & _).
  pose proof (proj1 (next_token_kind X s t s' Hlt En)) as K.
  split; [ exact K | ]. split; [ | exact W ].
  intros ty Hty. exact (starts_as_unique X (position_ s) ty (type t) Hty K).
Qed.

(** X7. For every token returned by [tokenize], the kind is Keyword
    exactly when the keyword identifier is not UNKNOWN.  The identifier
    of an Identifier or Keyword token is what the dictionary answers on
    the token's own bytes: [find_keyword] first, and [is_keyword_simd]
    only when that is unknown and the lexeme has at most 32 bytes; every
    other token carries UNKNOWN. *)
Theorem X7_keyword_identifier {dict : KeywordDictionary} (X : list byte) :
  exists tokens,
    tokenize X = Some tokens /\
    Forall (fun t =>
              (type t = TokenType.Keyword <->
               keyword_id t <> Keyword.UNKNOWN) /\
              keyword_id t =
                match type t with
                | TokenType.Keyword | TokenType.Identifier =>
                    keyword_of (sv_bytes X (value t))
                | _ => Keyword.UNKNOWN
                end) tokens.
Proof.
  destruct (tokenize_spec X) as (tokens & E & _).
  exists tokens. split; [ exact E | ].
  apply (tokenize_Forall X); [ | exact E ].
  intros s t s' Hlt _ _ En.
  destruct (next_token_kind X s t s' Hlt En) as (_ & K & T).
  split; assumption.
Qed.

(* ===================================================================== *)
(** ** Identifiers and comments *)
(* ===================================================================== *)

Lemma next_token_identifier {dict : KeywordDictionary} (X : list byte)
      (s : State) :
  position_ s < length X ->
  is_identifier_start (at_ X (position_ s)) = true ->
  next_token X s =
  scan_identifier_or_keyword X (position_ s) (line_ s) (column_ s) s.
Proof.
  intros Hlt I. unfold next_token.
  replace (input_size_ X <=? position_ s) with false
    by (symmetry; apply Nat.leb_gt; exact Hlt).
  cbv zeta. rewrite I. reflexivity.
Qed.

Lemma next_token_line_comment {dict : KeywordDictionary} (X : list byte)
      (s : State) :
  position_ s + 1 < length X ->
  at_ X (position_ s) = c_minus -> at_ X (position_ s + 1) = c_minus ->
  next_token X s = scan_comment X (position_ s) (line_ s) (column_ s) s.
Proof.
  intros Hlt Ha Hb. unfold next_token.
  replace (input_size_ X <=? position_ s) with false
    by (symmetry; apply Nat.leb_gt; unfold input_size_; lia).
  cbv zeta. rewrite Ha, Hb.
  replace (position_ s + 1 <? input_size_ X) with true
    by (symmetry; apply Nat.ltb_lt; exact Hlt).
  reflexivity.
Qed.

Lemma next_token_block_comment {dict : KeywordDictionary} (X : list byte)
      (s : State) :
  position_ s + 1 < length X ->
  at_ X (position_ s) = c_slash -> at_ X (position_ s + 1) = c_star ->
  next_token X s = scan_block_comment X (position_ s) (line_ s) (column_ s) s.
Proof.
  intros Hlt Ha Hb. unfold next_token.
  replace (input_size_ X <=? position_ s) with false
    by (symmetry; apply Nat.leb_gt; unfold input_size_; lia).
  cbv zeta. rewrite Ha, Hb.
  replace (position_ s + 1 <? input_size_ X) with true
    by (symmetry; apply Nat.ltb_lt; exact Hlt).
  reflexivity.
Qed.

Lemma identifier_loop_shape (X : list byte) (s : State) :
  position_ s < length X ->
  exists s',
    while (fuel X s) (in_bounds X) (identifier_body X) s = Some s' /\
    position_ s <= position_ s' /\ position_ s' <= length X /\
    Forall (fun b => is_identifier_cont b = true)
           (slice X (position_ s) (position_ s')) /\
    (forall ch, peek X (position_ s') = Some ch ->
                is_identifier_cont ch = false) /\
    line_ s' = line_ s /\
    column_ s' = column_ s + (position_ s' - position_ s).
Proof.
  intros Hlt.
  apply while_rule with
    (Inv := fun s' =>
              position_ s <= position_ s' /\ position_ s' <= length X /\
              Forall (fun b => is_identifier_cont b = true)
                     (slice X (position_ s) (position_ s')) /\
              line_ s' = line_ s /\
              column_ s' = column_ s + (position_ s' - position_ s))
    (measure := fun s' => length X - position_ s').
  - intros s1 (H1 & H2 & H3 & H4 & H5) C. apply in_bounds_true in C.
    unfold identifier_body.
    destruct (is_identifier_cont (at_ X (position_ s1))) eqn:E; simpl.
    + exists Continue, (advance 1 s1). split; [ reflexivity | ].
      simpl. splits; try lia.
      rewrite slice_snoc by lia. apply Forall_app. split; [ exact H3 | ].
      constructor; [ exact E | constructor ].
    + exists Break, s1. split; [ reflexivity | ].
      splits; try assumption.
      intros ch P. rewrite peek_some in P by lia. injection P as <-. exact E.
  - intros s1 (H1 & H2 & H3 & H4 & H5) C. apply in_bounds_false in C.
    splits; try assumption.
    intros ch P. rewrite peek_none in P by lia. discriminate P.
  - splits; try lia. rewrite slice_empty. constructor.
  - apply fuel_enough.
Qed.

(** X8. Every Identifier or Keyword token returned by [tokenize] is a
    maximal run of identifier bytes: all its bytes are letters, digits or
    underscores, and the byte that follows it, if any, is none of these;
    being a single word it lies on one line. *)
Theorem X8_identifiers_are_maximal_words {dict : KeywordDictionary}
        (X : list byte) :
  exists tokens,
    tokenize X = Some tokens /\
    Forall (fun t =>
              type t = TokenType.Keyword \/ type t = TokenType.Identifier ->
              Forall (fun b => is_identifier_cont b = true)
                     (sv_bytes X (value t)) /\
              Forall (fun b => b <> NL) (sv_bytes X (value t)) /\
              forall ch, peek X (end_of t) = Some ch ->
                         is_identifier_cont ch = false) tokens.
Proof.
  destruct (tokenize_spec X) as (tokens & E & _).
  exists tokens. split; [ exact E | ].
  apply (tokenize_Forall X); [ | exact E ].
  intros s t s' Hlt _ _ En Ty.
  destruct (next_token_kind X s t s' Hlt En) as (K & _).
  destruct (next_token_offset X s t s' Hlt En) as (D & O & Sz & P1 & P2 & _).
  assert (I : is_identifier_start (at_ X (position_ s)) = true).
  { destruct Ty as [ Ty | Ty ]; rewrite Ty in K; exact K. }
  rewrite (next_token_identifier X s Hlt I) in En.
  unfold scan_identifier_or_keyword in En.
  destruct (identifier_loop_shape X s Hlt)
    as (s1 & W & _ & _ & H3 & H4 & _).
  rewrite W in En. cbv zeta in En.
  assert (S1 : s1 = s').
  { revert En.
    match goal with
    | |- context [ let '(_, _) := ?p in _ ] => destruct p as [ ty kw ]
    end.
    intros En. injection En as _ <-. reflexivity. }
  subst s1.
  assert (V : sv_bytes X (value t) = slice X (position_ s) (position_ s')).
  { unfold sv_bytes. rewrite D. fold (size_of t). rewrite Sz.
    f_equal. lia. }
  assert (Ee : end_of t = position_ s') by (unfold end_of; lia).
  rewrite V, Ee. splits; try assumption.
  eapply Forall_impl; [ | exact H3 ]. simpl.
  intros b Hb. apply identifier_cont_not_newline. exact Hb.
Qed.

Lemma comment_loop_shape (X : list byte) (s0 : State) :
  position_ s0 + 2 <= length X ->
  exists s',
    while (fuel X (advance 2 s0)) (in_bounds X) (comment_body X)
          (advance 2 s0) = Some s' /\
    position_ s0 + 2 <= position_ s' /\ position_ s' <= length X /\
    exists body,
      Forall (fun b => b <> NL) body /\
      (slice X (position_ s0 + 2) (position_ s') = body ++ [NL] \/
       (slice X (position_ s0 + 2) (position_ s') = body /\
        position_ s' = length X)).
Proof.
  intros Hlt.
  apply while_rule with
    (Inv := fun s' =>
              position_ s0 + 2 <= position_ s' /\
              position_ s' <= length X /\
              Forall (fun b => b <> NL)
                     (slice X (position_ s0 + 2) (position_ s')))
    (measure := fun s' => length X - position_ s').
  - intros s1 (H1 & H2 & H3) C. apply in_bounds_true in C.
    unfold comment_body.
    destruct (at_ X (position_ s1) ==b NL) eqn:N.
    + apply byte_eqb_true in N.
      exists Break. eexists. split; [ reflexivity | ].
      simpl. splits; try lia.
      exists (slice X (position_ s0 + 2) (position_ s1)).
      split; [ exact H3 | ]. left.
      rewrite slice_snoc by lia. unfold at_ in N. rewrite N. reflexivity.
    + apply byte_eqb_neq in N.
      exists Continue. eexists. split; [ reflexivity | ].
      simpl. splits; try lia.
      rewrite slice_snoc by lia. apply Forall_app. split; [ exact H3 | ].
      constructor; [ exact N | constructor ].
  - intros s1 (H1 & H2 & H3) C. apply in_bounds_false in C.
    splits; try lia.
    exists (slice X (position_ s0 + 2) (position_ s1)).
    split; [ exact H3 | ]. right. split; [ reflexivity | lia ].
  - simpl. splits; try lia. rewrite slice_empty. constructor.
  - apply fuel_enough.
Qed.

(** X9. Every Comment token returned by [tokenize] that starts with a
    dash is a line comment: two dashes, bytes other than the newline, and
    then the newline, which belongs to the token, or the end of the input
    when no newline is left. *)
Theorem X9_line_comments {dict : KeywordDictionary} (X : list byte) :
  exists tokens,
    tokenize X = Some tokens /\
    Forall (fun t =>
              type t = TokenType.Comment ->
              at_ X (offset_of t) = c_minus ->
              line_comment X (sv_bytes X (value t)) (end_of t)) tokens.
Proof.
  destruct (tokenize_spec X) as (tokens & E & _).
  exists tokens. split; [ exact E | ].
  apply (tokenize_Forall X); [ | exact E ].
  intros s t s' Hlt _ _ En Ty.
  destruct (next_token_kind X s t s' Hlt En) as (K & _).
  destruct (next_token_offset X s t s' Hlt En) as (D & O & Sz & P1 & P2 & _).
  rewrite O. intros Ha.
  rewrite Ty in K. destruct K as [ Hlt2 [ [ _ Hb ] | [ Hc _ ] ] ];
    [ | rewrite Ha in Hc; discriminate Hc ].
  rewrite (next_token_line_comment X s Hlt2 Ha Hb) in En.
  unfold scan_comment in En. cbv zeta in En.
  destruct (comment_loop_shape X s) as (s1 & W & B1 & B2 & body & HF & HS);
    [ lia | ].
  rewrite W in En. injection En as _ <-.
  assert (V : sv_bytes X (value t) =
              c_minus :: c_minus :: slice X (position_ s + 2) (position_ s1)).
  { unfold sv_bytes. rewrite D. fold (size_of t). rewrite Sz.
    replace (position_ s + (position_ s1 - position_ s))
      with (position_ s1) by lia.
    rewrite (slice_cons X (position_ s) (position_ s1)) by lia.
    rewrite (slice_cons X (position_ s + 1) (position_ s1)) by lia.
    fold (at_ X (position_ s)) (at_ X (position_ s + 1)).
    rewrite Ha, Hb.
    replace (position_ s + 1 + 1) with (position_ s + 2) by lia.
    reflexivity. }
  assert (Ee : end_of t = position_ s1) by (unfold end_of; lia).
  rewrite V, Ee. exists body. split; [ exact HF | ].
  destruct HS as [ HS | [ HS He ] ]; rewrite HS; auto.
Qed.

Lemma block_comment_loop_shape (X : list byte) (s0 : State) :
  position_ s0 + 2 <= length X ->
  exists s',
    while (fuel X (advance 2 s0)) (block_comment_cond X)
          (block_comment_body X) (advance 2 s0) = Some s' /\
    position_ s0 + 2 <= position_ s' /\ position_ s' <= length X /\
    block_comment X (position_ s0) (position_ s').
Proof.
  intros Hlt.
  apply while_rule with
    (Inv := fun s' =>
              position_ s0 + 2 <= position_ s' /\
              position_ s' <= length X /\
              forall i, position_ s0 + 2 <= i -> i < position_ s' ->
                        ~ closes_at X i)
    (measure := fun s' => length X - position_ s').
  - intros s1 (H1 & H2 & H3) C. apply block_comment_cond_true in C.
    unfold block_comment_body.
    destruct ((at_ X (position_ s1) ==b c_star)
              && (at_ X (position_ s1 + 1) ==b c_slash)) eqn:E.
    + apply andb_prop in E. destruct E as [ E1 E2 ].
      apply byte_eqb_true in E1. apply byte_eqb_true in E2.
      exists Break. eexists. split; [ reflexivity | ].
      simpl. splits; try lia.
      left. replace (position_ s1 + 2 - 2) with (position_ s1) by lia.
      split; [ lia | ]. split; [ split; assumption | exact H3 ].
    + assert (N : ~ closes_at X (position_ s1)).
      { intros [ A B ]. rewrite A, B in E. discriminate E. }
      assert (H3' : forall i, position_ s0 + 2 <= i ->
                              i < position_ s1 + 1 -> ~ closes_at X i).
      { intros i Hi1 Hi2.
        destruct (Nat.eq_dec i (position_ s1)) as [ -> | Ne ];
          [ exact N | apply H3; lia ]. }
      destruct (at_ X (position_ s1) ==b NL);
        exists Continue; eexists; (split; [ reflexivity | ]);
        simpl; splits; try lia; exact H3'.
  - intros s1 (H1 & H2 & H3) C.
    unfold block_comment_cond, input_size_ in C. apply Nat.ltb_ge in C.
    splits; try lia.
    right. split; [ lia | ]. intros i Hi1 Hi2. apply H3; lia.
  - simpl. splits; lia.
  - apply fuel_enough.
Qed.

(** X10. Every Comment token returned by [tokenize] that starts with a
    slash is a block comment that ends with the first star-slash found
    two bytes or more after its start (the star of the opener cannot
    close it, and comments do not nest); when no star-slash is found it
    stops where fewer than two bytes of the input are left. *)
Theorem X10_block_comments {dict : KeywordDictionary} (X : list byte) :
  exists tokens,
    tokenize X = Some tokens /\
    Forall (fun t =>
              type t = TokenType.Comment ->
              at_ X (offset_of t) = c_slash ->
              block_comment X (offset_of t) (end_of t)) tokens.
Proof.
  destruct (tokenize_spec X) as (tokens & E & _).
  exists tokens. split; [ exact E | ].
  apply (tokenize_Forall X); [ | exact E ].
  intros s t s' Hlt _ _ En Ty.
  destruct (next_token_kind X s t s' Hlt En) as (K & _).
  destruct (next_token_offset X s t s' Hlt En) as (D & O & Sz & P1 & P2 & _).
  rewrite O. intros Ha.
  rewrite Ty in K. destruct K as [ Hlt2 [ [ Hc _ ] | [ _ Hb ] ] ];
    [ rewrite Ha in Hc; discriminate Hc | ].
  rewrite (next_token_block_comment X s Hlt2 Ha Hb) in En.
  unfold scan_block_comment in En. cbv zeta in En.
  destruct (block_comment_loop_shape X s) as (s1 & W & B1 & B2 & HB);
    [ lia | ].
  rewrite W in En. injection En as _ <-.
  assert (Ee : end_of t = position_ s1) by (unfold end_of; lia).
  rewrite Ee. exact HB.
Qed.

(* ===================================================================== *)
(** ** The end of the input, skipped bytes and source order *)
(* ===================================================================== *)

(** X11. [next_token] always returns; it answers an EndOfFile token
    exactly when the position has reached the input length, and then the
    token has the empty value, no keyword and the current line and
    column, and the state is left as it was. *)
Theorem X11_end_of_file {dict : KeywordDictionary} (X : list byte)
        (s : State) :
  exists t s',
    next_token X s = Some (t, s') /\
    (type t = TokenType.EndOfFile <-> length X <= position_ s) /\
    (length X <= position_ s ->
     s' = s /\
     t = {| type := TokenType.EndOfFile;
            value := {| sv_data := EmptyLiteral; sv_size := 0 |};
            keyword_id := Keyword.UNKNOWN;
            line := line_ s; column := column_ s |}).
Proof.
  destruct (le_lt_dec (length X) (position_ s)) as [ Hge | Hlt ].
  - unfold next_token.
    replace (input_size_ X <=? position_ s) with true
      by (symmetry; apply Nat.leb_le; exact Hge).
    do 2 eexists. split; [ reflexivity | ]. simpl.
    split; [ tauto | auto ].
  - destruct (next_token_spec X s Hlt) as (t & s' & E & _ & Ty).
    destruct Ty as [ _ Ty ].
    exists t, s'. split; [ exact E | ].
    split; [ split; [ intros H; contradiction | intros H; exfalso; lia ] | ].
    intros H. exfalso. lia.
Qed.

Lemma count_newlines_cons (b : byte) (l : list byte) :
  count_newlines (b :: l) = (if b ==b NL then 1 else 0) + count_newlines l.
Proof. unfold count_newlines. simpl. destruct (b ==b NL); reflexivity. Qed.

Lemma update_position_walk (X : list byte) (count : nat) :
  forall s,
    position_ s + count <= length X ->
    let walked := slice X (position_ s) (position_ s + count) in
    line_ (update_position X count s) = line_ s + count_newlines walked /\
    (count_newlines walked = 0 ->
     column_ (update_position X count s) = column_ s + count).
Proof.
  induction count as [ | n IH ]; intros s Hle; cbv zeta.
  - rewrite Nat.add_0_r, slice_empty. unfold count_newlines. simpl.
    split; lia.
  - rewrite slice_cons by lia. rewrite count_newlines_cons.
    fold (at_ X (position_ s)). simpl update_position.
    specialize (IH (update_position_step X s)).
    rewrite position_update_position_step in IH.
    replace (position_ s + 1 + n) with (position_ s + S n) in IH by lia.
    destruct IH as [ IH1 IH2 ]; [ lia | ].
    rewrite IH1. unfold update_position_step in *.
    destruct (at_ X (position_ s) ==b NL); simpl in *; split; lia.
Qed.

(** X12. [update_position] over [count] bytes that lie within the input
    moves the position by [count] and the line by the number of newlines
    among the bytes walked; when there is none the column moves by
    [count] too; a line and column that described the position go on
    describing it.  Walking [a + b] bytes is walking [a], then [b]. *)
Theorem X12_update_position :
  (forall (X : list byte) (count : nat) (s : State),
      position_ s + count <= length X ->
      let walked := slice X (position_ s) (position_ s + count) in
      let s' := update_position X count s in
      position_ s' = position_ s + count /\
      line_ s' = line_ s + count_newlines walked /\
      (count_newlines walked = 0 -> column_ s' = column_ s + count) /\
      (Tracks X s -> Tracks X s')) /\
  (forall (X : list byte) (a b : nat) (s : State),
      update_position X (a + b) s =
      update_position X b (update_position X a s)).
Proof.
  split.
  - intros X count s Hle. cbv zeta.
    destruct (update_position_spec X count s Hle) as [ Hp Ht ].
    destruct (update_position_walk X count s Hle) as [ Hl Hc ].
    splits; assumption.
  - intros X a. induction a as [ | a IH ]; intros b s; simpl.
    + reflexivity.
    + apply IH.
Qed.

Lemma X12_update_position_witness :
  let X := bytes "a " ++ [NL] ++ bytes "  b" in
  let walked := slice X 1 (1 + 4) in
  let s' := update_position X 4 (advance 1 init) in
  position_ s' = 1 + 4 /\
  line_ s' = 1 + count_newlines walked /\
  (count_newlines walked = 0 -> column_ s' = 2 + 4) /\
  (Tracks X (advance 1 init) -> Tracks X s').
Proof.
  apply (proj1 X12_update_position
               (bytes "a " ++ [NL] ++ bytes "  b") 4 (advance 1 init)).
  simpl. lia.
Defined.

(** Later offsets are later in source order. *)
Lemma position_order_succ (X : list byte) (o : nat) :
  o < length X ->
  line_at X o < line_at X (o + 1) \/
  (line_at X o = line_at X (o + 1) /\ column_at X o < column_at X (o + 1)).
Proof.
  intros H. rewrite line_at_succ, column_at_succ by exact H.
  destruct (nth o X x00 ==b NL); [ left | right ]; lia.
Qed.

Lemma position_order (X : list byte) (o1 : nat) (d : nat) :
  o1 + S d <= length X ->
  line_at X o1 < line_at X (o1 + S d) \/
  (line_at X o1 = line_at X (o1 + S d) /\
   column_at X o1 < column_at X (o1 + S d)).
Proof.
  induction d as [ | d IH ]; intros H.
  - apply position_order_succ. lia.
  - specialize (IH ltac:(lia)).
    pose proof (position_order_succ X (o1 + S d) ltac:(lia)) as St.
    replace (o1 + S d + 1) with (o1 + S (S d)) in St by lia.
    lia.
Qed.

Lemma StronglySorted_by_offset (R : Token -> Token -> Prop)
      (Q : Token -> Prop) (l : list Token) :
  (forall a b, Q a -> Q b -> offset_of a < offset_of b -> R a b) ->
  Forall Q l -> StronglySorted lt (map offset_of l) -> StronglySorted R l.
Proof.
  intros HR HQ. induction HQ as [ | a l Ha Hl IH ]; simpl; intros HS.
  - constructor.
  - inversion HS as [ | ? ? HS' HF ]; subst.
    constructor; [ exact (IH HS') | ].
    rewrite Forall_map in HF. rewrite Forall_forall in *.
    intros b Hb. apply HR; auto.
Qed.

(** X13. The tokens returned by [tokenize] are in source order: each
    token is on an earlier line than every later token, or on the same
    line at a smaller column. *)
Theorem X13_tokens_in_source_order {dict : KeywordDictionary}
        (X : list byte) :
  exists tokens, tokenize X = Some tokens /\ StronglySorted before tokens.
Proof.
  destruct (tokenize_spec X) as (tokens & E & p & HT & Hend).
  exists tokens. split; [ exact E | ].
  apply StronglySorted_by_offset
    with (Q := fun t => line t = line_at X (offset_of t) /\
                        column t = column_at X (offset_of t) /\
                        offset_of t < length X).
  - intros a b (La & Ca & _) (Lb & Cb & Bb) Lt. unfold before.
    rewrite La, Ca, Lb, Cb.
    replace (offset_of b) with (offset_of a + S (offset_of b - offset_of a - 1))
      by lia.
    apply position_order. lia.
  - apply (Tiles_Forall X _) with (c := 0) (p := p); [ | exact HT ].
    intros o t HE. destruct (Emitted_offset X o t HE) as [ _ O ].
    destruct HE as (_ & Z & L & Hl & Hc & _). rewrite O.
    splits; [ exact Hl | exact Hc | lia ].
  - apply (Tiles_sorted X tokens 0 p HT).
Qed.

(* ===================================================================== *)
(** ** The keyword dictionary does not move token boundaries *)
(* ===================================================================== *)

Lemma scan_identifier_or_keyword_state {dict : KeywordDictionary}
      (X : list byte) (start l c : nat) (s : State) (t : Token) (s' : State) :
  scan_identifier_or_keyword X start l c s = Some (t, s') ->
  while (fuel X s) (in_bounds X) (identifier_body X) s = Some s' /\
  value t = view start s' /\ line t = l /\ column t = c /\ is_word t.
Proof.
  unfold scan_identifier_or_keyword.
  destruct (while _ _ _ _) as [ s1 | ]; [ | discriminate ].
  cbv zeta.
  match goal with
  | |- context [ let '(_, _) := ?p in _ ] => destruct p as [ ty kw ] eqn:Ep
  end.
  intros E. injection E as <- <-. simpl. splits; try reflexivity.
  unfold is_word; simpl. revert Ep.
  repeat match goal with
         | |- context [ if ?b then _ else _ ] => destruct b
         end; intros Ep; injection Ep as <- _; auto.
Qed.

Lemma next_token_two_dictionaries (d1 d2 : KeywordDictionary)
      (X : list byte) (s : State) :
  position_ s < length X ->
  exists t1 t2 s',
    @next_token d1 X s = Some (t1, s') /\
    @next_token d2 X s = Some (t2, s') /\
    same_lexeme t1 t2.
Proof.
  intros Hlt.
  destruct (@next_token_spec d1 X s Hlt) as (t1 & s1 & E1 & _).
  destruct (@next_token_spec d2 X s Hlt) as (t2 & s2 & E2 & _).
  destruct (is_identifier_start (at_ X (position_ s))) eqn:I.
  - rewrite (@next_token_identifier d1 X s Hlt I) in E1.
    rewrite (@next_token_identifier d2 X s Hlt I) in E2.
    pose proof E1 as F1. pose proof E2 as F2.
    apply scan_identifier_or_keyword_state in F1.
    apply scan_identifier_or_keyword_state in F2.
    destruct F1 as (W1 & V1 & L1 & C1 & K1).
    destruct F2 as (W2 & V2 & L2 & C2 & K2).
    rewrite W1 in W2. injection W2 as <-.
    rewrite (@next_token_identifier d1 X s Hlt I).
    rewrite (@next_token_identifier d2 X s Hlt I).
    exists t1, t2, s1. splits; try assumption.
    unfold same_lexeme. splits; try congruence. right. split; assumption.
  - assert (Same : @next_token d1 X s = @next_token d2 X s).
    { unfold next_token. rewrite I. reflexivity. }
    rewrite <- Same in E2. rewrite E1 in E2. injection E2 as <- <-.
    exists t1, t1, s1. rewrite <- Same. splits; try assumption.
    unfold same_lexeme. splits; auto.
Qed.

Lemma tokenize_loop_two_dictionaries (d1 d2 : KeywordDictionary)
      (X : list byte) (n : nat) :
  forall ts1 ts2 s,
    Forall2 same_lexeme ts1 ts2 ->
    match while n (fun st => in_bounds X (snd st)) (@tokenize_body d1 X)
                (ts1, s),
          while n (fun st => in_bounds X (snd st)) (@tokenize_body d2 X)
                (ts2, s) with
    | Some (r1, s1), Some (r2, s2) => Forall2 same_lexeme r1 r2 /\ s1 = s2
    | None, None => True
    | _, _ => False
    end.
Proof.
  induction n as [ | n IH ]; intros ts1 ts2 s HF; simpl; [ exact I | ].
  destruct (in_bounds X s) eqn:C; [ | split; [ exact HF | reflexivity ] ].
  unfold tokenize_body at 1 3.
  set (s1 := if 0 <? skip_whitespace (skipn (position_ s) X)
             then update_position X (skip_whitespace (skipn (position_ s) X)) s
             else s).
  destruct (input_size_ X <=? position_ s1) eqn:B;
    [ split; [ exact HF | reflexivity ] | ].
  apply Nat.leb_gt in B. unfold input_size_ in B.
  destruct (next_token_two_dictionaries d1 d2 X s1 B)
    as (t1 & t2 & s2 & E1 & E2 & HL).
  rewrite E1, E2.
  destruct (@next_token_spec d1 X s1 B) as (u1 & v1 & F1 & _ & W1 & Z1).
  destruct (@next_token_spec d2 X s1 B) as (u2 & v2 & F2 & _ & W2 & Z2).
  rewrite E1 in F1. injection F1 as <- <-.
  rewrite E2 in F2. injection F2 as <- <-.
  rewrite (TokenType_eqb_neq _ _ W1), (TokenType_eqb_neq _ _ Z1).
  rewrite (TokenType_eqb_neq _ _ W2), (TokenType_eqb_neq _ _ Z2).
  simpl. apply IH. apply Forall2_app; [ exact HF | ].
  constructor; [ exact HL | constructor ].
Qed.

Lemma tokenize_two_dictionaries (d1 d2 : KeywordDictionary)
      (X : list byte) :
  exists ts1 ts2,
    @tokenize d1 X = Some ts1 /\ @tokenize d2 X = Some ts2 /\
    Forall2 same_lexeme ts1 ts2.
Proof.
  destruct (@tokenize_spec d1 X) as (ts1 & E1 & _).
  destruct (@tokenize_spec d2 X) as (ts2 & E2 & _).
  exists ts1, ts2. split; [ exact E1 | ]. split; [ exact E2 | ].
  pose proof (tokenize_loop_two_dictionaries d1 d2 X (fuel X init)
                [] [] init (Forall2_nil _)) as H.
  unfold tokenize, tokenize_from in E1, E2.
  destruct (while _ _ (@tokenize_body d1 X) _) as [ [ r1 s1 ] | ];
    [ | discriminate E1 ].
  destruct (while _ _ (@tokenize_body d2 X) _) as [ [ r2 s2 ] | ];
    [ | discriminate E2 ].
  injection E1 as <-. injection E2 as <-. apply H.
Qed.

(** X14. The keyword dictionary decides only whether an identifier-
    shaped token is a Keyword or an Identifier, and its keyword
    identifier: under any two dictionaries [tokenize] returns sequences
    of the same length whose tokens have, pairwise, the same value, line
    and column, and the same kind except between Keyword and
    Identifier. *)
Theorem X14_dictionary_leaves_lexemes (d1 d2 : KeywordDictionary)
        (X : list byte) :
  exists ts1 ts2,
    @tokenize d1 X = Some ts1 /\ @tokenize d2 X = Some ts2 /\
    Forall2 same_lexeme ts1 ts2.
Proof. exact (tokenize_two_dictionaries d1 d2 X). Qed.

(* ===================================================================== *)
(** ** The test programs of the repository *)
(* ===================================================================== *)

Lemma same_lexeme_values (X : list byte) (ts1 ts2 : list Token) :
  Forall2 same_lexeme ts1 ts2 ->
  map (fun token => sv_bytes X (value token))
      (filter (fun token =>
                 negb (TokenType.eqb (type token) TokenType.Whitespace)
                 && negb (TokenType.eqb (type token) TokenType.EndOfFile))
              ts1) =
  map (fun token => sv_bytes X (value token))
      (filter (fun token =>
                 negb (TokenType.eqb (type token) TokenType.Whitespace)
                 && negb (TokenType.eqb (type token) TokenType.EndOfFile))
              ts2).
Proof.
  induction 1 as [ | a b l1 l2 (V & _ & _ & Ty) _ IH ]; simpl.
  - reflexivity.
  - assert (K : (negb (TokenType.eqb (type a) TokenType.Whitespace)
                 && negb (TokenType.eqb (type a) TokenType.EndOfFile)) =
                (negb (TokenType.eqb (type b) TokenType.Whitespace)
                 && negb (TokenType.eqb (type b) TokenType.EndOfFile))).
    { destruct Ty as [ -> | [ [ A | A ] [ B | B ] ] ];
        [ reflexivity | | | | ]; rewrite A, B; reflexivity. }
    rewrite K.
    destruct (negb (TokenType.eqb (type b) TokenType.Whitespace)
              && negb (TokenType.eqb (type b) TokenType.EndOfFile)).
    + simpl. rewrite V. f_equal. exact IH.
    + exact IH.
Qed.

Lemma test_operator_dictionary (d1 d2 : KeywordDictionary)
      (test : TestOperators.TestCase) :
  @TestOperators.test_operator d1 test = @TestOperators.test_operator d2 test.
Proof.
  unfold TestOperators.test_operator. cbv zeta.
  destruct (tokenize_two_dictionaries d1 d2
              (bytes (TestOperators.sql test)))
    as (ts1 & ts2 & -> & -> & HF).
  rewrite (same_lexeme_values _ ts1 ts2 HF). reflexivity.
Qed.

Lemma test_invalid_operator_dictionary (d1 d2 : KeywordDictionary)
      (test : TestInvalidOperators.InvalidOperatorTest) :
  @TestInvalidOperators.test_invalid_operator d1 test =
  @TestInvalidOperators.test_invalid_operator d2 test.
Proof.
  unfold TestInvalidOperators.test_invalid_operator. cbv zeta.
  destruct (tokenize_two_dictionaries d1 d2
              (bytes (TestInvalidOperators.sql test)))
    as (ts1 & ts2 & -> & -> & HF).
  rewrite (same_lexeme_values _ ts1 ts2 HF). reflexivity.
Qed.

Lemma test_operators_run_dictionary (d1 d2 : KeywordDictionary)
      (l : list TestOperators.TestCase) :
  forall passed failed,
    @TestOperators.run d1 l passed failed =
    @TestOperators.run d2 l passed failed.
Proof.
  induction l as [ | test l IH ]; intros passed failed; simpl.
  - reflexivity.
  - rewrite (test_operator_dictionary d1 d2 test).
    destruct (TestOperators.test_operator test) as [ [ | ] | ];
      [ apply IH | apply IH | reflexivity ].
Qed.

Lemma test_invalid_operators_run_dictionary (d1 d2 : KeywordDictionary)
      (ndebug : bool) (l : list TestInvalidOperators.InvalidOperatorTest) :
  forall passed failed,
    @TestInvalidOperators.run d1 ndebug l passed failed =
    @TestInvalidOperators.run d2 ndebug l passed failed.
Proof.
  induction l as [ | test l IH ]; intros passed failed; simpl.
  - reflexivity.
  - rewrite (test_invalid_operator_dictionary d1 d2 test).
    destruct (TestInvalidOperators.test_invalid_operator test)
      as [ [ | ] | ]; [ apply IH | | reflexivity ].
    destruct ndebug; [ apply IH | reflexivity ].
Qed.

(** X15. Whatever the keyword dictionary, all 37 cases of
    [test_operators.cpp] pass on the tokenizer: the loop of [main] ends
    with 37 passed and none failed, and [main] returns 0. *)
Theorem X15_operator_tests_pass {dict : KeywordDictionary} :
  TestOperators.run TestOperators.test_cases 0 0 = Some (37, 0) /\
  TestOperators.main = Some 0.
Proof.
  unfold TestOperators.main.
  rewrite (test_operators_run_dictionary dict no_keywords).
  split; vm_compute; reflexivity.
Qed.

(** X16. Whatever the keyword dictionary, all 14 cases of
    [test_invalid_operators.cpp] pass on the tokenizer: no assertion
    fails, the loop of [main] ends with 14 passed and none failed, and
    [main] returns 0, with or without [NDEBUG]. *)
Theorem X16_invalid_operator_tests_pass {dict : KeywordDictionary}
        (ndebug : bool) :
  TestInvalidOperators.run ndebug TestInvalidOperators.tests 0 0
  = Some (Some (14, 0)) /\
  TestInvalidOperators.main ndebug = Some (TestInvalidOperators.Exit 0).
Proof.
  unfold TestInvalidOperators.main.
  rewrite (test_invalid_operators_run_dictionary dict no_keywords).
  destruct ndebug; split; vm_compute; reflexivity.
Qed.

(* ===================================================================== *)
(** ** The vector classifiers of analysis/simd_lookup_table.cpp *)
(* ===================================================================== *)

Lemma store_length (mem : list byte) (i : nat) (v : byte) :
  length (SimdLookupTable.store mem i v) = length mem.
Proof.
  revert i; induction mem as [|b mem IH]; intros [|i]; simpl; auto.
Qed.

Lemma store_app (a b : list byte) (i : nat) (v : byte) :
  SimdLookupTable.store (a ++ b) (length a + i) v
  = a ++ SimdLookupTable.store b i v.
Proof.
  induction a as [|x a IH]; simpl; [reflexivity|].
  now rewrite IH.
Qed.

Lemma skipn_uncons (A : Type) (l : list A) (n : nat) (d : A) :
  n < length l -> skipn n l = nth n l d :: skipn (S n) l.
Proof.
  revert n; induction l as [|x l IH]; intros [|n] H; simpl in *;
    try lia; auto.
  apply IH; lia.
Qed.

Lemma store_at (a b : list byte) (x v : byte) (i : nat) :
  length a = i ->
  SimdLookupTable.store (a ++ x :: b) i v = a ++ v :: b.
Proof.
  intros <-. rewrite <- (Nat.add_0_r (length a)). now rewrite store_app.
Qed.

(** Writing [f 0 .. f (n - 1)] at [base ..]. *)
Lemma fold_store (f : nat -> list byte -> byte) (n base : nat)
      (g : nat -> byte) (out : list byte) :
  base + n <= length out ->
  (forall i o, i < n -> length o = length out ->
               firstn (base + i) o
               = firstn base out ++ map g (seq 0 i) ->
               skipn (base + i) o = skipn (base + i) out ->
               f i o = g i) ->
  fold_left (fun o i => SimdLookupTable.store o (base + i) (f i o))
            (seq 0 n) out
  = firstn base out ++ map g (seq 0 n) ++ skipn (base + n) out.
Proof.
  induction n as [|n IH]; intros Hlen Hf.
  - simpl. rewrite Nat.add_0_r. now rewrite firstn_skipn.
  - rewrite seq_S, fold_left_app, IH by (auto; lia). simpl.
    assert (Hl : length (firstn base out ++ map g (seq 0 n)) = base + n).
    { rewrite length_app, length_firstn, length_map, length_seq. lia. }
    rewrite (Hf n).
    + rewrite (skipn_uncons _ out (base + n) x00) by lia.
      rewrite app_assoc, (store_at _ _ _ _ _ Hl).
      rewrite map_app, <- !app_assoc. simpl.
      now replace (base + S n) with (S (base + n)) by lia.
    + lia.
    + rewrite !length_app, length_firstn, length_map, length_seq,
        length_skipn. lia.
    + rewrite app_assoc.
      rewrite <- Hl at 1.
      now rewrite firstn_app, firstn_all, Nat.sub_diag, firstn_O, app_nil_r.
    + rewrite app_assoc.
      rewrite <- Hl at 1.
      now rewrite skipn_app, skipn_all, Nat.sub_diag.
Qed.

Lemma seq_from (p n : nat) : seq p n = map (Nat.add p) (seq 0 n).
Proof.
  induction n as [|n IH]; [reflexivity|].
  rewrite !seq_S, map_app, IH. reflexivity.
Qed.

Lemma fold_left_map (A B C : Type) (F : A -> B -> A) (m : C -> B)
      (l : list C) (a : A) :
  fold_left F (map m l) a = fold_left (fun a x => F a (m x)) l a.
Proof.
  revert a; induction l as [|x l IH]; intros a; simpl; auto.
Qed.

Lemma nth_by_skipn (A : Type) (l : list A) (i : nat) (d : A) :
  nth i l d = nth 0 (skipn i l) d.
Proof.
  revert l; induction i as [|i IH]; intros [|x l]; simpl; auto.
Qed.

Lemma store_each_spec (mem : list byte) (first count : nat)
      (f : nat -> byte) :
  first + count <= length mem ->
  SimdLookupTable.store_each mem first count f
  = firstn first mem ++ map f (seq first count)
           ++ skipn (first + count) mem.
Proof.
  intros H. unfold SimdLookupTable.store_each.
  rewrite (seq_from first count), fold_left_map, map_map.
  apply (fold_store (fun i _ => f (first + i)) count first
                    (fun i => f (first + i)) mem H).
  reflexivity.
Qed.

Lemma lanes_seq (v : list byte) (n : nat) :
  length v = n -> map (SimdLookupTable.lane v) (seq 0 n) = v.
Proof.
  intros <-. induction v as [|b v IH]; [reflexivity|].
  simpl. f_equal. rewrite <- seq_shift, map_map. exact IH.
Qed.

Lemma storeu_spec (out : list byte) (p : nat) (v : list byte) :
  length v = 16 -> p + 16 <= length out ->
  SimdLookupTable._mm_storeu_si128 out p v
  = firstn p out ++ v ++ skipn (p + 16) out.
Proof.
  intros Hv H. unfold SimdLookupTable._mm_storeu_si128.
  rewrite (fold_store (fun i _ => SimdLookupTable.lane v i) 16 p
                      (SimdLookupTable.lane v) out H)
    by reflexivity.
  now rewrite (lanes_seq v 16 Hv).
Qed.

Lemma store_flags_spec (out : list byte) (p : nat) (v : list byte) :
  length v = 16 -> p + 16 <= length out ->
  SimdLookupTable.store_flags out p v
  = firstn p out
    ++ map (fun b => SimdLookupTable.flag (SimdLookupTable.nonzero b)) v
    ++ skipn (p + 16) out.
Proof.
  intros Hv H. unfold SimdLookupTable.store_flags.
  rewrite (fold_store
             (fun i _ => SimdLookupTable.flag
                           (SimdLookupTable.nonzero
                              (SimdLookupTable.lane v i)))
             16 p
             (fun i => SimdLookupTable.flag
                         (SimdLookupTable.nonzero
                            (SimdLookupTable.lane v i)))
             out H)
    by reflexivity.
  rewrite <- (map_map (SimdLookupTable.lane v)
                      (fun b => SimdLookupTable.flag
                                  (SimdLookupTable.nonzero b))).
  now rewrite (lanes_seq v 16 Hv).
Qed.

Lemma loadu_whole (v : list byte) :
  length v = 16 -> SimdLookupTable._mm_loadu_si128 v 0 = v.
Proof.
  intros Hv. unfold SimdLookupTable._mm_loadu_si128.
  exact (lanes_seq v 16 Hv).
Qed.

Lemma lookup_classes_spec (chars : list byte) :
  length chars = 16 ->
  SimdLookupTable.lookup_classes chars
  = map (fun b => SimdLookupTable.byte_of_N (lookup b)) chars.
Proof.
  intros Hv. unfold SimdLookupTable.lookup_classes.
  rewrite storeu_spec by (auto; rewrite repeat_length; lia).
  change (firstn 0 (repeat x00 16)) with (@nil byte).
  change (skipn (0 + 16) (repeat x00 16)) with (@nil byte).
  rewrite app_nil_r. change ([] ++ chars) with chars.
  pose proof (fold_store
                (fun i t => SimdLookupTable.byte_of_N
                              (lookup (SimdLookupTable.load t i)))
                16 0
                (fun i => SimdLookupTable.byte_of_N
                            (lookup (SimdLookupTable.lane chars i)))
                chars) as F.
  cbn [Nat.add] in F. rewrite F; clear F.
  - change (firstn 0 chars) with (@nil byte).
    rewrite <- Hv at 2. rewrite skipn_all, app_nil_r.
    cbn [app].
    rewrite <- (map_map (SimdLookupTable.lane chars)
                        (fun b => SimdLookupTable.byte_of_N (lookup b))).
    rewrite (lanes_seq chars 16 Hv).
    apply loadu_whole. now rewrite length_map.
  - lia.
  - intros i o Hi Hlen _ Hs. unfold SimdLookupTable.load, SimdLookupTable.lane.
    now rewrite (nth_by_skipn _ o), Hs, <- nth_by_skipn.
Qed.

(** The chunk loop: when every chunk writes [g] over its [w] bytes, the
    loop ends after the last whole chunk with [g] written up to
    there. *)
Lemma chunks_spec (w size : nat) (chunk : nat -> list byte -> list byte)
      (g : nat -> byte) (output : list byte) :
  0 < w -> size <= length output ->
  (forall p o, p + w <= size -> length o = length output ->
               chunk p o
               = firstn p o ++ map g (seq p w) ++ skipn (p + w) o) ->
  SimdLookupTable.chunks w size chunk output
  = Some (w * (size / w),
          map g (seq 0 (w * (size / w)))
              ++ skipn (w * (size / w)) output).
Proof.
  intros Hw Hsize Hchunk. unfold SimdLookupTable.chunks.
  set (Inv := fun st : nat * list byte =>
                (exists k, fst st = w * k) /\ fst st <= size /\
                snd st = map g (seq 0 (fst st)) ++ skipn (fst st) output).
  destruct (while_rule (nat * list byte)
              (fun st => fst st + w <=? size)
              (fun st => Some (Continue,
                               (fst st + w, chunk (fst st) (snd st))))
              Inv (fun st => Inv st /\ size < fst st + w)
              (fun st => size - fst st))
    with (n := S size) (s := (0, output))
    as ([p o] & -> & ((k & Hk) & Hle & Ho) & Hlt).
  - intros [p o] ((k & Hk) & Hle & Ho) C. cbn [fst snd] in *.
    apply Nat.leb_le in C.
    eexists Continue, _. split; [reflexivity|]. cbn [fst snd].
    assert (Hlen : length o = length output).
    { rewrite Ho, length_app, length_map, length_seq, length_skipn. lia. }
    split; [|lia]. unfold Inv; cbn [fst snd]. split; [|split].
    + exists (S k). lia.
    + lia.
    + rewrite (Hchunk p o C Hlen).
      assert (Hp : length (map g (seq 0 p)) = p)
        by now rewrite length_map, length_seq.
      rewrite Ho at 1. rewrite <- Hp at 1.
      rewrite firstn_app, firstn_all, Nat.sub_diag, firstn_O, app_nil_r.
      rewrite Ho. rewrite <- Hp at 3.
      rewrite skipn_app. rewrite Hp.
      rewrite (skipn_all2 (map g (seq 0 p))) by lia.
      replace (p + w - p) with w by lia.
      rewrite skipn_skipn, (Nat.add_comm w p).
      rewrite seq_app, map_app, <- !app_assoc. reflexivity.
  - intros st HI C. apply Nat.leb_gt in C. split; [exact HI|lia].
  - unfold Inv; cbn [fst snd]. split; [exists 0; lia|].
    split; [lia|reflexivity].
  - cbn [fst]; lia.
  - cbn [fst snd] in *. subst o.
    assert (E : p = w * (size / w)).
    { subst p. f_equal. apply (Nat.div_unique size w k (size - w * k)); lia. }
    now rewrite <- E.
Qed.

Lemma loads_are_firstn (data : list byte) (p n : nat) :
  p + n <= length data ->
  map (SimdLookupTable.load data) (seq p n) = firstn n (skipn p data).
Proof.
  revert p; induction n as [|n IH]; intros p H; [reflexivity|].
  rewrite (skipn_uncons _ data p x00) by lia.
  simpl. f_equal. apply IH. lia.
Qed.

(** A chunk loop followed by the loop over the remaining bytes. *)
Lemma classifier_spec (w size : nat)
      (chunk : nat -> list byte -> list byte) (g h : nat -> byte)
      (output : list byte) :
  0 < w -> size <= length output ->
  (forall p o, p + w <= size -> length o = length output ->
               chunk p o
               = firstn p o ++ map g (seq p w) ++ skipn (p + w) o) ->
  match SimdLookupTable.chunks w size chunk output with
  | None => None
  | Some (processed, output) =>
      Some (size,
            SimdLookupTable.store_each output processed (size - processed) h)
  end
  = Some (size,
          map g (seq 0 (w * (size / w)))
              ++ map h (seq (w * (size / w)) (size - w * (size / w)))
              ++ skipn size output).
Proof.
  intros Hw Hsize Hchunk.
  rewrite (chunks_spec w size chunk g output Hw Hsize Hchunk).
  pose proof (Nat.Div0.mul_div_le size w) as HP.
  set (P := w * (size / w)) in *.
  assert (Hp : length (map g (seq 0 P)) = P)
    by now rewrite length_map, length_seq.
  rewrite store_each_spec
    by (rewrite length_app, length_map, length_seq, length_skipn; lia).
  rewrite <- Hp at 1.
  rewrite firstn_app, firstn_all, Nat.sub_diag, firstn_O, app_nil_r.
  rewrite skipn_app, Hp.
  rewrite (skipn_all2 (map g (seq 0 P))) by lia.
  replace (P + (size - P) - P) with (size - P) by lia.
  rewrite skipn_skipn.
  replace (size - P + P) with size by lia.
  reflexivity.
Qed.

(** The same when both loops write the same function of the byte. *)
Lemma classifier_uniform (w size : nat)
      (chunk : nat -> list byte -> list byte) (F : byte -> byte)
      (h : nat -> byte) (data output : list byte) :
  0 < w -> size <= length data -> size <= length output ->
  (forall p o, p + w <= size -> length o = length output ->
               chunk p o
               = firstn p o
                 ++ map (fun i => F (SimdLookupTable.load data i)) (seq p w)
                 ++ skipn (p + w) o) ->
  (forall i, h i = F (SimdLookupTable.load data i)) ->
  match SimdLookupTable.chunks w size chunk output with
  | None => None
  | Some (processed, output) =>
      Some (size,
            SimdLookupTable.store_each
              output processed (size - processed) h)
  end
  = Some (size, map F (firstn size data) ++ skipn size output).
Proof.
  intros Hw Hdata Hsize Hchunk Hh.
  rewrite (classifier_spec w size chunk
             (fun i => F (SimdLookupTable.load data i)) h
             output Hw Hsize Hchunk).
  pose proof (Nat.Div0.mul_div_le size w) as HP.
  set (P := w * (size / w)) in *.
  rewrite (map_ext h _ Hh).
  rewrite app_assoc, <- map_app, <- seq_app.
  replace (P + (size - P)) with size by lia.
  rewrite <- (map_map (SimdLookupTable.load data) F).
  now rewrite loads_are_firstn by lia.
Qed.

Lemma scalar_spec (data : list byte) (size : nat) (output : list byte) :
  size <= length data -> size <= length output ->
  SimdLookupTable.classify_identifier_start_scalar data size output
  = (size,
     map (fun ch => SimdLookupTable.flag (is_identifier_start ch))
         (firstn size data)
     ++ skipn size output).
Proof.
  intros Hd Ho. unfold SimdLookupTable.classify_identifier_start_scalar.
  rewrite store_each_spec by lia. cbn [firstn app Nat.add].
  rewrite <- (map_map (SimdLookupTable.load data)
                      (fun ch => SimdLookupTable.flag
                                   (SimdLookupTable.ident_start_lookup ch))).
  now rewrite loads_are_firstn by lia.
Qed.

(** *** The lanes of the vector expressions *)

Lemma set1_map (A : Type) (c : byte) (l : list A) :
  length l = 16 -> SimdLookupTable._mm_set1_epi8 c = map (fun _ => c) l.
Proof.
  intros H. unfold SimdLookupTable._mm_set1_epi8. rewrite <- H. clear H.
  induction l as [|x l IH]; simpl; congruence.
Qed.

Lemma lanes2_map (A : Type) (f : byte -> byte -> byte) (g h : A -> byte)
      (l : list A) :
  SimdLookupTable.lanes2 f (map g l) (map h l)
  = map (fun x => f (g x) (h x)) l.
Proof.
  unfold SimdLookupTable.lanes2.
  induction l as [|x l IH]; simpl; congruence.
Qed.

Lemma loadu_lanes (data : list byte) (p : nat) :
  SimdLookupTable._mm_loadu_si128 data p
  = map (SimdLookupTable.load data) (seq p 16).
Proof.
  unfold SimdLookupTable._mm_loadu_si128.
  now rewrite (seq_from p 16), map_map.
Qed.

Lemma range_ident_start_lanes (A : Type) (L : A -> byte) (l : list A) :
  length l = 16 ->
  map (fun b => SimdLookupTable.flag (SimdLookupTable.nonzero b))
      (SimdLookupTable.range_ident_start (map L l))
  = map (fun x => SimdLookupTable.flag (is_identifier_start (L x))) l.
Proof.
  intros Hl. unfold SimdLookupTable.range_ident_start,
    SimdLookupTable._mm_cmplt_epi8, SimdLookupTable._mm_cmpgt_epi8,
    SimdLookupTable._mm_cmpeq_epi8, SimdLookupTable._mm_and_si128,
    SimdLookupTable._mm_or_si128.
  rewrite !(set1_map A _ l Hl), !lanes2_map, map_map.
  apply map_ext. intros x. generalize (L x). intros ch.
  destruct ch; vm_compute; reflexivity.
Qed.

Lemma range_ident_start_length (v : list byte) :
  length v = 16 -> length (SimdLookupTable.range_ident_start v) = 16.
Proof.
  intros Hv.
  pose proof (f_equal (@length byte)
                      (range_ident_start_lanes byte (fun b => b) v Hv)) as H.
  rewrite !length_map, map_id in H. congruence.
Qed.

Lemma masked_classes_lanes (A : Type) (L : A -> byte) (l : list A) :
  length l = 16 ->
  SimdLookupTable._mm_and_si128
    (SimdLookupTable.lookup_classes (map L l))
    SimdLookupTable.ident_start_mask
  = map (fun x => SimdLookupTable.byte_of_N
                    (N.land (lookup (L x)) CHAR_IDENT_START)) l.
Proof.
  intros Hl. unfold SimdLookupTable.ident_start_mask,
    SimdLookupTable._mm_and_si128.
  rewrite lookup_classes_spec by now rewrite length_map.
  rewrite (set1_map A _ l Hl), map_map, lanes2_map.
  apply map_ext. intros x. generalize (L x). intros ch.
  destruct ch; vm_compute; reflexivity.
Qed.

Lemma masked_class_flag (ch : byte) :
  SimdLookupTable.flag
    (SimdLookupTable.nonzero
       (SimdLookupTable.byte_of_N (N.land (lookup ch) CHAR_IDENT_START)))
  = SimdLookupTable.flag (is_identifier_start ch).
Proof. destruct ch; vm_compute; reflexivity. Qed.

Lemma ident_start_range_table (ch : byte) :
  SimdLookupTable.ident_start_range ch = is_identifier_start ch.
Proof. destruct ch; vm_compute; reflexivity. Qed.

(** *** The chunks of the variants *)

Lemma sse2_chunk (data : list byte) (p : nat) (o : list byte) :
  p + 16 <= length o ->
  SimdLookupTable.store_flags
    o p (SimdLookupTable.range_ident_start
           (SimdLookupTable._mm_loadu_si128 data p))
  = firstn p o
    ++ map (fun i => SimdLookupTable.flag
                       (is_identifier_start (SimdLookupTable.load data i)))
           (seq p 16)
    ++ skipn (p + 16) o.
Proof.
  intros H. rewrite loadu_lanes.
  rewrite store_flags_spec
    by (auto; apply range_ident_start_length;
        now rewrite length_map, length_seq).
  now rewrite range_ident_start_lanes by apply length_seq.
Qed.

Lemma lookup_chunk (data : list byte) (p : nat) (o : list byte) :
  p + 16 <= length o ->
  SimdLookupTable.store_flags
    o p (SimdLookupTable._mm_and_si128
           (SimdLookupTable.lookup_classes
              (SimdLookupTable._mm_loadu_si128 data p))
           SimdLookupTable.ident_start_mask)
  = firstn p o
    ++ map (fun i => SimdLookupTable.flag
                       (is_identifier_start (SimdLookupTable.load data i)))
           (seq p 16)
    ++ skipn (p + 16) o.
Proof.
  intros H. rewrite loadu_lanes.
  rewrite masked_classes_lanes by apply length_seq.
  rewrite store_flags_spec by (auto; now rewrite length_map, length_seq).
  rewrite map_map. do 2 f_equal.
  apply map_ext. intros i. apply masked_class_flag.
Qed.

Lemma in_place_flags (o : list byte) (p : nat) (v : list byte) :
  length v = 16 -> p + 16 <= length o ->
  fold_left
    (fun out i =>
       SimdLookupTable.store
         out (p + i)
         (SimdLookupTable.flag
            (SimdLookupTable.nonzero (SimdLookupTable.load out (p + i)))))
    (seq 0 16) (SimdLookupTable._mm_storeu_si128 o p v)
  = SimdLookupTable.store_flags o p v.
Proof.
  intros Hv H.
  rewrite store_flags_spec by assumption.
  rewrite storeu_spec by assumption.
  set (o1 := firstn p o ++ v ++ skipn (p + 16) o).
  assert (Hlen : length o1 = length o).
  { unfold o1. rewrite !length_app, length_firstn, length_skipn. lia. }
  assert (Hf : firstn p o1 = firstn p o).
  { unfold o1. rewrite firstn_app, length_firstn.
    replace (p - Nat.min p (length o)) with 0 by lia.
    rewrite firstn_O, app_nil_r, firstn_firstn. f_equal. lia. }
  assert (Hs : skipn (p + 16) o1 = skipn (p + 16) o).
  { unfold o1. rewrite app_assoc, skipn_app, skipn_all2
      by (rewrite length_app, length_firstn; lia).
    rewrite length_app, length_firstn.
    replace (p + 16 - (Nat.min p (length o) + length v)) with 0 by lia.
    reflexivity. }
  rewrite (fold_store
             (fun i out => SimdLookupTable.flag
                             (SimdLookupTable.nonzero
                                (SimdLookupTable.load out (p + i))))
             16 p
             (fun i => SimdLookupTable.flag
                         (SimdLookupTable.nonzero
                            (SimdLookupTable.lane v i)))
             o1).
  - rewrite Hf, Hs.
    rewrite <- (map_map (SimdLookupTable.lane v)
                        (fun b => SimdLookupTable.flag
                                    (SimdLookupTable.nonzero b))).
    now rewrite (lanes_seq v 16 Hv).
  - lia.
  - intros i out Hi _ _ Hsk.
    unfold SimdLookupTable.load, SimdLookupTable.lane.
    rewrite (nth_by_skipn _ out), Hsk, <- nth_by_skipn.
    unfold o1. rewrite app_nth2 by (rewrite length_firstn; lia).
    rewrite length_firstn.
    replace (p + i - Nat.min p (length o)) with i by lia.
    now rewrite app_nth1 by lia.
Qed.

Lemma app_eq_same_length (A : Type) (a a' b b' : list A) :
  length a = length a' -> a ++ b = a' ++ b' -> a = a' /\ b = b'.
Proof.
  revert a'; induction a as [|x a IH]; intros [|x' a'] Hl H;
    simpl in *; try discriminate; auto.
  injection H as -> H. destruct (IH a' ltac:(lia) H) as [-> ->]. auto.
Qed.

Lemma map_eq_Forall (A B : Type) (f g : A -> B) (l : list A) :
  map f l = map g l <-> Forall (fun x => f x = g x) l.
Proof.
  induction l as [|x l IH]; simpl; split; intros H; auto.
  - injection H as Hx Hl. constructor; [assumption|now apply IH].
  - inversion H; subst. f_equal; [assumption|now apply IH].
Qed.

Lemma firstn_chunked (A : Type) (l : list A) (P size : nat) :
  P <= size ->
  firstn size l = firstn P l ++ firstn (size - P) (skipn P l).
Proof.
  intros H. rewrite <- (firstn_skipn P (firstn size l)) at 1.
  rewrite firstn_firstn, skipn_firstn_comm.
  now replace (Nat.min P size) with P by lia.
Qed.

Lemma masked_class_raw (ch : byte) :
  SimdLookupTable.byte_of_N (N.land (lookup ch) CHAR_IDENT_START)
  = SimdLookupTable.flag (is_identifier_start ch)
  <-> is_identifier_start ch = false.
Proof. destruct ch; vm_compute; split; congruence. Qed.

Lemma masked_class_flag_nonzero (ch : byte) :
  SimdLookupTable.nonzero
    (SimdLookupTable.byte_of_N (N.land (lookup ch) CHAR_IDENT_START))
  = is_identifier_start ch.
Proof. destruct ch; vm_compute; reflexivity. Qed.

Lemma flag_nonzero (c : bool) :
  SimdLookupTable.nonzero (SimdLookupTable.flag c) = c.
Proof. now destruct c. Qed.

Lemma sse2_spec (data : list byte) (size : nat) (output : list byte) :
  size <= length data -> size <= length output ->
  SimdLookupTable.classify_identifier_start_sse2 data size output
  = Some (size,
          map (fun ch => SimdLookupTable.flag (is_identifier_start ch))
              (firstn size data)
          ++ skipn size output).
Proof.
  intros Hd Ho. unfold SimdLookupTable.classify_identifier_start_sse2.
  apply (classifier_uniform
           16 size _
           (fun ch => SimdLookupTable.flag (is_identifier_start ch))
           _ data output); try lia.
  - intros p o Hp Hl. apply sse2_chunk. lia.
  - intros i. now rewrite ident_start_range_table.
Qed.

Lemma sse2_lookup_spec (data : list byte) (size : nat)
      (output : list byte) :
  size <= length data -> size <= length output ->
  SimdLookupTable.classify_identifier_start_sse2_lookup data size output
  = Some (size,
          map (fun ch => SimdLookupTable.flag (is_identifier_start ch))
              (firstn size data)
          ++ skipn size output).
Proof.
  intros Hd Ho.
  unfold SimdLookupTable.classify_identifier_start_sse2_lookup.
  apply (classifier_uniform
           16 size _
           (fun ch => SimdLookupTable.flag (is_identifier_start ch))
           _ data output); try lia.
  - intros p o Hp Hl. apply lookup_chunk. lia.
  - reflexivity.
Qed.

Lemma ssse3_advanced_spec (data : list byte) (size : nat)
      (output : list byte) :
  size <= length data -> size <= length output ->
  SimdLookupTable.classify_identifier_start_ssse3_advanced data size output
  = Some (size,
          map (fun ch => SimdLookupTable.flag (is_identifier_start ch))
              (firstn size data)
          ++ skipn size output).
Proof.
  intros Hd Ho.
  unfold SimdLookupTable.classify_identifier_start_ssse3_advanced.
  apply (classifier_uniform
           16 size _
           (fun ch => SimdLookupTable.flag (is_identifier_start ch))
           _ data output); try lia.
  - intros p o Hp Hl.
    rewrite in_place_flags
      by (try lia; apply range_ident_start_length; rewrite loadu_lanes;
          now rewrite length_map, length_seq).
    apply sse2_chunk. lia.
  - reflexivity.
Qed.

Lemma avx2_simple_spec (data : list byte) (size : nat)
      (output : list byte) :
  size <= length data -> size <= length output ->
  SimdLookupTable.classify_identifier_start_avx2_simple data size output
  = Some (size,
          map (fun ch => SimdLookupTable.byte_of_N
                           (N.land (lookup ch) CHAR_IDENT_START))
              (firstn (16 * (size / 16)) data)
          ++ map (fun ch => SimdLookupTable.flag (is_identifier_start ch))
                 (firstn (size - 16 * (size / 16))
                         (skipn (16 * (size / 16)) data))
          ++ skipn size output).
Proof.
  intros Hd Ho.
  unfold SimdLookupTable.classify_identifier_start_avx2_simple.
  rewrite (classifier_spec
             16 size _
             (fun i => SimdLookupTable.byte_of_N
                         (N.land (lookup (SimdLookupTable.load data i))
                                 CHAR_IDENT_START))
             (fun i => SimdLookupTable.flag
                         (SimdLookupTable.ident_start_lookup
                            (SimdLookupTable.load data i)))
             output); try lia.
  - pose proof (Nat.Div0.mul_div_le size 16) as HP.
    rewrite <- (map_map (SimdLookupTable.load data)
                        (fun ch => SimdLookupTable.byte_of_N
                                     (N.land (lookup ch) CHAR_IDENT_START))).
    rewrite <- (map_map (SimdLookupTable.load data)
                        (fun ch => SimdLookupTable.flag
                                     (SimdLookupTable.ident_start_lookup ch))).
    rewrite !loads_are_firstn by lia. reflexivity.
  - intros p o Hp Hl. rewrite loadu_lanes.
    rewrite masked_classes_lanes by apply length_seq.
    rewrite storeu_spec by (try lia; now rewrite length_map, length_seq).
    reflexivity.
Qed.

(** X17. The scalar classifier returns [size]; it writes 1 at the
    identifier-start bytes and 0 at the others of the first [size] bytes,
    and leaves the rest of the output buffer as it was. *)
Theorem X17_scalar_classifier
        (data : list byte) (size : nat) (output : list byte) :
  size <= length data -> size <= length output ->
  SimdLookupTable.classify_identifier_start_scalar data size output
  = (size,
     map (fun ch => SimdLookupTable.flag (is_identifier_start ch))
         (firstn size data)
     ++ skipn size output).
Proof. exact (scalar_spec data size output). Qed.

Lemma X17_scalar_classifier_witness :
  let data := bytes "id_1 = x" in
  let output := repeat xff 10 in
  SimdLookupTable.classify_identifier_start_scalar data 8 output
  = (8,
     map (fun ch => SimdLookupTable.flag (is_identifier_start ch))
         (firstn 8 data)
     ++ skipn 8 output).
Proof.
  apply (X17_scalar_classifier (bytes "id_1 = x") 8 (repeat xff 10));
    simpl; lia.
Defined.

(** X18. The two classifiers built on signed range comparisons,
    [classify_identifier_start_sse2] and
    [classify_identifier_start_ssse3_advanced], end and give what the
    scalar classifier gives, for every byte value (the bytes from 0x80
    on, negative as [int8_t], included) and every size, a multiple of 16
    or not. *)
Theorem X18_range_classifiers_match_scalar
        (data : list byte) (size : nat) (output : list byte) :
  size <= length data -> size <= length output ->
  SimdLookupTable.classify_identifier_start_sse2 data size output
  = Some (SimdLookupTable.classify_identifier_start_scalar data size output)
  /\
  SimdLookupTable.classify_identifier_start_ssse3_advanced data size output
  = Some (SimdLookupTable.classify_identifier_start_scalar data size output).
Proof.
  intros Hd Ho.
  rewrite sse2_spec, ssse3_advanced_spec, scalar_spec by assumption.
  split; reflexivity.
Qed.

Lemma X18_range_classifiers_match_scalar_witness :
  let data := bytes "SELECT user_id, user_name FROM t" ++ [xc3; xa9; x5f] in
  let output := repeat xff 40 in
  SimdLookupTable.classify_identifier_start_sse2 data 35 output
  = Some (SimdLookupTable.classify_identifier_start_scalar data 35 output)
  /\
  SimdLookupTable.classify_identifier_start_ssse3_advanced data 35 output
  = Some (SimdLookupTable.classify_identifier_start_scalar data 35 output).
Proof.
  apply (X18_range_classifiers_match_scalar
           (bytes "SELECT user_id, user_name FROM t" ++ [xc3; xa9; x5f])
           35 (repeat xff 40));
    simpl; lia.
Defined.

(** X19. The classifiers that look 16 bytes up through [temp] and turn
    the masked classes into 0 or 1
    ([classify_identifier_start_sse2_lookup], and with the same body
    [classify_identifier_start_sse42] and
    [classify_identifier_start_ssse3]) end and give what the scalar
    classifier gives. *)
Theorem X19_lookup_classifiers_match_scalar
        (data : list byte) (size : nat) (output : list byte) :
  size <= length data -> size <= length output ->
  let scalar :=
    SimdLookupTable.classify_identifier_start_scalar data size output in
  SimdLookupTable.classify_identifier_start_sse2_lookup data size output
  = Some scalar /\
  SimdLookupTable.classify_identifier_start_sse42 data size output
  = Some scalar /\
  SimdLookupTable.classify_identifier_start_ssse3 data size output
  = Some scalar.
Proof.
  intros Hd Ho scalar. subst scalar.
  unfold SimdLookupTable.classify_identifier_start_sse42,
    SimdLookupTable.classify_identifier_start_ssse3.
  rewrite sse2_lookup_spec, scalar_spec by assumption.
  repeat split.
Qed.

Lemma X19_lookup_classifiers_match_scalar_witness :
  let data := bytes "SELECT user_id, user_name FROM t" ++ [xc3; xa9; x5f] in
  let output := repeat xff 40 in
  let scalar :=
    SimdLookupTable.classify_identifier_start_scalar data 35 output in
  SimdLookupTable.classify_identifier_start_sse2_lookup data 35 output
  = Some scalar /\
  SimdLookupTable.classify_identifier_start_sse42 data 35 output
  = Some scalar /\
  SimdLookupTable.classify_identifier_start_ssse3 data 35 output
  = Some scalar.
Proof.
  apply (X19_lookup_classifiers_match_scalar
           (bytes "SELECT user_id, user_name FROM t" ++ [xc3; xa9; x5f])
           35 (repeat xff 40));
    simpl; lia.
Defined.

(** X20. [classify_identifier_start_avx2_simple] (and the NEON
    classifier, the same loop) stores the masked class of the bytes of
    whole 16-byte chunks as it is: its output is zero exactly where the
    scalar output is zero, so the count of matches is the same, but the
    two outputs are equal only when no byte of the whole chunks starts
    an identifier; such a byte gets 2, 4 or 16 and not 1. *)
Theorem X20_raw_store_classifier
        (data : list byte) (size : nat) (output : list byte) :
  size <= length data -> size <= length output ->
  let scalar :=
    snd (SimdLookupTable.classify_identifier_start_scalar data size output) in
  exists out,
    SimdLookupTable.classify_identifier_start_avx2_simple data size output
    = Some (size, out) /\
    SimdLookupTable.classify_identifier_start_neon data size output
    = Some (size, out) /\
    map SimdLookupTable.nonzero out = map SimdLookupTable.nonzero scalar /\
    (out = scalar <->
     Forall (fun ch => is_identifier_start ch = false)
            (firstn (16 * (size / 16)) data)) /\
    (forall i, i < 16 * (size / 16) ->
               is_identifier_start (nth i data x00) = true ->
               In (nth i out x00) [x02; x04; x10]).
Proof.
  intros Hd Ho scalar. subst scalar.
  unfold SimdLookupTable.classify_identifier_start_neon.
  rewrite avx2_simple_spec, scalar_spec by assumption. cbn [snd].
  pose proof (Nat.Div0.mul_div_le size 16) as HP.
  set (P := 16 * (size / 16)) in *.
  rewrite (firstn_chunked byte data P size HP).
  eexists. split; [reflexivity|]. split; [reflexivity|].
  rewrite (map_app (fun ch => SimdLookupTable.flag (is_identifier_start ch))),
    <- !app_assoc.
  split; [|split].
  - rewrite !map_app, !map_map. f_equal.
    apply map_ext. intros ch.
    now rewrite masked_class_flag_nonzero, flag_nonzero.
  - rewrite <- map_eq_Forall. split.
    + intros H. apply app_eq_same_length in H; [|now rewrite !length_map].
      destruct H as [H _]. rewrite map_eq_Forall in H |- *.
      revert H. apply Forall_impl. intros ch. apply masked_class_raw.
    + intros H. f_equal. rewrite map_eq_Forall in H |- *.
      revert H. apply Forall_impl. intros ch. apply masked_class_raw.
  - intros i Hi Hs.
    rewrite app_nth1 by (rewrite length_map, length_firstn; lia).
    rewrite (nth_indep _ x00
               (SimdLookupTable.byte_of_N
                  (N.land (lookup x00) CHAR_IDENT_START)))
      by (rewrite length_map, length_firstn; lia).
    rewrite (map_nth (fun ch => SimdLookupTable.byte_of_N
                                  (N.land (lookup ch) CHAR_IDENT_START))
                     (firstn P data) x00 i).
    rewrite nth_firstn.
    replace (i <? P) with true by (symmetry; apply Nat.ltb_lt; lia).
    revert Hs. generalize (nth i data x00). intros ch.
    destruct ch; vm_compute; intros H; try discriminate; auto.
Qed.

Lemma X20_raw_store_classifier_witness :
  let data := bytes "SELECT user_id, user_name FROM t" ++ [xc3; xa9; x5f] in
  let output := repeat xff 40 in
  let scalar :=
    snd (SimdLookupTable.classify_identifier_start_scalar data 35 output) in
  exists out,
    SimdLookupTable.classify_identifier_start_avx2_simple data 35 output
    = Some (35, out) /\
    SimdLookupTable.classify_identifier_start_neon data 35 output
    = Some (35, out) /\
    map SimdLookupTable.nonzero out = map SimdLookupTable.nonzero scalar /\
    (out = scalar <->
     Forall (fun ch => is_identifier_start ch = false)
            (firstn (16 * (35 / 16)) data)) /\
    (forall i, i < 16 * (35 / 16) ->
               is_identifier_start (nth i data x00) = true ->
               In (nth i out x00) [x02; x04; x10]).
Proof.
  apply (X20_raw_store_classifier
           (bytes "SELECT user_id, user_name FROM t" ++ [xc3; xa9; x5f])
           35 (repeat xff 40));
    simpl; lia.
Defined.

(** *** The 64-bit comparison masks *)

Lemma testbit_mask_of (bits : list bool) (i : nat) :
  N.testbit (SimdLookupTable.mask_of bits) (N.of_nat i) = nth i bits false.
Proof.
  revert i; induction bits as [|b bits IH]; intros i.
  - simpl. now destruct i.
  - cbn [SimdLookupTable.mask_of]. destruct i as [|i].
    + apply N.testbit_0_r.
    + rewrite Nat2N.inj_succ, N.testbit_succ_r. apply IH.
Qed.

Lemma land_bit (m i : N) :
  (N.land m (N.shiftl 1 i) =? 0)%N = negb (N.testbit m i).
Proof.
  rewrite N.shiftl_1_l.
  destruct (N.testbit m i) eqn:E; simpl.
  - apply N.eqb_neq. intros H.
    pose proof (N.land_spec m (2 ^ i) i) as B.
    rewrite H, E, N.pow2_bits_true, N.bits_0 in B. discriminate.
  - apply N.eqb_eq. apply N.bits_inj. intros j.
    rewrite N.land_spec, N.bits_0, N.pow2_bits_eqb.
    destruct (N.eqb_spec i j) as [<-|]; [now rewrite E|].
    apply andb_false_r.
Qed.

Lemma cmpeq_mask_bit (L : nat -> byte) (c : byte) (p i : nat) :
  i < 64 ->
  N.testbit
    (SimdLookupTable._mm512_cmpeq_epi8_mask
       (map L (seq p 64)) (SimdLookupTable._mm512_set1_epi8 c))
    (N.of_nat i)
  = (L (p + i) ==b c).
Proof.
  intros Hi. unfold SimdLookupTable._mm512_cmpeq_epi8_mask.
  rewrite testbit_mask_of.
  assert (E : SimdLookupTable._mm512_set1_epi8 c
              = map (fun _ => c) (seq p 64)).
  { unfold SimdLookupTable._mm512_set1_epi8.
    rewrite <- (length_seq p 64) at 1.
    generalize (seq p 64). intros l.
    induction l as [|x l IH]; simpl; congruence. }
  rewrite E.
  assert (C : forall l : list nat,
             map (fun q => fst q ==b snd q)
                 (combine (map L l) (map (fun _ => c) l))
             = map (fun x => L x ==b c) l).
  { intros l. induction l as [|x l IH]; simpl; congruence. }
  rewrite C.
  rewrite (nth_indep _ false (L 0 ==b c))
    by (rewrite length_map, length_seq; lia).
  rewrite (map_nth (fun x => L x ==b c) (seq p 64) 0 i).
  now rewrite seq_nth by lia.
Qed.

Lemma whitespace_range_table (ch : byte) :
  SimdLookupTable.whitespace_range ch = is_whitespace ch.
Proof. destruct ch; vm_compute; reflexivity. Qed.

Lemma avx512_whitespace_spec
      (data : list byte) (size : nat) (output : list byte) :
  size <= length data -> size <= length output ->
  SimdLookupTable.classify_whitespace_avx512 data size output
  = Some (size,
          map (fun ch => SimdLookupTable.flag (is_whitespace ch))
              (firstn size data)
          ++ skipn size output).
Proof.
  intros Hd Ho. unfold SimdLookupTable.classify_whitespace_avx512.
  cbv zeta.
  apply (classifier_uniform
           64 size _
           (fun ch => SimdLookupTable.flag (is_whitespace ch))
           _ data output); try lia.
  - intros p o Hp Hl.
    rewrite (fold_store _ 64 p
               (fun i => SimdLookupTable.flag
                           (is_whitespace
                              (SimdLookupTable.load data (p + i))))
               o).
    + now rewrite (seq_from p 64), map_map.
    + lia.
    + intros i o' Hi _ _ _.
      rewrite land_bit, negb_involutive, !N.lor_spec.
      unfold SimdLookupTable._mm512_loadu_si512.
      rewrite <- (map_map (Nat.add p) (SimdLookupTable.load data)).
      rewrite <- (seq_from p 64).
      rewrite !cmpeq_mask_bit by assumption.
      rewrite <- whitespace_range_table. reflexivity.
  - intros i. now rewrite whitespace_range_table.
Qed.

Lemma cmpestrc_whitespace (ch : byte) :
  SimdLookupTable._mm_cmpestrc_equal_any
    SimdLookupTable.whitespace_set 4 (SimdLookupTable._mm_set1_epi8 ch) 1
  = is_whitespace ch.
Proof. destruct ch; vm_compute; reflexivity. Qed.

Lemma sse42_whitespace_spec
      (data : list byte) (size : nat) (output : list byte) :
  size <= length data -> size <= length output ->
  SimdLookupTable.classify_whitespace_sse42 data size output
  = Some (size,
          map (fun ch => SimdLookupTable.flag (is_whitespace ch))
              (firstn size data)
          ++ skipn size output).
Proof.
  intros Hd Ho. unfold SimdLookupTable.classify_whitespace_sse42.
  cbv zeta.
  apply (classifier_uniform
           16 size _
           (fun ch => SimdLookupTable.flag (is_whitespace ch))
           _ data output); try lia.
  - intros p o Hp Hl.
    rewrite (fold_store _ 16 p
               (fun i => SimdLookupTable.flag
                           (is_whitespace
                              (SimdLookupTable.load data (p + i))))
               o).
    + now rewrite (seq_from p 16), map_map.
    + lia.
    + intros i o' Hi _ _ _. now rewrite cmpestrc_whitespace.
  - intros i. now rewrite whitespace_range_table.
Qed.

(** X21. The two whitespace classifiers end and write 1 exactly at the
    bytes the table classifies as whitespace and 0 at the others of the
    first [size] bytes, leaving the rest of the output buffer as it was:
    [classify_whitespace_avx512], which compares 64 lanes with each of
    the four whitespace bytes, joins the comparison masks and tests bit
    [i] for lane [i], and [classify_whitespace_sse42], which asks
    [_mm_cmpestrc] whether the byte is any of the four. *)
Theorem X21_whitespace_classifiers
        (data : list byte) (size : nat) (output : list byte) :
  size <= length data -> size <= length output ->
  let expected :=
    Some (size,
          map (fun ch => SimdLookupTable.flag (is_whitespace ch))
              (firstn size data)
          ++ skipn size output) in
  SimdLookupTable.classify_whitespace_avx512 data size output = expected /\
  SimdLookupTable.classify_whitespace_sse42 data size output = expected.
Proof.
  intros Hd Ho expected. subst expected. split.
  - now apply avx512_whitespace_spec.
  - now apply sse42_whitespace_spec.
Qed.

Lemma X21_whitespace_classifiers_witness :
  let data :=
    bytes "SELECT  a," ++ [x09; x0a; x0d; x0b; xa0]
          ++ bytes " FROM t WHERE x = 1 AND y = 2 ORDER BY a LIMIT 10 ;"
          ++ [x0a] ++ bytes "-- end" in
  let output := repeat xff 80 in
  let expected :=
    Some (70,
          map (fun ch => SimdLookupTable.flag (is_whitespace ch))
              (firstn 70 data)
          ++ skipn 70 output) in
  SimdLookupTable.classify_whitespace_avx512 data 70 output = expected /\
  SimdLookupTable.classify_whitespace_sse42 data 70 output = expected.
Proof.
  apply (X21_whitespace_classifiers
           (bytes "SELECT  a," ++ [x09; x0a; x0d; x0b; xa0]
                  ++ bytes " FROM t WHERE x = 1 AND y = 2 ORDER BY a LIMIT 10 ;"
                  ++ [x0a] ++ bytes "-- end")
           70 (repeat xff 80));
    simpl; lia.
Defined.

(* ===================================================================== *)
(** ** Operators: the first match, and where tokenization restarts *)
(* ===================================================================== *)

Lemma scan_operator_or_delimiter_extent (X : list byte) (l c : nat)
      (s : State) :
  position_ s < length X ->
  let '(t, s') := scan_operator_or_delimiter X (position_ s) l c s in
  value t = {| sv_data := InputPlus (position_ s);
               sv_size := position_ s' - position_ s |} /\
  (position_ s' = position_ s + 1 \/ position_ s' = position_ s + 2) /\
  (position_ s' = position_ s + 2 <->
   position_ s + 1 < length X /\
   In (at_ X (position_ s), at_ X (position_ s + 1)) extension_table).
Proof.
  intros Hlt. unfold scan_operator_or_delimiter. cbv zeta.
  simpl position_.
  destruct (position_ s + 1 <? input_size_ X) eqn:B.
  + apply Nat.ltb_lt in B. unfold input_size_ in B.
    destruct (two_byte_operator (at_ X (position_ s))
                (at_ X (position_ s + 1))) eqn:E; simpl.
    * apply two_byte_operator_table in E.
      splits; [ reflexivity | right; lia | ].
      split; [ intros _; split; assumption | intros _; lia ].
    * splits; [ reflexivity | left; reflexivity | ].
      split; [ lia | ].
      intros [ _ H ]. apply two_byte_operator_table in H. congruence.
  + apply Nat.ltb_ge in B. unfold input_size_ in B. simpl.
    splits; [ reflexivity | left; reflexivity | ].
    split; [ lia | intros [ H _ ]; lia ].
Qed.

(** The length of the token [next_token] returns at an operator: two
    bytes for a pair of the table, one byte for a byte that passed the
    tests before [scan_operator_or_delimiter] and that the next byte
    does not extend. *)
Lemma operator_token_size {dict : KeywordDictionary} (X : list byte)
      (s : State) (t : Token) (s' : State) :
  position_ s < length X -> next_token X s = Some (t, s') ->
  (position_ s + 1 < length X ->
   In (at_ X (position_ s), at_ X (position_ s + 1)) extension_table ->
   size_of t = 2) /\
  (is_identifier_start (at_ X (position_ s)) = false ->
   is_digit (at_ X (position_ s)) = false ->
   is_quote (at_ X (position_ s)) = false ->
   ~ opens_comment X (position_ s) ->
   (position_ s + 1 < length X ->
    ~ In (at_ X (position_ s), at_ X (position_ s + 1)) extension_table) ->
   size_of t = 1).
Proof.
  intros Hlt E.
  pose proof (scan_operator_or_delimiter_extent X (line_ s) (column_ s) s Hlt)
    as Scan.
  split.
  - intros H1 Hin.
    destruct (extension_first_byte _ _ Hin) as (I & D & Q & M & Sl).
    rewrite (next_token_operator X s) in E by (auto; contradiction).
    destruct (scan_operator_or_delimiter X (position_ s) (line_ s)
                (column_ s) s) as [ t0 s0 ].
    injection E as <- <-. destruct Scan as (V & _ & P).
    assert (E : position_ s0 = position_ s + 2) by (apply P; auto).
    unfold size_of. rewrite V. simpl. lia.
  - intros I D Q NC NE.
    rewrite (next_token_operator X s) in E; auto.
    + destruct (scan_operator_or_delimiter X (position_ s) (line_ s)
                  (column_ s) s) as [ t0 s0 ].
      injection E as <- <-. destruct Scan as (V & [ P | P ] & Qi).
      * unfold size_of. rewrite V. simpl. lia.
      * exfalso. apply Qi in P. destruct P as [ P1 P2 ]. exact (NE P1 P2).
    + intros Ha Hl Hb. apply NC. split; [ exact Hl | left; split; assumption ].
    + intros Ha Hl Hb. apply NC. split; [ exact Hl | right; split; assumption ].
Qed.

Lemma operator_sizes {dict : KeywordDictionary} (X : list byte)
      (tokens : list Token) (t : Token) :
  tokenize X = Some tokens -> In t tokens ->
  (offset_of t + 1 < length X ->
   In (at_ X (offset_of t), at_ X (offset_of t + 1)) extension_table ->
   size_of t = 2) /\
  (is_identifier_start (at_ X (offset_of t)) = false ->
   is_digit (at_ X (offset_of t)) = false ->
   is_quote (at_ X (offset_of t)) = false ->
   ~ opens_comment X (offset_of t) ->
   (offset_of t + 1 < length X ->
    ~ In (at_ X (offset_of t), at_ X (offset_of t + 1)) extension_table) ->
   size_of t = 1).
Proof.
  intros E Hin. revert t Hin. apply Forall_forall.
  apply (tokenize_Forall X); [ | exact E ].
  intros s t s' Hlt _ W En.
  destruct (next_token_offset X s t s' Hlt En) as (_ & -> & _).
  exact (operator_token_size X s t s' Hlt En).
Qed.

Lemma skipped_at_none (X : list byte) (c : nat) :
  c < length X -> is_whitespace (at_ X c) = false -> skipped_at X c = 0.
Proof.
  intros Hlt W. unfold skipped_at.
  rewrite (skipn_uncons _ X c x00) by exact Hlt.
  unfold at_ in W. simpl. now rewrite W.
Qed.

Lemma Tiles_app (X : list byte) (pre l : list Token) :
  forall c p, Tiles X c (pre ++ l) p -> exists c', Tiles X c' l p.
Proof.
  induction pre as [ | t pre IH ]; intros c p H; simpl in H.
  - exists c. exact H.
  - destruct H as [ _ H ]. exact (IH _ _ H).
Qed.

(** Tokenization restarts right after a token that a byte other than
    whitespace follows: the next token starts there. *)
Lemma token_follows {dict : KeywordDictionary} (X : list byte)
      (pre : list Token) (t1 : Token) (rest : list Token) :
  tokenize X = Some (pre ++ t1 :: rest) ->
  end_of t1 < length X ->
  is_whitespace (at_ X (end_of t1)) = false ->
  exists t2 rest', rest = t2 :: rest' /\ offset_of t2 = end_of t1.
Proof.
  intros E Hlt W.
  destruct (tokenize_spec X) as (tokens & E' & p & T & Hend).
  rewrite E in E'. injection E' as <-.
  destruct (Tiles_app X pre (t1 :: rest) 0 p T) as (c & Em & T').
  cbn [Tiles] in T'.
  destruct (Emitted_offset X _ t1 Em) as [ _ O1 ].
  rewrite <- O1 in T'. fold (end_of t1) in T'.
  pose proof (skipped_at_none X (end_of t1) Hlt W) as Z.
  destruct rest as [ | t2 rest' ].
  - simpl in T'. subst p. lia.
  - destruct T' as [ Em2 _ ]. exists t2, rest'. split; [ reflexivity | ].
    destruct (Emitted_offset X _ t2 Em2) as [ _ O2 ]. lia.
Qed.

Lemma two_tokens {dict : KeywordDictionary} (X : list byte)
      (tokens : list Token) (p n1 n2 : nat) :
  tokenize X = Some tokens -> starts_token tokens p ->
  (forall t, In t tokens -> offset_of t = p -> size_of t = n1) ->
  p + n1 < length X -> is_whitespace (at_ X (p + n1)) = false ->
  (forall t, In t tokens -> offset_of t = p + n1 -> size_of t = n2) ->
  splits_at tokens p n1 n2.
Proof.
  intros E (t & Hin & Ho) S1 Hlt W S2.
  pose proof (S1 t Hin Ho) as Sz.
  apply in_split in Hin. destruct Hin as (pre & rest & ->).
  assert (En : end_of t = p + n1) by (unfold end_of; lia).
  destruct (token_follows X pre t rest E) as (t2 & rest' & -> & O2);
    rewrite ?En; auto.
  exists pre, t, t2, rest'.
  split; [ reflexivity | ]. split; [ exact Ho | ]. split; [ exact Sz | ].
  split; [ lia | ].
  apply S2; [ | lia ].
  apply in_or_app. right. right. left. reflexivity.
Qed.

Lemma slice_bytes (X : list byte) (p : nat) (w : list byte) :
  0 < length w -> slice X p (p + length w) = w ->
  p + length w <= length X /\
  forall i, i < length w -> at_ X (p + i) = nth i w x00.
Proof.
  intros Hw H. unfold slice in H.
  replace (p + length w - p) with (length w) in H by lia.
  pose proof (f_equal (@length byte) H) as L.
  rewrite length_firstn, length_skipn in L.
  split; [ lia | ].
  intros i Hi. rewrite <- H at 1.
  rewrite nth_firstn.
  replace (i <? length w) with true by (symmetry; apply Nat.ltb_lt; exact Hi).
  rewrite nth_skipn. reflexivity.
Qed.

(** The token that starts at the operator byte [c], which the bytes of
    [exts] and no others extend. *)
Lemma second_operator_size {dict : KeywordDictionary} (X : list byte)
      (tokens : list Token) (q : nat) (c : byte) (exts : list byte) :
  tokenize X = Some tokens -> q < length X -> at_ X q = c ->
  is_identifier_start c = false -> is_digit c = false ->
  is_quote c = false -> c <> c_minus -> c <> c_slash ->
  (forall ch, two_byte_operator c ch = one_of exts ch) ->
  forall t, In t tokens -> offset_of t = q ->
    size_of t = match peek X (q + 1) with
                | Some ch => if one_of exts ch then 2 else 1
                | None => 1
                end.
Proof.
  intros E Hlt Hc I D Q M Sl Hext t Hin Ho.
  destruct (operator_sizes X tokens t E Hin) as [ A B ].
  rewrite Ho, Hc in A, B.
  assert (NC : ~ opens_comment X q).
  { intros [ _ [ [ Ha _ ] | [ Ha _ ] ] ]; congruence. }
  unfold peek. destruct (q + 1 <? length X) eqn:L.
  - apply Nat.ltb_lt in L.
    destruct (one_of exts (at_ X (q + 1))) eqn:O.
    + apply A; [ exact L | ].
      apply two_byte_operator_table. now rewrite Hext.
    + apply B; auto.
      intros _ Hin'. apply two_byte_operator_table in Hin'.
      rewrite Hext in Hin'. congruence.
  - apply Nat.ltb_ge in L. apply B; auto. intros H. lia.
Qed.

(** A pair of the table followed by an operator byte [c]: the pair is
    one token and [c] starts the next one. *)
Lemma splits_after_pair {dict : KeywordDictionary} (a b c : byte)
      (exts : list byte) :
  In (a, b) extension_table ->
  is_identifier_start c = false -> is_digit c = false ->
  is_quote c = false -> is_whitespace c = false ->
  c <> c_minus -> c <> c_slash ->
  (forall ch, two_byte_operator c ch = one_of exts ch) ->
  splits_by_next [a; b; c] 2 exts.
Proof.
  intros Hin I D Q W M Sl Hext X tokens p E St Hs.
  destruct (slice_bytes X p [a; b; c]) as (Hlen & Hat);
    [ simpl; lia | exact Hs | ].
  cbn [length] in *.
  pose proof (Hat 0 ltac:(lia)) as H0.
  pose proof (Hat 1 ltac:(lia)) as H1.
  pose proof (Hat 2 ltac:(lia)) as H2.
  rewrite Nat.add_0_r in H0. cbn [nth] in H0, H1, H2.
  apply (two_tokens X tokens p 2); auto.
  - intros t Ht Ho.
    destruct (operator_sizes X tokens t E Ht) as [ A _ ].
    rewrite Ho in A. apply A; [ lia | ]. now rewrite H0, H1.
  - lia.
  - now rewrite H2.
  - intros t Ht Ho.
    rewrite (second_operator_size X tokens (p + 2) c exts E) with (t := t);
      auto; try lia.
    now replace (p + 2 + 1) with (p + 3) by lia.
Qed.

(** A dash followed by [>]: the dash is a token of one byte and [>]
    starts the next one. *)
Lemma splits_arrow {dict : KeywordDictionary} :
  splits_by_next [c_minus; c_gt] 1 [c_eq; c_gt].
Proof.
  intros X tokens p E St Hs.
  destruct (slice_bytes X p [c_minus; c_gt]) as (Hlen & Hat);
    [ simpl; lia | exact Hs | ].
  cbn [length] in *.
  pose proof (Hat 0 ltac:(lia)) as H0.
  pose proof (Hat 1 ltac:(lia)) as H1.
  rewrite Nat.add_0_r in H0. cbn [nth] in H0, H1.
  apply (two_tokens X tokens p 1); auto.
  - intros t Ht Ho.
    destruct (operator_sizes X tokens t E Ht) as [ _ B ].
    rewrite Ho, H0 in B. apply B; try reflexivity.
    + intros [ _ [ [ _ Hb ] | [ Ha _ ] ] ].
      * rewrite H1 in Hb. discriminate Hb.
      * rewrite H0 in Ha. discriminate Ha.
    + intros _ Hin. rewrite H1 in Hin.
      apply two_byte_operator_table in Hin. discriminate Hin.
  - lia.
  - now rewrite H1.
  - intros t Ht Ho.
    rewrite (second_operator_size X tokens (p + 1) c_gt [c_eq; c_gt] E)
      with (t := t); auto; try lia; try discriminate.
    + now replace (p + 1 + 1) with (p + 2) by lia.
    + intros ch. destruct ch; reflexivity.
Qed.

Lemma four_equals_tokens {dict : KeywordDictionary} :
  let op o n c :=
    {| type := TokenType.Operator;
       value := {| sv_data := InputPlus o; sv_size := n |};
       keyword_id := Keyword.UNKNOWN; line := 1; column := c |} in
  tokenize (bytes "====") = Some [op 0 2 1; op 2 2 3] /\
  tokenize (bytes "!===") = Some [op 0 2 1; op 2 2 3] /\
  tokenize (bytes "<<<<") = Some [op 0 2 1; op 2 2 3] /\
  tokenize (bytes "->>") = Some [op 0 1 1; op 1 2 2].
Proof. cbv zeta. repeat split. Qed.

Lemma not_splits_at (t1 t2 : Token) (n1 n2 : nat) :
  offset_of t1 = 0 -> offset_of t2 <> 0 -> size_of t2 <> n2 ->
  ~ splits_at [t1; t2] 0 n1 n2.
Proof.
  intros O1 O2 S2 (pre & a & b & post & E & Oa & _ & _ & Sb).
  destruct pre as [ | x [ | y pre ] ]; simpl in E.
  - injection E as <- <- _. contradiction.
  - injection E as _ <- _. contradiction.
  - injection E as _ _ E. destruct pre; discriminate E.
Qed.

(** C4 as stated fails: under no keyword dictionary does any of the four
    consequences hold for every input.  In [====] the bytes [===] begin a
    token and are tokenized as [==] and [==]; likewise [!===] gives [!=]
    and [==], [<<<<] gives [<<] and [<<], and [->>] gives [-] and
    [>>]. *)
Lemma C4_operator_extension_counterexample :
  ~ exists dict : KeywordDictionary,
      always_splits (bytes "===") 2 1 \/
      always_splits (bytes "!==") 2 1 \/
      always_splits (bytes "<<<") 2 1 \/
      always_splits (bytes "->") 1 1.
Proof.
  intros (dict & H).
  destruct (@four_equals_tokens dict) as (E1 & E2 & E3 & E4).
  assert (St : forall t1 t2 : Token,
             offset_of t1 = 0 -> starts_token [t1; t2] 0).
  { intros t1 t2 O. exists t1. split; [ left; reflexivity | exact O ]. }
  destruct H as [ H | [ H | [ H | H ] ] ].
  - eapply not_splits_at;
      [ | | | apply (H _ _ 0 E1); [ apply St; reflexivity | reflexivity ] ];
      simpl; try reflexivity; discriminate.
  - eapply not_splits_at;
      [ | | | apply (H _ _ 0 E2); [ apply St; reflexivity | reflexivity ] ];
      simpl; try reflexivity; discriminate.
  - eapply not_splits_at;
      [ | | | apply (H _ _ 0 E3); [ apply St; reflexivity | reflexivity ] ];
      simpl; try reflexivity; discriminate.
  - eapply not_splits_at;
      [ | | | apply (H _ _ 0 E4); [ apply St; reflexivity | reflexivity ] ];
      simpl; try reflexivity; discriminate.
Qed.

(** C4 (amended). [scan_operator_or_delimiter] consumes one byte or two,
    and two exactly when a next byte exists and the pair is in the
    extension table.  In every input a pair of the table met at a token
    start is one token of two bytes, and [-] followed by [>] is a token
    of one byte.  In every input, where [===] begins a token the tokens
    are [==] and then [=], unless the byte that follows is [=]: then the
    second token is [==]; likewise [!==] gives [!=] and then [=] unless
    [=] follows, [<<<] gives [<<] and then [<] unless [<], [=] or [>]
    follows, and [->] gives [-] and then [>] unless [=] or [>] follows.
    The inputs [===], [!==], [<<<] and [->], taken alone, give [==] then
    [=], [!=] then [=], [<<] then [<], and [-] then [>]. *)
Theorem C4_operator_extension {dict : KeywordDictionary} :
  (forall (X : list byte) (l c : nat) (s : State),
      position_ s < length X ->
      let '(t, s') := scan_operator_or_delimiter X (position_ s) l c s in
      value t = {| sv_data := InputPlus (position_ s);
                   sv_size := position_ s' - position_ s |} /\
      (position_ s' = position_ s + 1 \/ position_ s' = position_ s + 2) /\
      (position_ s' = position_ s + 2 <->
       position_ s + 1 < length X /\
       In (at_ X (position_ s), at_ X (position_ s + 1)) extension_table)) /\
  (forall (X : list byte) (s : State),
      position_ s + 1 < length X ->
      In (at_ X (position_ s), at_ X (position_ s + 1)) extension_table ->
      exists t s',
        next_token X s = Some (t, s') /\
        value t = {| sv_data := InputPlus (position_ s); sv_size := 2 |} /\
        position_ s' = position_ s + 2) /\
  (forall (X : list byte) (s : State),
      position_ s + 1 < length X ->
      at_ X (position_ s) = c_minus -> at_ X (position_ s + 1) = c_gt ->
      exists t s',
        next_token X s = Some (t, s') /\
        type t = TokenType.Operator /\
        value t = {| sv_data := InputPlus (position_ s); sv_size := 1 |} /\
        position_ s' = position_ s + 1) /\
  (splits_by_next (bytes "===") 2 (bytes "=") /\
   splits_by_next (bytes "!==") 2 (bytes "=") /\
   splits_by_next (bytes "<<<") 2 (bytes "<=>") /\
   splits_by_next (bytes "->") 1 (bytes "=>")) /\
  (let op o n l c :=
     {| type := TokenType.Operator;
        value := {| sv_data := InputPlus o; sv_size := n |};
        keyword_id := Keyword.UNKNOWN; line := l; column := c |} in
   tokenize [c_eq; c_eq; c_eq] = Some [op 0 2 1 1; op 2 1 1 3] /\
   tokenize [c_bang; c_eq; c_eq] = Some [op 0 2 1 1; op 2 1 1 3] /\
   tokenize [c_lt; c_lt; c_lt] = Some [op 0 2 1 1; op 2 1 1 3] /\
   tokenize [c_minus; c_gt] = Some [op 0 1 1 1; op 1 1 1 2]).
Proof.
  pose proof scan_operator_or_delimiter_extent as Scan.
  split; [ exact Scan | ]. split; [ | split; [ | split ] ].
  - intros X s Hlt Hin.
    destruct (extension_first_byte _ _ Hin) as (I & D & Q & M & Sl).
    rewrite (next_token_operator X s) by (auto; try lia; contradiction).
    specialize (Scan X (line_ s) (column_ s) s).
    destruct (scan_operator_or_delimiter X (position_ s) (line_ s)
                (column_ s) s) as [ t s' ].
    destruct Scan as (V & _ & P); [ lia | ].
    assert (E : position_ s' = position_ s + 2) by (apply P; auto).
    exists t, s'. splits; [ reflexivity | | exact E ].
    rewrite V. f_equal. lia.
  - intros X s Hlt Ha Hb.
    rewrite (next_token_operator X s);
      try rewrite Ha; try reflexivity; try lia; try discriminate;
      try (intros _ _; rewrite Hb; discriminate).
    specialize (Scan X (line_ s) (column_ s) s).
    assert (Ty : type (fst (scan_operator_or_delimiter X (position_ s)
                              (line_ s) (column_ s) s))
                 = TokenType.Operator).
    { unfold scan_operator_or_delimiter. cbv zeta. simpl.
      rewrite Ha. reflexivity. }
    destruct (scan_operator_or_delimiter X (position_ s) (line_ s)
                (column_ s) s) as [ t s' ].
    destruct Scan as (V & [ P | P ] & Q); [ lia | | ].
    + exists t, s'. splits; [ reflexivity | exact Ty | | exact P ].
      rewrite V. f_equal. lia.
    + exfalso. apply Q in P. destruct P as [ _ P ].
      rewrite Ha, Hb in P. unfold extension_table in P. simpl in P.
      repeat match type of P with
             | _ \/ _ => destruct P as [ P | P ]
             end; try contradiction; discriminate P.
  - split; [ | split; [ | split ] ].
    + apply (splits_after_pair c_eq c_eq c_eq [c_eq]);
        try reflexivity; try discriminate.
      * simpl. tauto.
      * intros ch. destruct ch; reflexivity.
    + apply (splits_after_pair c_bang c_eq c_eq [c_eq]);
        try reflexivity; try discriminate.
      * simpl. tauto.
      * intros ch. destruct ch; reflexivity.
    + apply (splits_after_pair c_lt c_lt c_lt [c_lt; c_eq; c_gt]);
        try reflexivity; try discriminate.
      * simpl. tauto.
      * intros ch. destruct ch; reflexivity.
    + exact splits_arrow.
  - cbv zeta. splits; reflexivity.
Qed.

Lemma C4_operator_extension_witness :
  (let '(t, s') :=
     scan_operator_or_delimiter [c_lt; c_gt; c_eq] (position_ init) 1 1 init in
   value t = {| sv_data := InputPlus 0; sv_size := position_ s' - 0 |} /\
   (position_ s' = 0 + 1 \/ position_ s' = 0 + 2) /\
   (position_ s' = 0 + 2 <->
    0 + 1 < 3 /\ In (c_lt, c_gt) extension_table)) /\
  (exists tokens,
      @tokenize no_keywords (bytes "x===1") = Some tokens /\
      splits_at tokens 1 2 1) /\
  (exists tokens,
      @tokenize no_keywords (bytes "a->>b") = Some tokens /\
      splits_at tokens 1 1 2).
Proof.
  split; [ | split ].
  - apply (proj1 (@C4_operator_extension no_keywords)
                 [c_lt; c_gt; c_eq] 1 1 init).
    simpl. lia.
  - eexists. split; [ vm_compute; reflexivity | ].
    match goal with
    | |- splits_at ?l _ _ _ =>
        assert (E : @tokenize no_keywords (bytes "x===1") = Some l)
          by (vm_compute; reflexivity);
        assert (St : starts_token l 1)
          by (eexists; split; [ right; left; reflexivity | reflexivity ])
    end.
    assert (Sl : slice (bytes "x===1") 1 (1 + length (bytes "==="))
                 = bytes "===")
      by (vm_compute; reflexivity).
    exact (proj1 (proj1 (proj2 (proj2 (proj2
                   (@C4_operator_extension no_keywords)))))
                 (bytes "x===1") _ 1 E St Sl).
  - eexists. split; [ vm_compute; reflexivity | ].
    match goal with
    | |- splits_at ?l _ _ _ =>
        assert (E : @tokenize no_keywords (bytes "a->>b") = Some l)
          by (vm_compute; reflexivity);
        assert (St : starts_token l 1)
          by (eexists; split; [ right; left; reflexivity | reflexivity ])
    end.
    assert (Sl : slice (bytes "a->>b") 1 (1 + length (bytes "->"))
                 = bytes "->")
      by (vm_compute; reflexivity).
    exact (proj2 (proj2 (proj2 (proj1 (proj2 (proj2 (proj2
                   (@C4_operator_extension no_keywords)))))))
                 (bytes "a->>b") _ 1 E St Sl).
Defined.
